(** * Lazy-propagation interval aggregation: dense and sparse trees

    A shallow embedding of [LazyPropSegtree] (LazyPropSegtree.cpp) and of
    [DynamicSegmentTree] (DynamicSegmentTree.cpp), and the properties of the
    design document checked against them.

    Conventions.
    - A C++ [int] or [long long] is a [Z]; [/] and [%] are the truncating
      [Z.quot] and [Z.rem]; [>>] is [Z.shiftr].  The dense tree's indices
      stay far below 2^31 ([2 * size_] elements are allocated), so no
      wrap-around is written for them; the sparse tree's [long long]
      midpoint is wrapped to 64 bits.
    - A [std::vector] is a [list]; an access outside [0, size) is undefined
      behaviour in C++ and is the failure [None] here.
    - The client functions [op], [updVal], [updLazy] and [operator==] on the
      update type are parameters. *)

From stdpp Require Import base option list numbers.
From Stdlib Require Import ZArith Lia Zify.

Local Open Scope Z_scope.

(** Every lemma of a section takes all the variables and hypotheses of the
    section. *)
Set Default Proof Using "All".

(** [lia] on [/], [mod], [Z.quot] and [Z.rem]. *)
Ltac Zify.zify_post_hook ::= Z.to_euclidean_division_equations.

(** ** std::vector accessed by an [int] index *)

Section Vector.
Context {A : Type}.

Definition vget (v : list A) (i : Z) : option A :=
  if decide (0 <= i) then v !! Z.to_nat i else None.

Definition vset (v : list A) (i : Z) (x : A) : option (list A) :=
  if decide (0 <= i < Z.of_nat (length v))
  then Some (<[Z.to_nat i := x]> v) else None.
End Vector.

(** ** Combining a run of values *)

Section Combine.
Context {T : Type}.
Variable op : T -> T -> T.
Variable io : T.

(** [f x], [f (x + 1)], ..., [n] values in all, combined from left to
    right; [io] when there is none. *)
Fixpoint combine_from (f : Z -> T) (x : Z) (n : nat) : T :=
  match n with
  | O => io
  | S n' => op (f x) (combine_from f (x + 1) n')
  end.
End Combine.

(** ** The dense tree: LazyPropSegtree *)

Module Dense.
Section Dense.
Context {T U : Type}.
Variable op : T -> T -> T.
Variable updVal : T -> U -> T.
Variable updLazy : U -> U -> U.
(** [operator==] of the update type. *)
Variable U_eqb : U -> U -> bool.

Record LazyPropSegtree : Type := mkTree {
  size_ : Z;
  LOG_ : Z;
  identityOp_ : T;
  identityUpdate_ : U;
  tree_ : list T;
  lazy_ : list U
}.

(** Member functions run in a state monad over the object, with failure
    for an out-of-range vector access. *)
Definition M (A : Type) : Type := LazyPropSegtree -> option (A * LazyPropSegtree).

Definition ret {A} (a : A) : M A := fun s => Some (a, s).
Definition bind {A B} (m : M A) (k : A -> M B) : M B :=
  fun s => match m s with
           | Some (a, s') => k a s'
           | None => None
           end.

Notation "x <- m ;; k" := (bind m (fun x => k))
  (at level 100, m at next level, right associativity).
Notation "m ;; k" := (bind m (fun _ => k))
  (at level 100, right associativity).

Definition rd_tree (i : Z) : M T :=
  fun s => match vget (tree_ s) i with Some x => Some (x, s) | None => None end.
Definition rd_lazy (i : Z) : M U :=
  fun s => match vget (lazy_ s) i with Some x => Some (x, s) | None => None end.
Definition wr_tree (i : Z) (x : T) : M unit :=
  fun s => match vset (tree_ s) i x with
           | Some t => Some (tt, mkTree (size_ s) (LOG_ s) (identityOp_ s)
                                        (identityUpdate_ s) t (lazy_ s))
           | None => None
           end.
Definition wr_lazy (i : Z) (x : U) : M unit :=
  fun s => match vset (lazy_ s) i x with
           | Some l => Some (tt, mkTree (size_ s) (LOG_ s) (identityOp_ s)
                                        (identityUpdate_ s) (tree_ s) l)
           | None => None
           end.
Definition get_size : M Z := fun s => Some (size_ s, s).
Definition get_LOG : M Z := fun s => Some (LOG_ s, s).
Definition get_idOp : M T := fun s => Some (identityOp_ s, s).
Definition get_idUpd : M U := fun s => Some (identityUpdate_ s, s).

(** [__builtin_clz] on a positive 32-bit value. *)
Definition clz (x : Z) : Z := 31 - Z.log2 x.

(** *** Constructors *)

(** The build loop [for (i = size_ - 1; i > 0; --i)], [k] iterations left,
    so that [i = k]. *)
Fixpoint build (k : nat) (t : list T) : option (list T) :=
  match k with
  | O => Some t
  | S k' =>
      let i := Z.of_nat k in
      a ← vget t (2 * i);
      b ← vget t (2 * i + 1);
      t' ← vset t i (op a b);
      build k' t'
  end.

(** Constructor from a range of elements; [T_default] is the
    value-initialised [T()] that [tree_(2 * size_)] fills the vector with. *)
Definition from_range (T_default : T) (xs : list T) (identityOp : T)
    (identityUpdate : U) : option LazyPropSegtree :=
  let size := Z.of_nat (length xs) in
  t ← build (Z.to_nat (size - 1)) (replicate (length xs) T_default ++ xs);
  Some (mkTree size (32 - clz size) identityOp identityUpdate t
               (replicate (Z.to_nat size) identityUpdate)).

(** Constructor with a given size. *)
Definition from_size (size : Z) (identityOp : T) (identityUpdate : U)
    : LazyPropSegtree :=
  mkTree size (31 - clz size) identityOp identityUpdate
         (replicate (Z.to_nat (2 * size)) identityOp)
         (replicate (Z.to_nat size) identityUpdate).

(** *** Propagate *)

(** Body of the [for] loop of [Propagate] at node [i]. *)
Definition Propagate_inner (i : Z) : M unit :=
  li <- rd_lazy i ;;
  e <- get_idUpd ;;
  if U_eqb li e then ret tt
  else
    a <- rd_tree (2 * i) ;;
    l1 <- rd_lazy i ;;
    wr_tree (2 * i) (updVal a l1) ;;
    b <- rd_lazy (2 * i) ;;
    l2 <- rd_lazy i ;;
    wr_lazy (2 * i) (updLazy b l2) ;;
    c <- rd_tree (2 * i + 1) ;;
    l3 <- rd_lazy i ;;
    wr_tree (2 * i + 1) (updVal c l3) ;;
    d <- rd_lazy (2 * i + 1) ;;
    l4 <- rd_lazy i ;;
    wr_lazy (2 * i + 1) (updLazy d l4) ;;
    wr_lazy i e.

(** [for (int shift = LOG_; shift > 1; --shift)]. *)
Fixpoint Propagate_loop (shift : nat) (pos : Z) : M unit :=
  match shift with
  | S (S _ as shift') =>
      Propagate_inner (Z.shiftr pos (Z.of_nat shift)) ;;
      Propagate_loop shift' pos
  | _ => ret tt
  end.

(** The last step of [Propagate], on the parent of [pos]: the children are
    taken to be leaves, only their aggregates are touched. *)
Definition Propagate_last (pos : Z) : M unit :=
  li <- rd_lazy pos ;;
  e <- get_idUpd ;;
  if U_eqb li e then ret tt
  else
    a <- rd_tree (2 * pos) ;;
    l1 <- rd_lazy pos ;;
    wr_tree (2 * pos) (updVal a l1) ;;
    c <- rd_tree (2 * pos + 1) ;;
    l3 <- rd_lazy pos ;;
    wr_tree (2 * pos + 1) (updVal c l3) ;;
    wr_lazy pos e.

Definition Propagate (pos : Z) : M unit :=
  lg <- get_LOG ;;
  Propagate_loop (Z.to_nat lg) pos ;;
  Propagate_last (Z.quot pos 2).

(** *** Query *)

(** [while (left < right)]; the loop halves both indices, so
    [fuel = right] iterations are more than it can run on indices that
    are not negative. *)
Fixpoint Query_loop (fuel : nat) (left right : Z) (left_result right_result : T)
    : M (T * T) :=
  if decide (left < right) then
    match fuel with
    | O => fun _ => None
    | S fuel' =>
        lr <- (if decide (Z.rem left 2 = 1)
               then x <- rd_tree left ;; ret (left + 1, op left_result x)
               else ret (left, left_result)) ;;
        rr <- (if decide (Z.rem right 2 = 1)
               then x <- rd_tree (right - 1) ;; ret (right - 1, op x right_result)
               else ret (right, right_result)) ;;
        Query_loop fuel' (Z.quot (fst lr) 2) (Z.quot (fst rr) 2) (snd lr) (snd rr)
    end
  else ret (left_result, right_result).

Definition Query (left right : Z) : M T :=
  e <- get_idOp ;;
  n <- get_size ;;
  let left := left + n in
  let right := right + n in
  Propagate left ;;
  Propagate (right - 1) ;;
  res <- Query_loop (Z.to_nat right) left right e e ;;
  ret (op (fst res) (snd res)).

(** *** Update *)

(** [recalculate_after_update]: [while (pos > 0)]. *)
Fixpoint recalculate_loop (fuel : nat) (pos : Z) : M unit :=
  if decide (pos > 0) then
    match fuel with
    | O => fun _ => None
    | S fuel' =>
        a <- rd_tree (2 * pos) ;;
        b <- rd_tree (2 * pos + 1) ;;
        wr_tree pos (op a b) ;;
        c <- rd_tree pos ;;
        l <- rd_lazy pos ;;
        wr_tree pos (updVal c l) ;;
        recalculate_loop fuel' (Z.quot pos 2)
    end
  else ret tt.

Definition recalculate_after_update (pos : Z) : M unit :=
  recalculate_loop (Z.to_nat (Z.quot pos 2)) (Z.quot pos 2).

(** The [while (left < right)] loop of [Update]. *)
Fixpoint Update_loop (fuel : nat) (left right : Z) (value : U) : M unit :=
  if decide (left < right) then
    match fuel with
    | O => fun _ => None
    | S fuel' =>
        left' <- (if decide (Z.rem left 2 = 1)
                  then a <- rd_tree left ;;
                       wr_tree left (updVal a value) ;;
                       l <- rd_lazy left ;;
                       wr_lazy left (updLazy l value) ;;
                       ret (left + 1)
                  else ret left) ;;
        right' <- (if decide (Z.rem right 2 = 1)
                   then a <- rd_tree (right - 1) ;;
                        wr_tree (right - 1) (updVal a value) ;;
                        l <- rd_lazy (right - 1) ;;
                        wr_lazy (right - 1) (updLazy l value) ;;
                        ret (right - 1)
                   else ret right) ;;
        Update_loop fuel' (Z.quot left' 2) (Z.quot right' 2) value
    end
  else ret tt.

Definition Update (left right : Z) (value : U) : M unit :=
  n <- get_size ;;
  let left := left + n in
  let right := right + n in
  let _left := left in
  let _right := right in
  left <- (if decide (Z.rem left 2 = 1)
           then a <- rd_tree left ;;
                wr_tree left (updVal a value) ;;
                ret (left + 1)
           else ret left) ;;
  right <- (if decide (Z.rem right 2 = 1)
            then a <- rd_tree (right - 1) ;;
                 wr_tree (right - 1) (updVal a value) ;;
                 ret (right - 1)
            else ret right) ;;
  let left := Z.quot left 2 in
  let right := Z.quot right 2 in
  Update_loop (Z.to_nat right) left right value ;;
  recalculate_after_update _left ;;
  recalculate_after_update (_right - 1).

(** *** Sequences of calls *)

Inductive call : Type :=
| CallUpdate (left right : Z) (value : U)
| CallQuery (left right : Z).

(** Runs the calls in order and collects what the queries return. *)
Fixpoint run (cs : list call) (s : LazyPropSegtree) : option (list T * LazyPropSegtree) :=
  match cs with
  | [] => Some ([], s)
  | CallUpdate l r v :: cs' =>
      match Update l r v s with
      | Some (_, s') => run cs' s'
      | None => None
      end
  | CallQuery l r :: cs' =>
      match Query l r s with
      | Some (x, s') =>
          match run cs' s' with
          | Some (xs, s'') => Some (x :: xs, s'')
          | None => None
          end
      | None => None
      end
  end.

(** What the queries among [cs] return on a freshly constructed tree. *)
Definition results (cs : list call) (s : option LazyPropSegtree) : option (list T) :=
  match s with
  | Some s => fst <$> run cs s
  | None => None
  end.

(** *** The object as a pair of total maps *)

(** [tree_[i]] and [lazy_[i]], with the identities standing in outside the
    vectors (where the code would not be defined). *)
Definition tr (s : LazyPropSegtree) (i : Z) : T :=
  default (identityOp_ s) (vget (tree_ s) i).
Definition lzf (s : LazyPropSegtree) (i : Z) : U :=
  default (identityUpdate_ s) (vget (lazy_ s) i).

(** [tree_[i] = x] and [lazy_[i] = x] as functions on the object. *)
Definition set_tr (s : LazyPropSegtree) (i : Z) (x : T) : LazyPropSegtree :=
  mkTree (size_ s) (LOG_ s) (identityOp_ s) (identityUpdate_ s)
         (<[Z.to_nat i := x]> (tree_ s)) (lazy_ s).
Definition set_lz (s : LazyPropSegtree) (i : Z) (x : U) : LazyPropSegtree :=
  mkTree (size_ s) (LOG_ s) (identityOp_ s) (identityUpdate_ s)
         (tree_ s) (<[Z.to_nat i := x]> (lazy_ s)).

(** The object holds [N >= 1] elements in vectors of the sizes the
    constructors give them. *)
Definition sized (N : Z) (s : LazyPropSegtree) : Prop :=
  size_ s = N /\ 1 <= N /\
  Z.of_nat (length (tree_ s)) = 2 * N /\ Z.of_nat (length (lazy_ s)) = N.

(** What [Propagate] does at [i] when the tag there is not the identity. *)
Definition push_inner (i : Z) (s : LazyPropSegtree) : LazyPropSegtree :=
  let s1 := set_tr s (2 * i) (updVal (tr s (2 * i)) (lzf s i)) in
  let s2 := set_lz s1 (2 * i) (updLazy (lzf s1 (2 * i)) (lzf s1 i)) in
  let s3 := set_tr s2 (2 * i + 1) (updVal (tr s2 (2 * i + 1)) (lzf s2 i)) in
  let s4 := set_lz s3 (2 * i + 1) (updLazy (lzf s3 (2 * i + 1)) (lzf s3 i)) in
  set_lz s4 i (identityUpdate_ s).

Definition push_last (p : Z) (s : LazyPropSegtree) : LazyPropSegtree :=
  let s1 := set_tr s (2 * p) (updVal (tr s (2 * p)) (lzf s p)) in
  let s2 := set_tr s1 (2 * p + 1) (updVal (tr s1 (2 * p + 1)) (lzf s1 p)) in
  set_lz s2 p (identityUpdate_ s).

(** What [Update] does to a node it applies the update to: to the
    aggregate, and below the leaves' level to the tag as well. *)
Definition touch (with_tag : bool) (value : U) (t : Z) (s : LazyPropSegtree)
    : LazyPropSegtree :=
  let s1 := set_tr s t (updVal (tr s t) value) in
  if with_tag then set_lz s1 t (updLazy (lzf s1 t) value) else s1.

(** One round of [recalculate_after_update]. *)
Definition recalc_at (p : Z) (s : LazyPropSegtree) : LazyPropSegtree :=
  let s1 := set_tr s p (op (tr s (2 * p)) (tr s (2 * p + 1))) in
  set_tr s1 p (updVal (tr s1 p) (lzf s1 p)).

(** *** The member functions as functions on the object

    The loops of the member functions, followed on the total maps; where
    every access is inside the vectors the monadic code computes the same
    (module [DenseExec]). *)

Definition push_if (i : Z) (s : LazyPropSegtree) : LazyPropSegtree :=
  if U_eqb (lzf s i) (identityUpdate_ s) then s else push_inner i s.

Fixpoint propagate_from (shift : nat) (pos : Z) (s : LazyPropSegtree)
    : LazyPropSegtree :=
  match shift with
  | S (S _ as shift') =>
      propagate_from shift' pos (push_if (Z.shiftr pos (Z.of_nat shift)) s)
  | _ => s
  end.

Definition propagated (pos : Z) (s : LazyPropSegtree) : LazyPropSegtree :=
  let s1 := propagate_from (Z.to_nat (LOG_ s)) pos s in
  if U_eqb (lzf s1 (Z.quot pos 2)) (identityUpdate_ s1) then s1
  else push_last (Z.quot pos 2) s1.

Fixpoint gather (fuel : nat) (s : LazyPropSegtree) (left right : Z)
    (left_result right_result : T) : T * T :=
  if decide (left < right) then
    match fuel with
    | O => (left_result, right_result)
    | S fuel' =>
        let lr := if decide (Z.rem left 2 = 1)
                  then (left + 1, op left_result (tr s left))
                  else (left, left_result) in
        let rr := if decide (Z.rem right 2 = 1)
                  then (right - 1, op (tr s (right - 1)) right_result)
                  else (right, right_result) in
        gather fuel' s (Z.quot (fst lr) 2) (Z.quot (fst rr) 2) (snd lr) (snd rr)
    end
  else (left_result, right_result).

(** The nodes one round of the [while] loop of [Update] applies the update
    to, and the indices it goes on with. *)
Definition round_nodes (left right : Z) : list Z :=
  (if decide (Z.rem left 2 = 1) then [left] else []) ++
  (if decide (Z.rem right 2 = 1) then [right - 1] else []).
Definition next_left (left : Z) : Z :=
  Z.quot (if decide (Z.rem left 2 = 1) then left + 1 else left) 2.
Definition next_right (right : Z) : Z :=
  Z.quot (if decide (Z.rem right 2 = 1) then right - 1 else right) 2.

(** The nodes the [while] loop of [Update] applies the update to. *)
Fixpoint touched (fuel : nat) (left right : Z) : list Z :=
  if decide (left < right) then
    match fuel with
    | O => []
    | S fuel' =>
        round_nodes left right ++ touched fuel' (next_left left) (next_right right)
    end
  else [].

Definition touch_all (with_tag : bool) (value : U) (ts : list Z)
    (s : LazyPropSegtree) : LazyPropSegtree :=
  foldl (fun s t => touch with_tag value t s) s ts.

Fixpoint recalc_from (fuel : nat) (pos : Z) (s : LazyPropSegtree) : LazyPropSegtree :=
  if decide (pos > 0) then
    match fuel with
    | O => s
    | S fuel' => recalc_from fuel' (Z.quot pos 2) (recalc_at pos s)
    end
  else s.

Definition recalculated (pos : Z) (s : LazyPropSegtree) : LazyPropSegtree :=
  recalc_from (Z.to_nat (Z.quot pos 2)) (Z.quot pos 2) s.

Definition query_state (left right : Z) (s : LazyPropSegtree) : LazyPropSegtree :=
  propagated (right + size_ s - 1) (propagated (left + size_ s) s).

Definition query_result (left right : Z) (s : LazyPropSegtree) : T :=
  let res := gather (Z.to_nat (right + size_ s)) (query_state left right s)
                    (left + size_ s) (right + size_ s)
                    (identityOp_ s) (identityOp_ s) in
  op (fst res) (snd res).

Definition update_state (left right : Z) (value : U) (s : LazyPropSegtree)
    : LazyPropSegtree :=
  let l := left + size_ s in
  let r := right + size_ s in
  let s1 := touch_all false value (round_nodes l r) s in
  let s2 := touch_all true value
              (touched (Z.to_nat (next_right r)) (next_left l) (next_right r)) s1 in
  recalculated (r - 1) (recalculated l s2).

(** *** Invariants of the dense tree *)

(** The identities the object was constructed with. *)
Definition wf (N : Z) (io : T) (iu : U) (s : LazyPropSegtree) : Prop :=
  sized N s /\ identityOp_ s = io /\ identityUpdate_ s = iu.

(** A pending tag sits only on a node whose subtree is a complete binary
    tree of leaves: [j] levels down, node [t] covers the leaves
    [t * 2^j, (t + 1) * 2^j), all within [N, 2N). *)
Definition proper_node (N t : Z) : Prop :=
  exists j, 0 <= j /\ N <= t * 2 ^ j /\ (t + 1) * 2 ^ j <= 2 * N.

Definition tags_proper (N : Z) (iu : U) (s : LazyPropSegtree) : Prop :=
  forall t, 0 <= t < N -> lzf s t <> iu -> proper_node N t.

(** A call within bounds, [0 <= left <= right <= N]. *)
Definition in_bounds (N : Z) (c : call) : Prop :=
  match c with
  | CallUpdate l r _ => 0 <= l /\ l <= r /\ r <= N
  | CallQuery l r => 0 <= l /\ l <= r /\ r <= N
  end.

(** A call within bounds on a range that is not empty. *)
Definition nonempty_call (N : Z) (c : call) : Prop :=
  match c with
  | CallUpdate l r _ => 0 <= l /\ l < r /\ r <= N
  | CallQuery l r => 0 <= l /\ l < r /\ r <= N
  end.

(** The calls with [Query(left, right)] put before every
    [Update(left, right, value)]. *)
Fixpoint guarded (cs : list call) : list call :=
  match cs with
  | [] => []
  | CallUpdate l r v :: cs' => CallQuery l r :: CallUpdate l r v :: guarded cs'
  | CallQuery l r :: cs' => CallQuery l r :: guarded cs'
  end.

(** The left end of the range of a call. *)
Definition left_end (c : call) : Z :=
  match c with
  | CallUpdate l _ _ => l
  | CallQuery l _ => l
  end.

(** Two objects that hold the same aggregates from index 1 on and the same
    tags; [tree_[0]] and [LOG_] are left free. *)
Definition agree (s1 s2 : LazyPropSegtree) : Prop :=
  (forall i, 1 <= i -> tr s1 i = tr s2 i) /\ (forall i, lzf s1 i = lzf s2 i).

(** *** What a node stands for *)

(** The node [q] and its ancestors, up to the root. *)
Fixpoint chain_fuel (fuel : nat) (q : Z) : list Z :=
  match fuel with
  | O => []
  | S fuel' => if decide (1 <= q) then q :: chain_fuel fuel' (q / 2) else []
  end.
Definition chain (q : Z) : list Z := chain_fuel (Z.to_nat q) q.

(** [x] with the tags pending on the proper ancestors of [q] applied to it,
    the nearest ancestor first. *)
Definition pend (s : LazyPropSegtree) (q : Z) (x : T) : T :=
  foldl (fun acc p => updVal acc (lzf s p)) x (chain (q / 2)).

(** The aggregate node [q] stands for: the stored one with the tags still
    pending above it applied. *)
Definition node_value (s : LazyPropSegtree) (q : Z) : T := pend s q (tr s q).

(** No tag is pending on [x] or above it. *)
Definition cleared (iu : U) (s : LazyPropSegtree) (x : Z) : Prop :=
  forall p, p ∈ chain x -> lzf s p = iu.

(** The sequence the tree stands for. *)
Definition leaves (s : LazyPropSegtree) : list T :=
  (fun k => node_value s (size_ s + k)) <$> seqZ 0 (size_ s).

(** Every node below the leaves stands for the combination of what its
    children stand for. *)
Definition consistent (N : Z) (s : LazyPropSegtree) : Prop :=
  forall p, 1 <= p < N ->
    node_value s p = op (node_value s (2 * p)) (node_value s (2 * p + 1)).

(** The object stands for the sequence [a]: it is as the constructors
    size it, tags sit on proper nodes only, and the nodes stand for the
    combinations of the elements of [a]. *)
Definition represents (N : Z) (io : T) (iu : U) (s : LazyPropSegtree)
    (a : list T) : Prop :=
  wf N io iu s /\ tags_proper N iu s /\
  (LOG_ s = Z.log2 N \/ LOG_ s = Z.log2 N + 1) /\
  consistent N s /\ leaves s = a.

(** The object is what one of the two constructors makes for the elements
    [xs]: the size constructor for [N] copies of [identityOp], the range
    constructor for any [N] elements. *)
Definition constructed (T_default : T) (N : Z) (io : T) (iu : U)
    (xs : list T) (s : LazyPropSegtree) : Prop :=
  (xs = replicate (Z.to_nat N) io /\ s = from_size N io iu) \/
  (Z.of_nat (length xs) = N /\ from_range T_default xs io iu = Some s).

(** How many of the nodes [ts] lie on the chain of [q]; how many nodes of
    the chain of [q] lie in [x, y). *)
Definition hits (ts : list Z) (q : Z) : nat :=
  length (filter (fun t => t ∈ chain q) ts).
Definition in_range_count (x y q : Z) : nat :=
  length (filter (fun p => x <= p < y) (chain q)).

Definition apply_times (n : nat) (u : U) (x : T) : T :=
  Nat.iter n (fun x => updVal x u) x.

(** *** The reference array

    The O(N)-per-operation array of the design document: an update is
    applied to each element of the range, a query combines the elements of
    the range from left to right. *)

Definition ref_update (left right : Z) (value : U) (a : list T) : list T :=
  imap (fun k x => if decide (left <= Z.of_nat k < right) then updVal x value else x) a.

Definition ref_query (io : T) (left right : Z) (a : list T) : T :=
  foldr op io (take (Z.to_nat (right - left)) (drop (Z.to_nat left) a)).

Fixpoint ref_run (io : T) (cs : list call) (a : list T) : list T :=
  match cs with
  | [] => []
  | CallUpdate l r v :: cs' => ref_run io cs' (ref_update l r v a)
  | CallQuery l r :: cs' => ref_query io l r a :: ref_run io cs' a
  end.

Fixpoint ref_state (cs : list call) (a : list T) : list T :=
  match cs with
  | [] => a
  | CallUpdate l r v :: cs' => ref_state cs' (ref_update l r v a)
  | CallQuery _ _ :: cs' => ref_state cs' a
  end.

End Dense.
End Dense.

(** ** The sparse tree: DynamicSegmentTree *)

(** A [long long] result of an addition, wrapped to 64 bits. *)
Definition wrap64 (z : Z) : Z := (z + 2 ^ 63) mod 2 ^ 64 - 2 ^ 63.

(** What a call of the recursive member functions comes to: a result, a
    dereferenced null child, or a recursion deeper than the fuel given. *)
Inductive outcome (A : Type) : Type :=
| Done (a : A)
| NullDeref
| OutOfFuel.
Arguments Done {A} a.
Arguments NullDeref {A}.
Arguments OutOfFuel {A}.

Definition obind {A B} (m : outcome A) (k : A -> outcome B) : outcome B :=
  match m with
  | Done a => k a
  | NullDeref => NullDeref
  | OutOfFuel => OutOfFuel
  end.

Module Sparse.
Section Sparse.
Context {T U : Type}.
Variable op : T -> T -> T.
(** [updLazy(lazy, value, v, start, end)] takes the pending tag and the
    stored aggregate by reference; it is modelled by the pair of values it
    leaves in them.  (The template parameter [updVal] is not called by any
    member function.) *)
Variable updLazy : U -> T -> U -> Z -> Z -> U * T.
Variable U_eqb : U -> U -> bool.

(** An owning pointer to a node: [nullptr] or the node it points to. *)
Inductive DynamicSegmentTree : Type :=
| nullptr
| Node (start_ end_ middle_ : Z) (identityOp_ : T) (identityUpdate_ : U)
       (value_ : T) (lazy_ : U) (left_ right_ : DynamicSegmentTree).

Definition new_node (start end_ : Z) (identityOp : T) (identityUpdate : U)
    : DynamicSegmentTree :=
  Node start end_ (Z.quot (wrap64 (start + end_)) 2) identityOp identityUpdate
       identityOp identityUpdate nullptr nullptr.

(** [updLazy(p->lazy_, p->value_, v, p->start_, p->end_)] through a child
    pointer [p]. *)
Definition push_into (p : DynamicSegmentTree) (v : U) : outcome DynamicSegmentTree :=
  match p with
  | nullptr => NullDeref
  | Node s e m io iu val lz l r =>
      let '(lz', val') := updLazy lz val v s e in
      Done (Node s e m io iu val' lz' l r)
  end.

Definition Propagate (t : DynamicSegmentTree) : outcome DynamicSegmentTree :=
  match t with
  | nullptr => NullDeref
  | Node s e m io iu val lz l r =>
      let '(l, r) :=
        match l with
        | nullptr => (new_node s m io iu, new_node (wrap64 (m + 1)) e io iu)
        | _ => (l, r)
        end in
      if U_eqb lz iu then Done (Node s e m io iu val lz l r)
      else
        obind (push_into l lz) (fun l' =>
        obind (push_into r lz) (fun r' =>
        Done (Node s e m io iu val iu l' r')))
  end.

Definition value_of (p : DynamicSegmentTree) : outcome T :=
  match p with
  | nullptr => NullDeref
  | Node _ _ _ _ _ val _ _ _ => Done val
  end.

(** [Query] returns the aggregate and the tree as [Propagate] left it.  The
    two recursive calls work on different children, so the order in which
    [op]'s arguments are evaluated does not matter. *)
Fixpoint Query (fuel : nat) (t : DynamicSegmentTree) (left right : Z)
    : outcome (T * DynamicSegmentTree) :=
  match fuel with
  | O => OutOfFuel
  | S fuel' =>
      match t with
      | nullptr => NullDeref
      | Node s e m io iu val lz l r =>
          if decide (right < s \/ e < left) then Done (io, t)
          else if decide (left <= s /\ e <= right) then Done (val, t)
          else
            obind (Propagate t) (fun t' =>
            match t' with
            | nullptr => NullDeref
            | Node s e m io iu val lz l r =>
                obind (Query fuel' l left right) (fun a =>
                obind (Query fuel' r left right) (fun b =>
                Done (op (fst a) (fst b),
                      Node s e m io iu val lz (snd a) (snd b))))
            end)
      end
  end.

Fixpoint Update (fuel : nat) (t : DynamicSegmentTree) (left right : Z) (value : U)
    : outcome DynamicSegmentTree :=
  match fuel with
  | O => OutOfFuel
  | S fuel' =>
      match t with
      | nullptr => NullDeref
      | Node s e m io iu val lz l r =>
          if decide (right < s \/ e < left) then Done t
          else if decide (left <= s /\ e <= right) then
            let '(lz', val') := updLazy lz val value s e in
            Done (Node s e m io iu val' lz' l r)
          else
            obind (Propagate t) (fun t' =>
            match t' with
            | nullptr => NullDeref
            | Node s e m io iu val lz l r =>
                obind (Update fuel' l left right value) (fun l' =>
                obind (Update fuel' r left right value) (fun r' =>
                obind (value_of l') (fun a =>
                obind (value_of r') (fun b =>
                Done (Node s e m io iu (op a b) lz l' r')))))
            end)
      end
  end.

(** Number of allocated nodes (the allocation counter). *)
Fixpoint nodes (t : DynamicSegmentTree) : nat :=
  match t with
  | nullptr => O
  | Node _ _ _ _ _ _ _ l r => S (nodes l + nodes r)
  end.

(** Nodes at depth [d] or deeper; the root is at depth 0. *)
Fixpoint nodes_below (d : nat) (t : DynamicSegmentTree) : nat :=
  match t with
  | nullptr => O
  | Node _ _ _ _ _ _ _ l r =>
      match d with
      | O => S (nodes l + nodes r)
      | S d' => (nodes_below d' l + nodes_below d' r)%nat
      end
  end.

(** *** Sequences of calls *)

Inductive call : Type :=
| CallUpdate (left right : Z) (value : U)
| CallQuery (left right : Z).

(** Runs the calls in order on the root, each with [fuel] levels of
    recursion, and collects what the queries return. *)
Fixpoint run (fuel : nat) (cs : list call) (t : DynamicSegmentTree)
    : outcome (list T * DynamicSegmentTree) :=
  match cs with
  | [] => Done ([], t)
  | CallUpdate l r v :: cs' =>
      obind (Update fuel t l r v) (fun t' => run fuel cs' t')
  | CallQuery l r :: cs' =>
      obind (Query fuel t l r) (fun a =>
      obind (run fuel cs' (snd a)) (fun b =>
      Done (fst a :: fst b, snd b)))
  end.

(** *** Invariants of the sparse tree *)

Definition start_of (t : DynamicSegmentTree) : Z :=
  match t with nullptr => 0 | Node s _ _ _ _ _ _ _ _ => s end.
Definition end_of (t : DynamicSegmentTree) : Z :=
  match t with nullptr => 0 | Node _ e _ _ _ _ _ _ _ => e end.

(** Every node with [start_ < end_] has [start_ <= middle_ < end_], and the
    children of a node, once allocated, are [start_, middle_] and
    [middle_ + 1, end_]. *)
Fixpoint partitioned (t : DynamicSegmentTree) : Prop :=
  match t with
  | nullptr => True
  | Node s e m _ _ _ _ l r =>
      m = Z.quot (wrap64 (s + e)) 2 /\
      (s < e -> s <= m < e) /\
      match l, r with
      | nullptr, nullptr => True
      | Node ls le _ _ _ _ _ _ _, Node rs re _ _ _ _ _ _ _ =>
          ls = s /\ le = m /\ rs = m + 1 /\ re = e /\
          partitioned l /\ partitioned r
      | _, _ => False
      end
  end.

(** The shape of a tree grown from [new_node s e io iu] with
    [0 <= s <= e < 2^62]. *)
Fixpoint shaped (io : T) (iu : U) (t : DynamicSegmentTree) : Prop :=
  match t with
  | nullptr => False
  | Node s e m io' iu' _ _ l r =>
      io' = io /\ iu' = iu /\ 0 <= s /\ s <= e /\ e < 2 ^ 62 /\ m = Z.div (s + e) 2 /\
      match l, r with
      | nullptr, nullptr => True
      | Node ls le _ _ _ _ _ _ _, Node rs re _ _ _ _ _ _ _ =>
          s < e /\ ls = s /\ le = m /\ rs = m + 1 /\ re = e /\
          shaped io iu l /\ shaped io iu r
      | _, _ => False
      end
  end.

(** [touched i] says that index [i] lies in the range of some update made so
    far.  A node none of whose indices is touched still holds the identity
    aggregate, and a pending tag sits only on nodes all of whose indices are
    touched. *)
Fixpoint fresh_outside (touched : Z -> Prop) (t : DynamicSegmentTree) : Prop :=
  match t with
  | nullptr => True
  | Node s e _ io iu val lz l r =>
      (lz = iu \/ forall i, s <= i <= e -> touched i) /\
      ((forall i, s <= i <= e -> ~ touched i) -> val = io) /\
      fresh_outside touched l /\ fresh_outside touched r
  end.

(** Indices inside the range of some update among the calls. *)
Definition touched_by (cs : list call) (i : Z) : Prop :=
  exists l r u, In (CallUpdate l r u) cs /\ l <= i <= r.

(** Levels of recursion that suffice on a node covering [s, e]. *)
Definition depth_bound (s e : Z) : nat := S (Z.to_nat (Z.log2_up (e - s + 1))).

(** *** Clear and the destructor *)

(** [Clear] returns the node as it leaves it, and how many nodes it has
    freed.  For a child pointer that is not null it calls [Clear] on the
    child, then [delete]s it: the destructor of the child calls [Clear] on
    it once more, and the node is freed. *)
Fixpoint Clear (fuel : nat) (t : DynamicSegmentTree)
    : outcome (DynamicSegmentTree * nat) :=
  match fuel with
  | O => OutOfFuel
  | S fuel' =>
      match t with
      | nullptr => NullDeref
      | Node s e m io iu val lz l r =>
          let clear_child (p : DynamicSegmentTree) : outcome nat :=
            match p with
            | nullptr => Done O
            | Node _ _ _ _ _ _ _ _ _ =>
                obind (Clear fuel' p) (fun a =>
                obind (Clear fuel' (fst a)) (fun b =>
                Done (S (snd a + snd b))))
            end in
          obind (clear_child l) (fun a =>
          obind (clear_child r) (fun b =>
          Done (Node s e m io iu val lz nullptr nullptr, (a + b)%nat)))
      end
  end.

(** Every stored aggregate of the tree is [x]. *)
Fixpoint all_values (x : T) (t : DynamicSegmentTree) : Prop :=
  match t with
  | nullptr => True
  | Node _ _ _ _ _ val _ l r => val = x /\ all_values x l /\ all_values x r
  end.

(** The number of queries among the calls. *)
Fixpoint queries (cs : list call) : nat :=
  match cs with
  | [] => O
  | CallUpdate _ _ _ :: cs' => queries cs'
  | CallQuery _ _ :: cs' => S (queries cs')
  end.

End Sparse.
End Sparse.

(** ** The sparse tree as a sequence *)

Module Refinement.
Import Sparse.
Section Refinement.
Context {T U : Type}.
Variable op : T -> T -> T.
Variable updVal : T -> U -> T.
Variable updLazy : U -> U -> U.
Variable io : T.

(** The callback of a client whose algebra is [updVal] and [updLazy]: it
    composes the update into the pending tag and applies it to the stored
    aggregate; the bounds of the node are not used. *)
Definition callback (lz : U) (val : T) (v : U) (s e : Z) : U * T :=
  (updLazy lz v, updVal val v).

(** [value_] of the node a pointer points to. *)
Definition stored (t : DynamicSegmentTree (T:=T) (U:=U)) : T :=
  match t with
  | nullptr => io
  | Node _ _ _ _ _ val _ _ _ => val
  end.

(** The element at index [i] of the sequence a node stands for: the
    aggregate of a node without children, which covers equal elements, and
    below a node with children the element of the child covering [i], with
    the pending tag of the node applied. *)
Fixpoint elem (t : DynamicSegmentTree (T:=T) (U:=U)) (i : Z) : T :=
  match t with
  | nullptr => io
  | Node s e m _ _ val lz l r =>
      match l with
      | nullptr => val
      | Node _ _ _ _ _ _ _ _ _ =>
          updVal (if decide (i <= m) then elem l i else elem r i) lz
      end
  end.

(** The stored aggregates fit the tags: a node without children holds the
    identity with its tag applied, a node with children the combination of
    its children's aggregates with its tag applied. *)
Fixpoint sound (t : DynamicSegmentTree (T:=T) (U:=U)) : Prop :=
  match t with
  | nullptr => True
  | Node s e m _ _ val lz l r =>
      match l with
      | nullptr => val = updVal io lz
      | Node _ _ _ _ _ _ _ _ _ => val = updVal (op (stored l) (stored r)) lz
      end /\ sound l /\ sound r
  end.

(** The call of the sparse tree, with its inclusive range, that does what
    a call of the dense tree does with its half-open range. *)
Definition inclusive (c : Dense.call (U:=U)) : Sparse.call (U:=U) :=
  match c with
  | Dense.CallUpdate l r v => Sparse.CallUpdate l (r - 1) v
  | Dense.CallQuery l r => Sparse.CallQuery l (r - 1)
  end.

(** The sparse tree over [0, N - 1] stands for the sequence [a]. *)
Definition stands_for (iu : U) (N : Z) (t : DynamicSegmentTree (T:=T) (U:=U))
    (a : list T) : Prop :=
  shaped io iu t /\ sound t /\ start_of t = 0 /\ end_of t = N - 1 /\
  Z.of_nat (length a) = N /\
  forall i, 0 <= i < N -> a !! Z.to_nat i = Some (elem t i).

End Refinement.
End Refinement.

(** ** The sparse tree with a callback that uses the bounds of the node *)

Module Ranged.
Import Sparse.
Section Ranged.
Context {T U : Type}.
Variable op : T -> T -> T.
(** [updValN x u n] is the update [u] applied to the aggregate [x] of [n]
    elements. *)
Variable updValN : T -> U -> Z -> T.
Variable updLazy : U -> U -> U.
Variable io : T.

(** The callback of a client whose updates depend on how many elements an
    aggregate covers: it composes the update into the pending tag and
    applies it to the stored aggregate of the [e - s + 1] elements of the
    node. *)
Definition callback (lz : U) (val : T) (v : U) (s e : Z) : U * T :=
  (updLazy lz v, updValN val v (e - s + 1)).

(** The update of one element. *)
Definition on_element (x : T) (u : U) : T := updValN x u 1.

(** The element at index [i] of the sequence a node stands for: below a
    node without children the identity with the tag of the node applied,
    below a node with children the element of the child covering [i], with
    the pending tag of the node applied. *)
Fixpoint elem (t : DynamicSegmentTree (T:=T) (U:=U)) (i : Z) : T :=
  match t with
  | nullptr => io
  | Node s e m _ _ val lz l r =>
      match l with
      | nullptr => on_element io lz
      | Node _ _ _ _ _ _ _ _ _ =>
          on_element (if decide (i <= m) then elem l i else elem r i) lz
      end
  end.

(** The stored aggregates fit the tags and the widths of the nodes. *)
Fixpoint sound (t : DynamicSegmentTree (T:=T) (U:=U)) : Prop :=
  match t with
  | nullptr => True
  | Node s e m _ _ val lz l r =>
      match l with
      | nullptr => val = updValN io lz (e - s + 1)
      | Node _ _ _ _ _ _ _ _ _ =>
          val = updValN (op (Refinement.stored io l) (Refinement.stored io r)) lz
                        (e - s + 1)
      end /\ sound l /\ sound r
  end.

(** What a call of the sparse tree over a domain that starts at [s0], with
    its inclusive range and whatever its arguments, is on the reference
    array, whose first element stands for index [s0]: an update of the
    indices of the range, a query of those that are not below [s0]. *)
Definition half_open (s0 : Z) (c : Sparse.call (U:=U)) : Dense.call (U:=U) :=
  match c with
  | Sparse.CallUpdate l r v => Dense.CallUpdate (l - s0) (r + 1 - s0) v
  | Sparse.CallQuery l r => Dense.CallQuery (Z.max l s0 - s0) (r + 1 - s0)
  end.

(** The sparse tree over [s0, e0] stands for the sequence [a]. *)
Definition stands_for (iu : U) (s0 e0 : Z) (t : DynamicSegmentTree (T:=T) (U:=U))
    (a : list T) : Prop :=
  shaped io iu t /\ sound t /\ start_of t = s0 /\ end_of t = e0 /\
  Z.of_nat (length a) = e0 - s0 + 1 /\
  forall i, s0 <= i <= e0 -> a !! Z.to_nat (i - s0) = Some (elem t i).

End Ranged.

(** Sums with additions: adding [v] to each of [n] elements adds [v * n]
    to their sum. *)
Definition sum_updValN (cur v n : Z) : Z := cur + v * n.

End Ranged.

(** ** Client algebras used in the scenarios *)

Module Algebra.
(** Sum over bare integers with additive update: [op = +], [updVal] adds
    the update once to whatever aggregate it is given. *)
Definition plain_op (a b : Z) : Z := a + b.
Definition plain_updVal (cur v : Z) : Z := cur + v.
Definition plain_updLazy (cur v : Z) : Z := cur + v.

(** Sum carried with the number of elements it ranges over, so that
    [updVal] can add the update once per element. *)
Definition sized_op (a b : Z * Z) : Z * Z := (a.1 + b.1, a.2 + b.2).
Definition sized_updVal (cur : Z * Z) (v : Z) : Z * Z := (cur.1 + v * cur.2, cur.2).
Definition unit_elems (xs : list Z) : list (Z * Z) := (fun x => (x, 1)) <$> xs.

(** Minimum with assignment; [None] is the identity update. *)
Definition assign_updVal (cur : Z) (v : option Z) : Z :=
  match v with Some x => x | None => cur end.
Definition assign_updLazy (cur v : option Z) : option Z :=
  match v with Some x => Some x | None => cur end.
Definition assign_eqb (a b : option Z) : bool := bool_decide (a = b).
(** The five-argument callback of the sparse tree doing both. *)
Definition assign_callback (lz : option Z) (val : Z) (v : option Z) (s e : Z)
    : option Z * Z :=
  (assign_updLazy lz v, assign_updVal val v).
(** The callback of the sparse tree's documented example: [curval += v],
    the aggregate is left as it is. *)
Definition readme_callback (lz : Z) (val : Z) (v : Z) (s e : Z) : Z * Z :=
  (lz + v, val).
(** [+infinity] for 64-bit aggregates. *)
Definition INF : Z := 2 ^ 63 - 1.
End Algebra.

(** Maximum under assignment over the naturals: the later assignment wins,
    so updates do not commute. *)
Module Assignment.
Definition set_to (cur : nat) (v : option nat) : nat :=
  match v with Some x => x | None => cur end.
Definition latest (cur v : option nat) : option nat :=
  match v with Some x => Some x | None => cur end.
Definition same (a b : option nat) : bool := bool_decide (a = b).
End Assignment.

(** * Theorems *)

(** ** Properties of the sparse tree *)

Module SparseFacts.
Import Sparse.

Section Generic.
Context {T U : Type}.
Variable op : T -> T -> T.
Variable updLazy : U -> T -> U -> Z -> Z -> U * T.
Variable U_eqb : U -> U -> bool.

Local Abbreviation tree := (DynamicSegmentTree (T:=T) (U:=U)).
Local Abbreviation Query := (Query op updLazy U_eqb).
Local Abbreviation Update := (Update op updLazy U_eqb).
Local Abbreviation Propagate := (Propagate updLazy U_eqb).

(** The two base cases of [Query] and [Update]: on a disjoint target
    range [Query] returns [identityOp_] and [Update] changes nothing; on a
    covering target range (of a node with [start_ <= end_]) [Query] returns
    [value_], and [Update] hands the pending tag and the stored aggregate
    to the one client callback [updLazy], together with the incoming update
    and the bounds of the node, keeps what the callback leaves in them, and
    returns without touching the children. *)
Lemma disjoint_and_covered :
  forall (fuel : nat) (s e m : Z) (io : T) (iu : U) (val : T) (lz : U)
         (l r : tree) (lo hi : Z) (u : U),
    s <= e ->
    (hi < s \/ e < lo ->
       Query (S fuel) (Node s e m io iu val lz l r) lo hi
         = Done (io, Node s e m io iu val lz l r) /\
       Update (S fuel) (Node s e m io iu val lz l r) lo hi u
         = Done (Node s e m io iu val lz l r)) /\
    (lo <= s /\ e <= hi ->
       Query (S fuel) (Node s e m io iu val lz l r) lo hi
         = Done (val, Node s e m io iu val lz l r) /\
       Update (S fuel) (Node s e m io iu val lz l r) lo hi u
         = Done (Node s e m io iu (updLazy lz val u s e).2
                      (updLazy lz val u s e).1 l r)).
Proof.
  intros fuel s e m io iu val lz l r lo hi u Hse. split.
  - intros Hdis. simpl. rewrite !decide_True by lia. done.
  - intros Hcov. simpl.
    rewrite !(decide_False (P := hi < s \/ e < lo)) by lia.
    rewrite !decide_True by lia.
    destruct (updLazy lz val u s e) as [lz' val']. done.
Qed.

(** C8: on the domain [-3, -2] the midpoint is [-2], the left child is
    [-3, -2] again, and [Update(-3, -3, u)] recurses without end: no
    amount of fuel lets it return. *)
Lemma Update_diverges_on_negative_domain :
  forall (fuel : nat) (io : T) (iu : U) (val : T) (lz : U) (u : U),
    Update fuel (Node (-3) (-2) (-2) io iu val lz nullptr nullptr) (-3) (-3) u
      = OutOfFuel.
Proof.
  induction fuel as [|fuel IH]; intros io iu val lz u; [done|].
  cbn [Sparse.Update].
  rewrite decide_False by lia. rewrite decide_False by lia.
  unfold Sparse.Propagate.
  replace (new_node (-3) (-2) io iu)
    with (Node (-3) (-2) (-2) io iu io iu nullptr nullptr) by reflexivity.
  destruct (U_eqb lz iu).
  - cbn [obind]. rewrite IH. done.
  - cbn [push_into]. destruct (updLazy iu io lz (-3) (-2)) as [lz' val'].
    cbn [obind]. unfold new_node. cbn [push_into].
    destruct (updLazy iu io lz _ (-2)) as [lz'' val''].
    cbn [obind]. rewrite IH. done.
Qed.

Theorem C8_update_never_returns :
  forall (fuel : nat) (io : T) (iu : U) (u : U),
    Update fuel (new_node (-3) (-2) io iu) (-3) (-3) u = OutOfFuel.
Proof. intros. apply Update_diverges_on_negative_domain. Qed.

End Generic.

Import Algebra.

(** C5: on a covering range [Update] is to apply [updVal] to the stored
    aggregate, and the documentation of the sparse tree says so too, but no
    member function calls [updVal]: [Update] calls [updLazy] alone.  With
    the client functions of the documented example ([op] and [updVal] are
    [+], [updLazy] is [curval += v]) on the tree over [0, 4],
    [Update(0, 4, 10)] leaves the stored aggregate of the root at 0 where
    [updVal] gives 10, [Query(0, 4)] returns 0 after it, and the calls of
    the example return 0, 0 and 0 where its comments say 9, 39 and 13. *)
Theorem C5_update_never_calls_updVal :
  Update Z.add readme_callback Z.eqb 1 (new_node 0 4 0 0) 0 4 10
  = Done (Node 0 4 2 0 0 0 10 nullptr nullptr) /\
  plain_updVal 0 10 = 10 /\
  (exists t,
     run Z.add readme_callback Z.eqb 1 [CallUpdate 0 4 10; CallQuery 0 4]
         (new_node 0 4 0 0) = Done ([0], t)) /\
  (exists t,
     run Z.add readme_callback Z.eqb 4
         [CallUpdate 0 0 1; CallUpdate 1 1 2; CallUpdate 2 2 3; CallUpdate 3 3 4;
          CallUpdate 4 4 5; CallQuery 1 3; CallUpdate 1 3 10; CallQuery 1 3;
          CallQuery 2 2]
         (new_node 0 4 0 0) = Done ([0; 0; 0], t)).
Proof.
  split; [vm_compute; reflexivity|].
  split; [reflexivity|].
  split; eexists; vm_compute; reflexivity.
Qed.

(** C9 as stated fails on a domain the claim allows: for [2^62, 2^63 - 1]
    the sum [start + end] wraps and the midpoint lies below [start]. *)
Lemma C9_counterexample :
  match new_node (T:=Z) (U:=Z) (2 ^ 62) (2 ^ 63 - 1) 0 0 with
  | Node s e m _ _ _ _ _ _ => ~ (s <= m < e)
  | nullptr => False
  end.
Proof. vm_compute. intros [H _]. apply H. reflexivity. Qed.

End SparseFacts.

(** ** Shape and termination of the sparse tree on domains within [0, 2^62) *)

Module SparseShape.
Import Sparse.

Lemma wrap64_small (z : Z) : - 2 ^ 63 <= z < 2 ^ 63 -> wrap64 z = z.
Proof.
  intros H. unfold wrap64. rewrite Z.mod_small; lia.
Qed.

Lemma middle_nonneg (s e : Z) :
  0 <= s -> s <= e -> e < 2 ^ 62 -> Z.quot (wrap64 (s + e)) 2 = Z.div (s + e) 2.
Proof.
  intros Hs Hse He. rewrite wrap64_small by lia.
  apply Z.quot_div_nonneg; lia.
Qed.

Lemma log2_up_half (n : Z) : 2 <= n -> Z.log2_up ((n + 1) / 2) < Z.log2_up n.
Proof.
  intros Hn.
  assert (Hk : 0 < Z.log2_up n) by (apply Z.log2_up_pos; lia).
  destruct (Z.log2_up_spec n ltac:(lia)) as [_ Hup].
  assert (Hpow : 2 ^ Z.log2_up n = 2 * 2 ^ (Z.log2_up n - 1)).
  { rewrite <- Z.pow_succ_r by lia. f_equal. lia. }
  assert (Hle : (n + 1) / 2 <= 2 ^ (Z.log2_up n - 1)).
  { enough ((n + 1) / 2 < 2 ^ (Z.log2_up n - 1) + 1) by lia.
    apply Z.div_lt_upper_bound; lia. }
  assert (0 < (n + 1) / 2) by (apply Z.div_str_pos; lia).
  apply Z.log2_up_le_pow2 in Hle; lia.
Qed.

Lemma depth_bound_left (s e : Z) :
  s < e -> (depth_bound s ((s + e) / 2) < depth_bound s e)%nat.
Proof.
  intros Hse. unfold depth_bound.
  assert (Hm : s <= (s + e) / 2 < e).
  { split; [apply Z.div_le_lower_bound | apply Z.div_lt_upper_bound]; lia. }
  pose proof (log2_up_half (e - s + 1) ltac:(lia)) as Hlt.
  assert (Hle : Z.log2_up ((s + e) / 2 - s + 1) <= Z.log2_up ((e - s + 1 + 1) / 2)).
  { apply Z.log2_up_le_mono.
    apply Z.div_le_lower_bound; [lia|].
    pose proof (Z.mul_div_le (s + e) 2 ltac:(lia)). lia. }
  pose proof (Z.log2_up_nonneg ((s + e) / 2 - s + 1)). lia.
Qed.

Lemma depth_bound_right (s e : Z) :
  s < e -> (depth_bound ((s + e) / 2 + 1) e < depth_bound s e)%nat.
Proof.
  intros Hse. unfold depth_bound.
  assert (Hm : s <= (s + e) / 2 < e).
  { split; [apply Z.div_le_lower_bound | apply Z.div_lt_upper_bound]; lia. }
  pose proof (log2_up_half (e - s + 1) ltac:(lia)) as Hlt.
  assert (Hle : Z.log2_up (e - ((s + e) / 2 + 1) + 1) <= Z.log2_up ((e - s + 1 + 1) / 2)).
  { apply Z.log2_up_le_mono.
    apply Z.div_le_lower_bound; [lia|].
    pose proof (Z.mod_pos_bound (s + e) 2 ltac:(lia)).
    pose proof (Z.div_mod (s + e) 2 ltac:(lia)). lia. }
  pose proof (Z.log2_up_nonneg (e - ((s + e) / 2 + 1) + 1)). lia.
Qed.

Section Shape.
Context {T U : Type}.
Variable op : T -> T -> T.
Variable updLazy : U -> T -> U -> Z -> Z -> U * T.
Variable U_eqb : U -> U -> bool.
Variable io : T.
Variable iu : U.

Local Abbreviation tree := (DynamicSegmentTree (T:=T) (U:=U)).
Local Abbreviation Query := (Query op updLazy U_eqb).
Local Abbreviation Update := (Update op updLazy U_eqb).
Local Abbreviation Propagate := (Propagate updLazy U_eqb).
Local Abbreviation shaped := (shaped io iu).

Lemma new_node_shaped (s e : Z) :
  0 <= s -> s <= e -> e < 2 ^ 62 -> shaped (new_node s e io iu).
Proof.
  intros. unfold new_node. cbn. rewrite middle_nonneg by lia. tauto.
Qed.

Lemma shaped_node_inv (t : tree) :
  shaped t ->
  exists s e val lz l r,
    t = Node s e ((s + e) / 2) io iu val lz l r /\ 0 <= s /\ s <= e /\ e < 2 ^ 62.
Proof.
  destruct t as [|s e m io' iu' val lz l r]; [done|].
  cbn. intros (-> & -> & ? & ? & ? & -> & _). eauto 12.
Qed.

Lemma shaped_irrelevant (s e m : Z) (io' : T) (iu' : U) (val val' : T) (lz lz' : U)
    (l r : tree) :
  shaped (Node s e m io' iu' val lz l r) -> shaped (Node s e m io' iu' val' lz' l r).
Proof. intros H. exact H. Qed.

Lemma shaped_children (s e m : Z) (io' : T) (iu' : U) (val : T) (lz : U) (l r : tree) :
  0 <= s -> s < e -> e < 2 ^ 62 -> m = (s + e) / 2 -> io' = io -> iu' = iu ->
  shaped l -> shaped r ->
  start_of l = s -> end_of l = m -> start_of r = m + 1 -> end_of r = e ->
  shaped (Node s e m io' iu' val lz l r).
Proof.
  intros Hs Hse He Hm -> -> Hl Hr H1 H2 H3 H4.
  destruct l as [|ls le lm lio liu lval llz ll lr]; [done|].
  destruct r as [|rs re rm rio riu rval rlz rl rr]; [done|].
  cbn in H1, H2, H3, H4. subst ls le rs re.
  cbn. cbn in Hl, Hr. repeat split; try tauto; lia.
Qed.

Lemma Propagate_shaped (s e m : Z) (io' : T) (iu' : U) (val : T) (lz : U) (l r : tree) :
  shaped (Node s e m io' iu' val lz l r) -> s < e ->
  exists lz' l' r',
    Propagate (Node s e m io' iu' val lz l r) = Done (Node s e m io' iu' val lz' l' r') /\
    shaped l' /\ shaped r' /\
    start_of l' = s /\ end_of l' = m /\ start_of r' = m + 1 /\ end_of r' = e.
Proof.
  intros H Hse.
  assert (Hm : s <= (s + e) / 2 < e).
  { split; [apply Z.div_le_lower_bound | apply Z.div_lt_upper_bound]; lia. }
  destruct l as [|ls le lm lio liu lval llz ll lr];
    destruct r as [|rs re rm rio riu rval rlz rl rr]; cbn in H;
    try (exfalso; tauto).
  - destruct H as (-> & -> & Hs & _ & He & -> & _).
    cbn [Sparse.Propagate].
    rewrite (wrap64_small ((s + e) / 2 + 1)) by lia.
    destruct (U_eqb lz iu).
    + do 3 eexists. split; [reflexivity|].
      split; [apply new_node_shaped; lia|].
      split; [apply new_node_shaped; lia|]. done.
    + unfold new_node. cbn [push_into].
      destruct (updLazy iu io lz s _) as [lz1 v1].
      destruct (updLazy iu io lz (_ + 1) e) as [lz2 v2].
      cbn [obind]. do 3 eexists. split; [reflexivity|].
      split; [apply (new_node_shaped s ((s + e) / 2)); lia|].
      split; [apply (new_node_shaped ((s + e) / 2 + 1) e); lia|]. done.
  - destruct H as (-> & -> & Hs & _ & He & -> & _ & -> & -> & -> & -> & Hl & Hr).
    cbn [Sparse.Propagate].
    destruct (U_eqb lz iu).
    + do 3 eexists. split; [reflexivity|]. done.
    + cbn [push_into].
      destruct (updLazy llz lval lz s _) as [lz1 v1].
      destruct (updLazy rlz rval lz (_ + 1) e) as [lz2 v2].
      cbn [obind]. do 3 eexists. split; [reflexivity|].
      split; [exact Hl|]. split; [exact Hr|]. done.
Qed.

(** [Query] returns on a shaped tree, given [depth_bound] levels of
    recursion, and leaves a shaped tree over the same range. *)
Lemma Query_shaped (fuel : nat) : forall (t : tree) (lo hi : Z),
  shaped t -> (depth_bound (start_of t) (end_of t) <= fuel)%nat ->
  exists x t', Query fuel t lo hi = Done (x, t') /\ shaped t' /\
               start_of t' = start_of t /\ end_of t' = end_of t.
Proof.
  induction fuel as [|fuel IH]; intros t lo hi Ht Hfuel.
  { unfold depth_bound in Hfuel. lia. }
  destruct (shaped_node_inv t Ht) as (s & e & val & lz & l & r & -> & Hs & Hse & He).
  cbn [start_of end_of] in Hfuel. cbn [Sparse.Query].
  destruct (decide (hi < s \/ e < lo)) as [Hdis|Hdis]; [eauto 10|].
  destruct (decide (lo <= s /\ e <= hi)) as [Hcov|Hcov]; [eauto 10|].
  assert (Hlt : s < e) by lia.
  destruct (Propagate_shaped _ _ _ _ _ _ _ _ _ Ht Hlt)
    as (lz' & l' & r' & -> & Hl & Hr & Hl1 & Hl2 & Hr1 & Hr2).
  cbn [obind].
  pose proof (depth_bound_left s e Hlt). pose proof (depth_bound_right s e Hlt).
  destruct (IH l' lo hi Hl) as (a & l'' & -> & Hl'' & Hl1'' & Hl2'').
  { rewrite Hl1, Hl2. lia. }
  destruct (IH r' lo hi Hr) as (b & r'' & -> & Hr'' & Hr1'' & Hr2'').
  { rewrite Hr1, Hr2. lia. }
  cbn [obind fst snd]. do 2 eexists. split; [reflexivity|].
  split; [|done].
  apply shaped_children; try done; congruence.
Qed.

Lemma Update_shaped (fuel : nat) : forall (t : tree) (lo hi : Z) (u : U),
  shaped t -> (depth_bound (start_of t) (end_of t) <= fuel)%nat ->
  exists t', Update fuel t lo hi u = Done t' /\ shaped t' /\
             start_of t' = start_of t /\ end_of t' = end_of t.
Proof.
  induction fuel as [|fuel IH]; intros t lo hi u Ht Hfuel.
  { unfold depth_bound in Hfuel. lia. }
  destruct (shaped_node_inv t Ht) as (s & e & val & lz & l & r & -> & Hs & Hse & He).
  cbn [start_of end_of] in Hfuel. cbn [Sparse.Update].
  destruct (decide (hi < s \/ e < lo)) as [Hdis|Hdis]; [eauto 10|].
  destruct (decide (lo <= s /\ e <= hi)) as [Hcov|Hcov].
  { destruct (updLazy lz val u s e) as [lz' val']. eexists. split; [reflexivity|].
    split; [exact Ht | done]. }
  assert (Hlt : s < e) by lia.
  destruct (Propagate_shaped _ _ _ _ _ _ _ _ _ Ht Hlt)
    as (lz' & l' & r' & -> & Hl & Hr & Hl1 & Hl2 & Hr1 & Hr2).
  cbn [obind].
  pose proof (depth_bound_left s e Hlt). pose proof (depth_bound_right s e Hlt).
  destruct (IH l' lo hi u Hl) as (l'' & -> & Hl'' & Hl1'' & Hl2'').
  { rewrite Hl1, Hl2. lia. }
  destruct (IH r' lo hi u Hr) as (r'' & -> & Hr'' & Hr1'' & Hr2'').
  { rewrite Hr1, Hr2. lia. }
  cbn [obind].
  destruct l'' as [|? ? ? ? ? lv ? ? ?]; [exfalso; exact Hl''|].
  destruct r'' as [|? ? ? ? ? rv ? ? ?]; [exfalso; exact Hr''|].
  cbn [value_of obind].
  eexists. split; [reflexivity|]. split; [|done].
  apply shaped_children; try done; congruence.
Qed.

Lemma run_shaped (fuel : nat) (cs : list call) : forall (t : tree),
  shaped t -> (depth_bound (start_of t) (end_of t) <= fuel)%nat ->
  exists xs t', run op updLazy U_eqb fuel cs t = Done (xs, t') /\ shaped t' /\
                start_of t' = start_of t /\ end_of t' = end_of t.
Proof.
  induction cs as [|[lo hi u|lo hi] cs IH]; intros t Ht Hfuel; cbn [run].
  - eauto 10.
  - destruct (Update_shaped fuel t lo hi u Ht Hfuel) as (t' & -> & Ht' & E1 & E2).
    cbn [obind]. destruct (IH t' Ht') as (xs & t'' & -> & ? & ? & ?).
    { rewrite E1, E2. done. }
    do 2 eexists. split; [reflexivity|]. split; [done|]. split; congruence.
  - destruct (Query_shaped fuel t lo hi Ht Hfuel) as (x & t' & -> & Ht' & E1 & E2).
    cbn [obind snd fst]. destruct (IH t' Ht') as (xs & t'' & -> & ? & ? & ?).
    { rewrite E1, E2. done. }
    cbn [obind fst snd]. do 2 eexists. split; [reflexivity|].
    split; [done|]. split; congruence.
Qed.

Lemma shaped_partitioned (t : tree) : shaped t -> partitioned t.
Proof.
  induction t as [|s e m io' iu' val lz l IHl r IHr]; [done|].
  intros H.
  assert (H0 : 0 <= s /\ s <= e /\ e < 2 ^ 62 /\ m = (s + e) / 2).
  { cbn in H. tauto. }
  destruct H0 as (Hs & Hse & He & ->).
  assert (Hm : s < e -> s <= (s + e) / 2 < e).
  { intros. split; [apply Z.div_le_lower_bound | apply Z.div_lt_upper_bound]; lia. }
  destruct l as [|ls le lm lio liu lval llz ll lr];
    destruct r as [|rs re rm rio riu rval rlz rl rr]; cbn in H;
    try (exfalso; tauto).
  - cbn. rewrite middle_nonneg by lia. done.
  - destruct H as (_ & _ & _ & _ & _ & _ & _ & -> & -> & -> & -> & Hl & Hr).
    cbn [partitioned]. rewrite middle_nonneg by lia.
    split; [done|]. split; [done|].
    split; [done|]. split; [done|]. split; [done|]. split; [done|].
    split; [apply IHl; exact Hl | apply IHr; exact Hr].
Qed.

End Shape.
End SparseShape.

(** ** Untouched ranges of the sparse tree keep the identity aggregate *)

Module SparseFresh.
Import Sparse SparseShape.

Section Fresh.
Context {T U : Type}.
Variable op : T -> T -> T.
Variable updLazy : U -> T -> U -> Z -> Z -> U * T.
Variable U_eqb : U -> U -> bool.
Variable io : T.
Variable iu : U.
Hypothesis op_identity : op io io = io.
Hypothesis U_eqb_refl : U_eqb iu iu = true.

Local Abbreviation tree := (DynamicSegmentTree (T:=T) (U:=U)).
Local Abbreviation Query := (Query op updLazy U_eqb).
Local Abbreviation Update := (Update op updLazy U_eqb).
Local Abbreviation Propagate := (Propagate updLazy U_eqb).
Local Abbreviation shaped := (shaped io iu).

Lemma fresh_mono (S S' : Z -> Prop) (t : tree) :
  (forall i, S i -> S' i) -> fresh_outside S t -> fresh_outside S' t.
Proof.
  intros HS. induction t as [|s e m io' iu' val lz l IHl r IHr]; [done|].
  cbn. intros (Htag & Hval & Hl & Hr).
  split; [destruct Htag; [by left | right; auto]|].
  split; [intros Hun; apply Hval; intros i Hi HSi; exact (Hun i Hi (HS i HSi))|].
  split; auto.
Qed.

Lemma fresh_new_node (S : Z -> Prop) (s e : Z) :
  fresh_outside S (new_node s e io iu).
Proof. cbn. tauto. Qed.

(** A node all of whose indices are touched is fresh whatever it holds. *)
Lemma fresh_inside (S : Z -> Prop) (s e m : Z) (io' : T) (iu' : U) (val : T) (lz : U)
    (l r : tree) :
  s <= e -> (forall i, s <= i <= e -> S i) ->
  fresh_outside S l -> fresh_outside S r ->
  fresh_outside S (Node s e m io' iu' val lz l r).
Proof.
  intros Hse Hin Hl Hr. cbn. split; [by right|].
  split; [|done]. intros Hun. exfalso. apply (Hun s); [lia|]. apply Hin. lia.
Qed.

Lemma fresh_node (S : Z -> Prop) (s e m : Z) (io' : T) (iu' : U) (val : T) (lz : U)
    (l r : tree) :
  (lz = iu' \/ forall i, s <= i <= e -> S i) ->
  ((forall i, s <= i <= e -> ~ S i) -> val = io') ->
  fresh_outside S l -> fresh_outside S r ->
  fresh_outside S (Node s e m io' iu' val lz l r).
Proof. cbn. tauto. Qed.

Lemma fresh_children (S : Z -> Prop) (s e m : Z) (io' : T) (iu' : U) (val : T) (lz : U)
    (l r : tree) :
  fresh_outside S (Node s e m io' iu' val lz l r) ->
  fresh_outside S l /\ fresh_outside S r.
Proof. cbn. tauto. Qed.

Lemma Propagate_fresh (S : Z -> Prop) (s e m : Z) (io' : T) (iu' : U) (val : T) (lz : U)
    (l r : tree) (t' : tree) :
  shaped (Node s e m io' iu' val lz l r) -> s < e ->
  fresh_outside S (Node s e m io' iu' val lz l r) ->
  Propagate (Node s e m io' iu' val lz l r) = Done t' ->
  fresh_outside S t'.
Proof.
  intros H Hse HF.
  assert (Hm : s <= (s + e) / 2 < e).
  { split; [apply Z.div_le_lower_bound | apply Z.div_lt_upper_bound]; lia. }
  destruct HF as (Htag & Hval & Hl & Hr).
  destruct l as [|ls le lm lio liu lval llz ll lr];
    destruct r as [|rs re rm rio riu rval rlz rl rr]; cbn in H;
    try (exfalso; tauto).
  - destruct H as (-> & -> & Hs & _ & He & -> & _).
    cbn [Sparse.Propagate].
    destruct (U_eqb lz iu) eqn:Heq.
    + intros [= <-]. cbn. tauto.
    + assert (Hin : forall i, s <= i <= e -> S i).
      { destruct Htag as [->|Hin]; [congruence | exact Hin]. }
      unfold new_node. cbn [push_into].
      destruct (updLazy iu io lz s _) as [lz1 v1].
      destruct (updLazy iu io lz _ e) as [lz2 v2].
      cbn [obind]. intros [= <-].
      rewrite (wrap64_small ((s + e) / 2 + 1)) by lia.
      apply fresh_node; [by left | done | |];
        (apply fresh_inside; [lia | intros i Hi; apply Hin; lia | done | done]).
  - destruct H as (-> & -> & Hs & _ & He & -> & _ & -> & -> & -> & -> & Hl' & Hr').
    cbn [Sparse.Propagate].
    destruct (U_eqb lz iu) eqn:Heq.
    + intros [= <-]. cbn [fresh_outside]. done.
    + assert (Hin : forall i, s <= i <= e -> S i).
      { destruct Htag as [->|Hin]; [congruence | exact Hin]. }
      cbn [push_into].
      destruct (updLazy llz lval lz s _) as [lz1 v1].
      destruct (updLazy rlz rval lz _ e) as [lz2 v2].
      cbn [obind]. intros [= <-].
      apply fresh_children in Hl. apply fresh_children in Hr.
      apply fresh_node; [by left | done | |];
        (apply fresh_inside; [lia | intros i Hi; apply Hin; lia | tauto | tauto]).
Qed.

Lemma fresh_value (S : Z -> Prop) (t : tree) (v : T) :
  shaped t -> fresh_outside S t -> value_of t = Done v ->
  (forall i, start_of t <= i <= end_of t -> ~ S i) -> v = io.
Proof.
  destruct t as [|s e m io' iu' val lz l r]; [done|].
  cbn. intros (-> & _) (_ & Hval & _) [= <-] Hun. auto.
Qed.

Lemma Query_fresh (S : Z -> Prop) (fuel : nat) :
  forall (t : tree) (lo hi : Z) (x : T) (t' : tree),
    shaped t -> (depth_bound (start_of t) (end_of t) <= fuel)%nat ->
    fresh_outside S t ->
    Query fuel t lo hi = Done (x, t') ->
    fresh_outside S t' /\ ((forall i, lo <= i <= hi -> ~ S i) -> x = io).
Proof.
  induction fuel as [|fuel IH]; intros t lo hi x t' Ht Hfuel HF; [done|].
  destruct (shaped_node_inv op updLazy U_eqb io iu t Ht) as (s & e & val & lz & l & r & -> & Hs & Hse & He).
  cbn [start_of end_of] in Hfuel. cbn [Sparse.Query].
  destruct (decide (hi < s \/ e < lo)) as [Hdis|Hdis]; [intros [= <- <-]; done|].
  destruct (decide (lo <= s /\ e <= hi)) as [Hcov|Hcov].
  { intros [= <- <-]. split; [done|]. intros Hun.
    destruct HF as (_ & Hval & _). apply Hval. intros i Hi. apply Hun. lia. }
  assert (Hlt : s < e) by lia.
  destruct (Propagate_shaped op updLazy U_eqb io iu _ _ _ _ _ _ _ _ _ Ht Hlt)
    as (lz' & l' & r' & Hprop & Hl & Hr & Hl1 & Hl2 & Hr1 & Hr2).
  pose proof (Propagate_fresh S _ _ _ _ _ _ _ _ _ _ Ht Hlt HF Hprop) as HF'.
  rewrite Hprop. cbn [obind].
  pose proof (depth_bound_left s e Hlt). pose proof (depth_bound_right s e Hlt).
  destruct (Query_shaped op updLazy U_eqb io iu fuel l' lo hi Hl)
    as (a & l'' & El & _); [rewrite Hl1, Hl2; lia|].
  destruct (Query_shaped op updLazy U_eqb io iu fuel r' lo hi Hr)
    as (b & r'' & Er & _); [rewrite Hr1, Hr2; lia|].
  rewrite El, Er. cbn [obind fst snd]. intros [= <- <-].
  destruct HF' as (Htag & Hval & HFl & HFr).
  destruct (IH l' lo hi a l'' Hl ltac:(rewrite Hl1, Hl2; lia) HFl El) as [HFl'' Ha].
  destruct (IH r' lo hi b r'' Hr ltac:(rewrite Hr1, Hr2; lia) HFr Er) as [HFr'' Hb].
  split; [apply fresh_node; done|].
  intros Hun. rewrite Ha, Hb by done. exact op_identity.
Qed.

Lemma Update_fresh (S : Z -> Prop) (fuel : nat) :
  forall (t : tree) (lo hi : Z) (u : U) (t' : tree),
    shaped t -> (depth_bound (start_of t) (end_of t) <= fuel)%nat ->
    fresh_outside S t ->
    Update fuel t lo hi u = Done t' ->
    fresh_outside (fun i => S i \/ lo <= i <= hi) t'.
Proof.
  induction fuel as [|fuel IH]; intros t lo hi u t' Ht Hfuel HF; [done|].
  destruct (shaped_node_inv op updLazy U_eqb io iu t Ht) as (s & e & val & lz & l & r & -> & Hs & Hse & He).
  cbn [start_of end_of] in Hfuel. cbn [Sparse.Update].
  destruct (decide (hi < s \/ e < lo)) as [Hdis|Hdis].
  { intros [= <-]. eapply fresh_mono; [|exact HF]. tauto. }
  destruct (decide (lo <= s /\ e <= hi)) as [Hcov|Hcov].
  { destruct (updLazy lz val u s e) as [lz' val']. intros [= <-].
    apply fresh_children in HF.
    apply fresh_inside; [lia| |eapply fresh_mono; [|apply HF]; tauto
                                |eapply fresh_mono; [|apply HF]; tauto].
    intros i Hi. right. lia. }
  assert (Hlt : s < e) by lia.
  destruct (Propagate_shaped op updLazy U_eqb io iu _ _ _ _ _ _ _ _ _ Ht Hlt)
    as (lz' & l' & r' & Hprop & Hl & Hr & Hl1 & Hl2 & Hr1 & Hr2).
  pose proof (Propagate_fresh S _ _ _ _ _ _ _ _ _ _ Ht Hlt HF Hprop) as HF'.
  rewrite Hprop. cbn [obind].
  pose proof (depth_bound_left s e Hlt). pose proof (depth_bound_right s e Hlt).
  destruct (Update_shaped op updLazy U_eqb io iu fuel l' lo hi u Hl)
    as (l'' & El & Hl'' & Hl1'' & Hl2''); [rewrite Hl1, Hl2; lia|].
  destruct (Update_shaped op updLazy U_eqb io iu fuel r' lo hi u Hr)
    as (r'' & Er & Hr'' & Hr1'' & Hr2''); [rewrite Hr1, Hr2; lia|].
  rewrite El, Er. cbn [obind].
  destruct HF' as (Htag & Hval & HFl & HFr).
  pose proof (IH l' lo hi u l'' Hl ltac:(rewrite Hl1, Hl2; lia) HFl El) as HFl''.
  pose proof (IH r' lo hi u r'' Hr ltac:(rewrite Hr1, Hr2; lia) HFr Er) as HFr''.
  destruct (value_of l'') as [a| |] eqn:Ea; cbn [obind]; try done.
  destruct (value_of r'') as [b| |] eqn:Eb; cbn [obind]; try done.
  intros [= <-]. apply fresh_node; [| |done|done].
  { destruct Htag as [->|Hin]; [by left | right; intros i Hi; left; auto]. }
  intros Hun.
  assert (Hm : s <= (s + e) / 2 < e).
  { split; [apply Z.div_le_lower_bound | apply Z.div_lt_upper_bound]; lia. }
  rewrite (fresh_value _ l'' a Hl'' HFl'' Ea), (fresh_value _ r'' b Hr'' HFr'' Eb).
  - exact op_identity.
  - intros i Hi. apply Hun. lia.
  - intros i Hi. apply Hun. lia.
Qed.

Lemma run_fresh (fuel : nat) (cs : list call) :
  forall (S : Z -> Prop) (t : tree) (xs : list T) (t' : tree),
    shaped t -> (depth_bound (start_of t) (end_of t) <= fuel)%nat ->
    fresh_outside S t ->
    run op updLazy U_eqb fuel cs t = Done (xs, t') ->
    fresh_outside (fun i => S i \/ touched_by cs i) t'.
Proof.
  induction cs as [|[lo hi u|lo hi] cs IH]; intros S t xs t' Ht Hfuel HF; cbn [run].
  - intros [= <- <-]. eapply fresh_mono; [|exact HF]. tauto.
  - destruct (Update_shaped op updLazy U_eqb io iu fuel t lo hi u Ht Hfuel)
      as (t1 & E & Ht1 & E1 & E2).
    rewrite E. cbn [obind]. intros Hrun.
    pose proof (Update_fresh S fuel t lo hi u t1 Ht Hfuel HF E) as HF1.
    eapply fresh_mono; [|eapply (IH _ t1); [exact Ht1 | rewrite E1, E2; exact Hfuel
                                           | exact HF1 | exact Hrun]].
    intros i [[Hi|Hi]|(l & r & v & Hin & Hi)].
    + by left.
    + right. exists lo, hi, u. split; [by left | done].
    + right. exists l, r, v. split; [by right | done].
  - destruct (Query_shaped op updLazy U_eqb io iu fuel t lo hi Ht Hfuel)
      as (x & t1 & E & Ht1 & E1 & E2).
    rewrite E. cbn [obind fst snd].
    destruct (run op updLazy U_eqb fuel cs t1) as [[ys t2]| |] eqn:Erun; cbn [obind]; try done.
    intros [= <- <-].
    destruct (Query_fresh S fuel t lo hi x t1 Ht Hfuel HF E) as [HF1 _].
    eapply fresh_mono; [|eapply (IH _ t1); [exact Ht1 | rewrite E1, E2; exact Hfuel
                                           | exact HF1 | exact Erun]].
    intros i [Hi|(l & r & v & Hin & Hi)].
    + by left.
    + right. exists l, r, v. split; [by right | done].
Qed.

End Fresh.
End SparseFresh.

(** ** Claims about the sparse tree *)

Module SparseClaims.
Import Sparse SparseShape SparseFresh Algebra.

(** C9, amended: on a domain [start, end] with [0 <= start <= end < 2^62]
    (no sum of two bounds overflows), after any sequence of calls every node
    has [middle_ = (start_ + end_) / 2], every node with [start_ < end_] has
    [start_ <= middle_ < end_], and the children that [Propagate] allocated
    are [start_, middle_] and [middle_ + 1, end_]; each call returns within
    [depth_bound start end] levels of recursion. *)
Theorem C9_children_partition_the_range :
  forall (T U : Type) (op : T -> T -> T) (updLazy : U -> T -> U -> Z -> Z -> U * T)
         (U_eqb : U -> U -> bool) (io : T) (iu : U) (s e : Z)
         (cs : list call) (fuel : nat),
    0 <= s -> s <= e -> e < 2 ^ 62 -> (depth_bound s e <= fuel)%nat ->
    exists xs t,
      run op updLazy U_eqb fuel cs (new_node s e io iu) = Done (xs, t) /\
      partitioned t.
Proof.
  intros T U op updLazy U_eqb io iu s e cs fuel Hs Hse He Hfuel.
  destruct (run_shaped op updLazy U_eqb io iu fuel cs (new_node s e io iu))
    as (xs & t & Hrun & Ht & _).
  - apply new_node_shaped; done.
  - exact Hfuel.
  - exists xs, t. split; [exact Hrun|].
    eapply shaped_partitioned; eauto.
Qed.

Lemma C9_children_partition_the_range_witness :
  exists xs t,
    run Z.add readme_callback Z.eqb 4 [CallUpdate 2 5 1; CallQuery 3 3]
        (new_node 0 7 0 0) = Done (xs, t) /\
    partitioned t.
Proof.
  apply (C9_children_partition_the_range Z Z Z.add readme_callback Z.eqb 0 0 0 7
           [CallUpdate 2 5 1; CallQuery 3 3] 4).
  - lia.
  - lia.
  - reflexivity.
  - vm_compute. lia.
Defined.

(** The scenario of the design document: minimum with assignment over
    [0, 10^9], [Update(100, 200, 5)], then [Query(0, 50)]. *)
Lemma sparse_scenario :
  exists t t',
    Update Z.min assign_callback assign_eqb 31 (new_node 0 (10 ^ 9) INF None)
           100 200 (Some 5) = Done t /\
    Query Z.min assign_callback assign_eqb 31 t 0 50 = Done (INF, t') /\
    nodes t = 71%nat /\ nodes t' = 81%nat /\
    nodes_below 2 t = 68%nat /\ nodes_below 2 t' = 78%nat.
Proof.
  eexists _, _.
  split; [vm_compute; reflexivity|].
  split; [vm_compute; reflexivity|].
  vm_compute. done.
Qed.

(** C7, amended: a query over a range that no earlier update touched
    returns [identityOp_] (on a domain within [0, 2^62), when
    [op(identityOp_, identityOp_)] is [identityOp_] and [operator==] holds of
    the identity update and itself); it does allocate nodes, though:
    [Propagate] gives children to every node the range overlaps in part.
    In the scenario over [0, 10^9] with minimum and assignment,
    [Update(100, 200, 5)] leaves 71 nodes and [Query(0, 50)] returns
    [+infinity] and leaves 81, the ten new ones all below the children of
    the root. *)
Theorem C7_untouched_query_returns_identity :
  (forall (T U : Type) (op : T -> T -> T) (updLazy : U -> T -> U -> Z -> Z -> U * T)
          (U_eqb : U -> U -> bool) (io : T) (iu : U) (s e : Z)
          (cs : list call) (lo hi : Z) (fuel : nat),
      op io io = io -> U_eqb iu iu = true ->
      0 <= s -> s <= e -> e < 2 ^ 62 -> (depth_bound s e <= fuel)%nat ->
      (forall i, lo <= i <= hi -> ~ touched_by cs i) ->
      exists xs t t',
        run op updLazy U_eqb fuel cs (new_node s e io iu) = Done (xs, t) /\
        Query op updLazy U_eqb fuel t lo hi = Done (io, t')) /\
  (exists t t',
      Update Z.min assign_callback assign_eqb 31 (new_node 0 (10 ^ 9) INF None)
             100 200 (Some 5) = Done t /\
      Query Z.min assign_callback assign_eqb 31 t 0 50 = Done (INF, t') /\
      nodes t = 71%nat /\ nodes t' = 81%nat /\
      nodes_below 2 t = 68%nat /\ nodes_below 2 t' = 78%nat).
Proof.
  split.
  - intros T U op updLazy U_eqb io iu s e cs lo hi fuel Hop Heq Hs Hse He Hfuel Hun.
    destruct (run_shaped op updLazy U_eqb io iu fuel cs (new_node s e io iu))
      as (xs & t & Hrun & Ht & E1 & E2).
    { apply new_node_shaped; done. }
    { exact Hfuel. }
    pose proof (run_fresh op updLazy U_eqb io iu Hop Heq fuel cs (fun _ => False)
                  (new_node s e io iu) xs t
                  (new_node_shaped op updLazy U_eqb io iu s e Hs Hse He) Hfuel
                  (fresh_new_node op updLazy U_eqb io iu Hop Heq _ s e) Hrun) as HF.
    destruct (Query_shaped op updLazy U_eqb io iu fuel t lo hi Ht)
      as (x & t' & Hq & _).
    { rewrite E1, E2. exact Hfuel. }
    destruct (Query_fresh op updLazy U_eqb io iu Hop Heq _ fuel t lo hi x t' Ht
                ltac:(rewrite E1, E2; exact Hfuel) HF Hq) as [_ Hx].
    exists xs, t, t'. split; [exact Hrun|].
    rewrite Hq, Hx; [reflexivity|].
    intros i Hi [[]|Ht']. exact (Hun i Hi Ht').
  - exact sparse_scenario.
Qed.

Lemma C7_untouched_query_returns_identity_witness :
  exists xs t t',
    run Z.min assign_callback assign_eqb 31 [CallUpdate 100 200 (Some 5)]
        (new_node 0 (10 ^ 9) INF None) = Done (xs, t) /\
    Query Z.min assign_callback assign_eqb 31 t 0 50 = Done (INF, t').
Proof.
  apply (proj1 C7_untouched_query_returns_identity).
  - reflexivity.
  - reflexivity.
  - lia.
  - lia.
  - reflexivity.
  - vm_compute. lia.
  - intros i Hi (l & r & u & [Hin|[]] & Hlr).
    inversion Hin; subst. lia.
Defined.

(** C7 as stated fails: in its own scenario [Query(0, 50)] allocates nodes,
    and allocates them below the children of the root. *)
Lemma C7_counterexample :
  ~ (forall t t' x,
       Update Z.min assign_callback assign_eqb 31 (new_node 0 (10 ^ 9) INF None)
              100 200 (Some 5) = Done t ->
       Query Z.min assign_callback assign_eqb 31 t 0 50 = Done (x, t') ->
       nodes_below 2 t' = nodes_below 2 t).
Proof.
  intros H.
  destruct sparse_scenario as (t & t' & Hu & Hq & _ & _ & Hb & Hb').
  specialize (H t t' INF Hu Hq). rewrite Hb, Hb' in H. clear Hu Hq. lia.
Qed.

End SparseClaims.

(** ** Scenarios on the dense tree *)

Module DenseScenarios.
Import Dense Algebra.

(** C2 as stated, read with a bare integer sum ([op] and [updVal] both [+],
    the functions the documentation suggests), fails: [updVal] adds the 10
    once to the aggregate of the two-element node, and [Query(1, 4)] after
    the update is 29. *)
Lemma C2_counterexample :
  results plain_op plain_updVal plain_updLazy Z.eqb
    [CallQuery 1 4; CallUpdate 1 4 10; CallQuery 1 4; CallQuery 2 3]
    (from_range plain_op 0 [1; 2; 3; 4; 5] 0 0)
  <> Some [9; 39; 13].
Proof. vm_compute. discriminate. Qed.

(** C2, amended: when the aggregate carries the number of elements next to
    their sum, so that [updVal] adds the update once per element, the tree
    built from [1, 2, 3, 4, 5] answers 9, then after [Update(1, 4, 10)] 39
    and 13; with a bare integer sum it answers 9, 29 and 13. *)
Theorem C2_sum_scenario :
  results sized_op sized_updVal plain_updLazy Z.eqb
    [CallQuery 1 4; CallUpdate 1 4 10; CallQuery 1 4; CallQuery 2 3]
    (from_range sized_op (0, 0) (unit_elems [1; 2; 3; 4; 5]) (0, 0) 0)
  = Some [(9, 3); (39, 3); (13, 1)] /\
  results plain_op plain_updVal plain_updLazy Z.eqb
    [CallQuery 1 4; CallUpdate 1 4 10; CallQuery 1 4; CallQuery 2 3]
    (from_range plain_op 0 [1; 2; 3; 4; 5] 0 0)
  = Some [9; 29; 13].
Proof. split; vm_compute; reflexivity. Qed.

(** C3: [Update] does not call [Propagate].  With minimum and assignment on
    a tree of size 2, [Update(0, 2, 5)] leaves the tag [5] on the root;
    [Update(0, 1, 7)] then writes leaf 0 under that tag and leaves the tag
    where it was; the next [Query(0, 1)] pushes the older tag over the newer
    value and returns 5. *)
Theorem C3_update_skips_propagation :
  exists s1 s2,
    Update Z.min assign_updVal assign_updLazy 0 2 (Some 5) (from_size 2 INF None)
      = Some (tt, s1) /\
    lazy_ s1 = [None; Some 5] /\
    Update Z.min assign_updVal assign_updLazy 0 1 (Some 7) s1 = Some (tt, s2) /\
    lazy_ s2 = [None; Some 5] /\
    tree_ s2 !! 2%nat = Some 7 /\
    fst <$> Query Z.min assign_updVal assign_updLazy assign_eqb 0 1 s2 = Some 5.
Proof.
  eexists _, _.
  split; [vm_compute; reflexivity|].
  split; [reflexivity|].
  split; [vm_compute; reflexivity|].
  split; [reflexivity|].
  split; [reflexivity|].
  vm_compute. reflexivity.
Qed.

(** C6: an empty range is not a no-op.  On the tree built from
    [1, 2, 3, 4], [Update(1, 1, 10)] adds 10 to the leaves 0 and 1, and
    [Query(0, 2)] moves from 3 to 23; [Query(4, 4)] and [Update(4, 4, 1)]
    index [lazy_] and [tree_] past their ends; on a tree of size 8,
    [Query(0, 0)] drops the tag that [Update(4, 8, 10)] left on node 3, and
    [Query(4, 5)] answers 5 after it instead of 15. *)
Theorem C6_empty_range_is_not_a_noop :
  results sized_op sized_updVal plain_updLazy Z.eqb
    [CallQuery 0 2; CallUpdate 1 1 10; CallQuery 0 2]
    (from_range sized_op (0, 0) (unit_elems [1; 2; 3; 4]) (0, 0) 0)
  = Some [(3, 2); (23, 2)] /\
  results sized_op sized_updVal plain_updLazy Z.eqb [CallQuery 4 4]
    (from_range sized_op (0, 0) (unit_elems [1; 2; 3; 4]) (0, 0) 0) = None /\
  results sized_op sized_updVal plain_updLazy Z.eqb [CallUpdate 4 4 1]
    (from_range sized_op (0, 0) (unit_elems [1; 2; 3; 4]) (0, 0) 0) = None /\
  results sized_op sized_updVal plain_updLazy Z.eqb
    [CallUpdate 4 8 10; CallQuery 4 5]
    (from_range sized_op (0, 0) (unit_elems [1; 2; 3; 4; 5; 6; 7; 8]) (0, 0) 0)
  = Some [(15, 1)] /\
  results sized_op sized_updVal plain_updLazy Z.eqb
    [CallUpdate 4 8 10; CallQuery 0 0; CallQuery 4 5]
    (from_range sized_op (0, 0) (unit_elems [1; 2; 3; 4; 5; 6; 7; 8]) (0, 0) 0)
  = Some [(0, 0); (5, 1)].
Proof. repeat split; vm_compute; reflexivity. Qed.

End DenseScenarios.

(** ** Combinations of runs of values *)

Module CombineFacts.
Section CombineFacts.
Context {T : Type}.
Variable op : T -> T -> T.
Variable io : T.
Hypothesis op_assoc : forall x y z, op (op x y) z = op x (op y z).
Hypothesis op_identity_l : forall x, op io x = x.
Hypothesis op_identity_r : forall x, op x io = x.

Local Abbreviation combine := (combine_from op io).

Lemma combine_from_ext (f g : Z -> T) (n : nat) : forall x,
  (forall i, x <= i < x + Z.of_nat n -> f i = g i) ->
  combine f x n = combine g x n.
Proof.
  induction n as [|n IH]; intros x Hfg; [done|].
  cbn [combine_from]. rewrite Hfg by lia. f_equal. apply IH.
  intros i Hi. apply Hfg. lia.
Qed.

Lemma combine_from_app (f : Z -> T) (n m : nat) : forall x,
  combine f x (n + m)
  = op (combine f x n) (combine f (x + Z.of_nat n) m).
Proof.
  induction n as [|n IH]; intros x.
  - cbn. rewrite op_identity_l. f_equal. lia.
  - cbn [Nat.add combine_from]. rewrite IH, op_assoc.
    do 3 f_equal. lia.
Qed.

Lemma combine_from_snoc (f : Z -> T) (n : nat) (x : Z) :
  combine f x (S n) = op (combine f x n) (f (x + Z.of_nat n)).
Proof.
  replace (S n) with (n + 1)%nat by lia. rewrite combine_from_app.
  cbn. by rewrite op_identity_r.
Qed.

(** A run of pairs combines to the run of the combined pairs. *)
Lemma combine_from_double (f g : Z -> T) (n : nat) : forall x,
  (forall p, x <= p < x + Z.of_nat n -> g p = op (f (2 * p)) (f (2 * p + 1))) ->
  combine f (2 * x) (2 * n) = combine g x n.
Proof.
  induction n as [|n IH]; intros x Hg; [done|].
  replace (2 * S n)%nat with (S (S (2 * n))) by lia.
  cbn [combine_from]. rewrite Hg by lia. rewrite op_assoc.
  do 2 f_equal. rewrite <- IH by (intros p Hp; apply Hg; lia).
  f_equal. lia.
Qed.

Lemma combine_from_const (c : T) (n : nat) : forall x,
  op c c = c -> (1 <= n)%nat -> combine (fun _ => c) x n = c.
Proof.
  induction n as [|n IH]; intros x Hc Hn; [lia|].
  cbn [combine_from]. destruct n as [|n].
  - cbn. apply op_identity_r.
  - rewrite IH by (done || lia). done.
Qed.

(** A map that distributes over [op] distributes over a run that is not
    empty. *)
Lemma combine_from_map (h : T -> T) (f : Z -> T) (n : nat) : forall x,
  (forall a b, h (op a b) = op (h a) (h b)) -> (1 <= n)%nat ->
  h (combine f x n) = combine (fun i => h (f i)) x n.
Proof.
  induction n as [|n IH]; intros x Hh Hn; [lia|].
  cbn [combine_from]. destruct n as [|n].
  - cbn. by rewrite !op_identity_r.
  - rewrite Hh, IH by (done || lia). done.
Qed.

Lemma combine_from_shift (f : Z -> T) (d : Z) (n : nat) : forall x,
  combine (fun i => f (d + i)) x n = combine f (d + x) n.
Proof.
  induction n as [|n IH]; intros x; [done|].
  cbn [combine_from]. rewrite IH. do 2 f_equal. lia.
Qed.

(** The reference query on a sequence whose elements are the values. *)
Lemma combine_from_lookup (a : list T) (f : Z -> T) (n : nat) : forall x,
  0 <= x ->
  (forall i, x <= i < x + Z.of_nat n -> a !! Z.to_nat i = Some (f i)) ->
  foldr op io (take n (drop (Z.to_nat x) a)) = combine f x n.
Proof.
  induction n as [|n IH]; intros x Hx Ha; [done|].
  rewrite (drop_S _ (f x)) by (apply Ha; lia).
  cbn [take foldr combine_from]. f_equal.
  rewrite <- IH by (try lia; intros i Hi; apply Ha; lia).
  do 3 f_equal. lia.
Qed.

End CombineFacts.
End CombineFacts.

(** ** Chains of ancestors and the nodes [Update] visits *)

Module DenseArith.
Import Dense.

Lemma chain_fuel_enough (f1 : nat) : forall (f2 : nat) (q : Z),
  (Z.to_nat q <= f1)%nat -> (Z.to_nat q <= f2)%nat ->
  chain_fuel f1 q = chain_fuel f2 q.
Proof.
  induction f1 as [|f1 IH]; intros f2 q H1 H2.
  - destruct f2; cbn; [done|]. rewrite decide_False by lia. done.
  - destruct f2; cbn.
    + rewrite decide_False by lia. done.
    + case_decide; [|done]. f_equal. apply IH; lia.
Qed.

Lemma chain_unfold (q : Z) : 1 <= q -> chain q = q :: chain (q / 2).
Proof.
  intros Hq. unfold chain.
  destruct (Z.to_nat q) as [|f] eqn:E; [lia|].
  cbn. rewrite decide_True by done. f_equal.
  apply chain_fuel_enough; lia.
Qed.

Lemma chain_nil (q : Z) : q < 1 -> chain q = [].
Proof.
  intros Hq. unfold chain. destruct (Z.to_nat q) eqn:E; [done|lia].
Qed.

(** Induction along the chain of ancestors. *)
Lemma chain_ind (P : Z -> Prop) :
  (forall q, q < 1 -> P q) ->
  (forall q, 1 <= q -> P (q / 2) -> P q) ->
  forall q, P q.
Proof.
  intros H0 Hstep q.
  destruct (decide (0 <= q)) as [Hnn|]; [|apply H0; lia].
  revert q Hnn. apply (Z_lt_induction P).
  intros x IH. destruct (decide (x < 1)); [by apply H0|].
  apply Hstep; [lia|]. apply IH. lia.
Qed.

Lemma chain_bound (q p : Z) : p ∈ chain q -> 1 <= p <= q.
Proof.
  revert p. induction q as [q Hq|q Hq IH] using chain_ind; intros p Hin.
  - rewrite chain_nil in Hin by done. by apply elem_of_nil in Hin.
  - rewrite chain_unfold in Hin by done.
    apply elem_of_cons in Hin as [->|Hin]; [lia|].
    apply IH in Hin. lia.
Qed.

Lemma chain_self (q : Z) : 1 <= q -> q ∈ chain q.
Proof. intros. rewrite chain_unfold by done. by left. Qed.

Lemma chain_up (q p : Z) : 1 <= q -> p ∈ chain (q / 2) -> p ∈ chain q.
Proof. intros. rewrite chain_unfold by done. by right. Qed.

(** The chain of a node on the chain of [q] is the rest of the chain. *)
Lemma chain_trans (q p r : Z) : p ∈ chain q -> r ∈ chain p -> r ∈ chain q.
Proof.
  revert p r. induction q as [q Hq|q Hq IH] using chain_ind; intros p r Hp Hr.
  - rewrite chain_nil in Hp by done. by apply elem_of_nil in Hp.
  - rewrite chain_unfold in Hp by done.
    apply elem_of_cons in Hp as [->|Hp]; [done|].
    apply chain_up; [done|]. by eapply IH.
Qed.

Lemma chain_parent (q p : Z) : p ∈ chain q -> 2 <= p -> p / 2 ∈ chain q.
Proof.
  intros Hp H2. apply (chain_trans q p (p / 2) Hp).
  apply chain_up; [lia|]. apply chain_self. lia.
Qed.

(** Below [p] on its own chain there is only [p]. *)
Lemma chain_child (q p : Z) :
  1 <= p -> p ∈ chain q -> q = p \/ (2 <= q /\ p ∈ chain (q / 2)).
Proof.
  intros Hp Hin. pose proof (chain_bound q p Hin).
  rewrite chain_unfold in Hin by lia.
  apply elem_of_cons in Hin as [->|Hin]; [by left|].
  right. split; [|done]. apply chain_bound in Hin. lia.
Qed.


(** A node below [i] lies below one of the children of [i]. *)
Lemma chain_down (i : Z) : forall m,
  1 <= i -> i ∈ chain (m / 2) -> 2 * i ∈ chain m \/ 2 * i + 1 ∈ chain m.
Proof.
  intros m Hi. induction m as [m Hm|m Hm IH] using chain_ind; intros Hin.
  - rewrite chain_nil in Hin by lia. by apply elem_of_nil in Hin.
  - destruct (chain_child _ _ Hi Hin) as [E|[Hm2 Hin']].
    + assert (m = 2 * i \/ m = 2 * i + 1) as [->| ->] by lia;
        [left | right]; apply chain_self; lia.
    + destruct (IH Hin') as [H|H]; [left | right]; by apply chain_up.
Qed.

(** *** Counting *)

Lemma filter_length_or {A} (P Q R : A -> Prop)
    `{!forall x, Decision (P x)} `{!forall x, Decision (Q x)}
    `{!forall x, Decision (R x)} (l : list A) :
  (forall x, x ∈ l -> (R x <-> P x \/ Q x)) ->
  (forall x, x ∈ l -> ~ (P x /\ Q x)) ->
  length (filter R l) = (length (filter P l) + length (filter Q l))%nat.
Proof.
  induction l as [|a l IH]; intros HR Hdis; [done|].
  rewrite !filter_cons.
  specialize (IH (fun x Hx => HR x (list_elem_of_further _ _ _ Hx))
                 (fun x Hx => Hdis x (list_elem_of_further _ _ _ Hx))).
  pose proof (HR a ltac:(left)) as Ha. pose proof (Hdis a ltac:(left)) as Hd.
  destruct (decide (R a)), (decide (P a)), (decide (Q a)); cbn; try lia; tauto.
Qed.

Lemma filter_length_none {A} (P : A -> Prop) `{!forall x, Decision (P x)}
    (l : list A) :
  (forall x, x ∈ l -> ~ P x) -> length (filter P l) = 0%nat.
Proof.
  induction l as [|a l IH]; intros Hno; [done|].
  rewrite filter_cons, decide_False by (apply Hno; left).
  apply IH. intros x Hx. apply Hno. by right.
Qed.

Lemma in_range_count_unfold (x y q : Z) :
  1 <= q ->
  in_range_count x y q
  = ((if decide (x <= q < y)%Z then 1 else 0) + in_range_count x y (q / 2)%Z)%nat.
Proof.
  intros Hq. unfold in_range_count. rewrite chain_unfold by done.
  rewrite filter_cons. by case_decide.
Qed.

Lemma in_range_count_low (x y q : Z) : q < 1 -> in_range_count x y q = 0%nat.
Proof. intros. unfold in_range_count. by rewrite chain_nil. Qed.

Lemma in_range_count_none (x y q : Z) :
  (forall p, p ∈ chain q -> ~ x <= p < y) -> in_range_count x y q = 0%nat.
Proof.
  intros Hno. unfold in_range_count. by apply filter_length_none.
Qed.

Lemma in_range_count_empty (x y q : Z) : y <= x -> in_range_count x y q = 0%nat.
Proof. intros. apply in_range_count_none. intros. lia. Qed.

Lemma in_range_count_high (x y q : Z) : q < x -> in_range_count x y q = 0%nat.
Proof.
  intros. apply in_range_count_none. intros p Hp.
  apply chain_bound in Hp. lia.
Qed.

Lemma in_range_count_split (x z y q : Z) :
  x <= z -> z <= y ->
  in_range_count x y q = (in_range_count x z q + in_range_count z y q)%nat.
Proof.
  intros. unfold in_range_count. apply filter_length_or; intros; lia.
Qed.

Lemma in_range_count_halve (x y : Z) : forall q,
  1 <= x -> in_range_count (2 * x) (2 * y) q = in_range_count x y (q / 2).
Proof.
  intros q Hx. induction q as [q Hq|q Hq IH] using chain_ind.
  - rewrite !in_range_count_low by lia. done.
  - rewrite in_range_count_unfold by done. rewrite IH.
    destruct (decide (1 <= q / 2)).
    + rewrite (in_range_count_unfold x y (q / 2)) by done.
      repeat case_decide; lia.
    + rewrite (in_range_count_low x y (q / 2)) by lia.
      rewrite (in_range_count_low x y (q / 2 / 2)) by lia.
      case_decide; lia.
Qed.

Lemma in_range_count_single (t : Z) : forall q,
  in_range_count t (t + 1) q = if decide (t ∈ chain q) then 1%nat else 0%nat.
Proof.
  intros q. induction q as [q Hq|q Hq IH] using chain_ind.
  - rewrite in_range_count_low by done. rewrite chain_nil by done.
    by rewrite decide_False by apply not_elem_of_nil.
  - rewrite in_range_count_unfold by done. rewrite IH, (chain_unfold q) by done.
    destruct (decide (t ∈ chain (q / 2))) as [Hin|Hin].
    + pose proof (chain_bound _ _ Hin).
      rewrite decide_False by lia. rewrite decide_True by by right. done.
    + destruct (decide (t = q)) as [->|Hne].
      * rewrite decide_True by lia. rewrite decide_True by by left. done.
      * rewrite decide_False by lia.
        rewrite decide_False; [done|]. intros [?|?]%elem_of_cons; done.
Qed.

Lemma hits_nil (q : Z) : hits [] q = 0%nat.
Proof. reflexivity. Qed.

Lemma hits_cons (t : Z) (ts : list Z) (q : Z) :
  hits (t :: ts) q = ((if decide (t ∈ chain q) then 1 else 0) + hits ts q)%nat.
Proof. unfold hits. rewrite filter_cons. by case_decide. Qed.

Lemma hits_app (ts1 ts2 : list Z) (q : Z) :
  hits (ts1 ++ ts2) q = (hits ts1 q + hits ts2 q)%nat.
Proof.
  induction ts1 as [|t ts1 IH]; [done|].
  cbn [app]. rewrite !hits_cons, IH. lia.
Qed.

Lemma hits_none (ts : list Z) (q : Z) :
  (forall t, t ∈ ts -> t ∉ chain q) -> hits ts q = 0%nat.
Proof.
  intros Hno. unfold hits. by apply filter_length_none.
Qed.

(** *** The nodes [Update] visits cover the range once *)

Lemma hits_round (lo x y q : Z) :
  1 <= lo -> lo <= x -> x < y -> y <= 2 * lo -> lo <= q ->
  (hits (round_nodes x y) q + in_range_count (next_left x) (next_right y) q)%nat
  = in_range_count x y q.
Proof.
  intros Hlo Hx Hlt Hy Hq.
  set (x1 := if decide (Z.rem x 2 = 1) then x + 1 else x).
  set (y1 := if decide (Z.rem y 2 = 1) then y - 1 else y).
  assert (Hx1 : x <= x1 <= y1 /\ y1 <= y /\ x1 = 2 * next_left x /\ y1 = 2 * next_right y).
  { unfold x1, y1, next_left, next_right. repeat case_decide; lia. }
  destruct Hx1 as (Hxx1 & Hy1y & Ex & Ey).
  rewrite (in_range_count_split x x1 y q) by lia.
  rewrite (in_range_count_split x1 y1 y q) by lia.
  rewrite Ex at 2. rewrite Ey at 1.
  rewrite in_range_count_halve by lia.
  rewrite (in_range_count_unfold (next_left x) (next_right y) q) by lia.
  rewrite (decide_False (P := next_left x <= q < next_right y)) by lia.
  assert (hits (round_nodes x y) q
          = (in_range_count x x1 q + in_range_count y1 y q)%nat); [|lia].
  unfold round_nodes. rewrite hits_app. unfold x1, y1.
  f_equal; case_decide.
  - by rewrite hits_cons, hits_nil, in_range_count_single, Nat.add_0_r.
  - by rewrite hits_nil, in_range_count_empty by lia.
  - rewrite hits_cons, hits_nil, Nat.add_0_r.
    replace (in_range_count (y - 1) y q)
      with (in_range_count (y - 1) (y - 1 + 1) q) by (f_equal; lia).
    by rewrite in_range_count_single.
  - by rewrite hits_nil, in_range_count_empty by lia.
Qed.

(** For a node [q] at or below the level [lo, 2 lo) the loop starts on,
    the nodes visited that lie on the chain of [q] are as many as the
    nodes of the chain in the range: one for a leaf of the range, none
    for another leaf. *)
Lemma hits_touched (fuel : nat) : forall (lo x y q : Z),
  1 <= lo -> lo <= x -> y <= 2 * lo -> lo <= q -> (Z.to_nat y <= fuel)%nat ->
  hits (touched fuel x y) q = in_range_count x y q.
Proof.
  induction fuel as [|fuel IH]; intros lo x y q Hlo Hx Hy Hq Hfuel.
  { cbn [touched]. case_decide; [lia|]. by rewrite hits_nil, in_range_count_empty by lia. }
  cbn [touched]. case_decide as Hlt;
    [|by rewrite hits_nil, in_range_count_empty by lia].
  rewrite hits_app, (IH ((lo + 1) / 2)).
  - by apply (hits_round lo).
  - lia.
  - unfold next_left. case_decide; lia.
  - unfold next_right. case_decide; lia.
  - lia.
  - unfold next_right. case_decide; lia.
Qed.

Lemma hits_ext (ts : list Z) (q q' : Z) :
  (forall t, t ∈ ts -> t ∈ chain q <-> t ∈ chain q') -> hits ts q = hits ts q'.
Proof.
  induction ts as [|t ts IH]; intros Hts; [done|].
  rewrite !hits_cons, IH by (intros t' Hin; apply Hts; by right).
  pose proof (Hts t ltac:(left)) as Ht.
  repeat case_decide; tauto || lia.
Qed.

(** *** The parents of the nodes [Update] visits lie above the two
    boundary leaves *)

Lemma round_nodes_parent (x y a b t : Z) :
  0 <= a -> 0 <= b -> x < y ->
  x = a \/ x = a + 1 -> y = b \/ y = b + 1 ->
  t ∈ round_nodes x y -> t / 2 = a / 2 \/ t / 2 = b / 2.
Proof.
  intros Ha Hb Hlt Hx Hy Hin. unfold round_nodes in Hin.
  apply elem_of_app in Hin as [Hin|Hin]; case_decide;
    try (apply list_elem_of_singleton in Hin);
    try (by apply elem_of_nil in Hin); lia.
Qed.

Lemma touched_parent (fuel : nat) : forall (x y a b t : Z),
  0 <= a -> 0 <= b ->
  x = a \/ x = a + 1 -> y = b \/ y = b + 1 ->
  t ∈ touched fuel x y -> 2 <= t ->
  t / 2 ∈ chain (a / 2) \/ t / 2 ∈ chain (b / 2).
Proof.
  induction fuel as [|fuel IH]; intros x y a b t Ha Hb Hx Hy Hin Ht.
  { cbn in Hin. case_decide; by apply elem_of_nil in Hin. }
  cbn [touched] in Hin. case_decide as Hlt; [|by apply elem_of_nil in Hin].
  apply elem_of_app in Hin as [Hin|Hin].
  - destruct (round_nodes_parent x y a b t Ha Hb Hlt Hx Hy Hin) as [E|E];
      [left | right]; rewrite <- E; apply chain_self; lia.
  - destruct (IH (next_left x) (next_right y) (a / 2) (b / 2) t) as [H|H];
      try done; try lia.
    + unfold next_left. case_decide; lia.
    + unfold next_right. case_decide; lia.
    + left. apply chain_up; [|done]. apply chain_bound in H. lia.
    + right. apply chain_up; [|done]. apply chain_bound in H. lia.
Qed.

End DenseArith.

(** ** Symbolic execution of the dense tree's member functions *)

Module DenseExec.
Import Dense DenseArith.

Lemma vget_in_range {A} (v : list A) (i : Z) :
  0 <= i < Z.of_nat (length v) -> is_Some (vget v i).
Proof.
  intros Hi. unfold vget. rewrite decide_True by lia.
  apply lookup_lt_is_Some. lia.
Qed.

Lemma vget_out_of_range {A} (v : list A) (i : Z) :
  ~ (0 <= i < Z.of_nat (length v)) -> vget v i = None.
Proof.
  intros Hi. unfold vget. destruct (decide (0 <= i)); [|done].
  apply lookup_ge_None. lia.
Qed.

Lemma vget_insert {A} (v : list A) (i j : Z) (x : A) :
  0 <= i < Z.of_nat (length v) ->
  vget (<[Z.to_nat i := x]> v) j = if decide (j = i) then Some x else vget v j.
Proof.
  intros Hi. unfold vget. destruct (decide (j = i)) as [->|Hne].
  - rewrite decide_True by lia. apply list_lookup_insert_eq. lia.
  - destruct (decide (0 <= j)); [|done].
    apply list_lookup_insert_ne. lia.
Qed.

Section State.
Context {T U : Type}.

Local Abbreviation tree := (LazyPropSegtree (T:=T) (U:=U)).

Implicit Types (s : tree) (N i j : Z).

Lemma tr_set_tr s N i j (x : T) :
  sized N s -> 0 <= i < 2 * N ->
  tr (set_tr s i x) j = if decide (j = i) then x else tr s j.
Proof.
  intros (_ & _ & Ht & _) Hi. unfold tr, set_tr. cbn.
  rewrite vget_insert by lia. by destruct (decide (j = i)).
Qed.

Lemma lzf_set_tr s i j (x : T) : lzf (set_tr s i x) j = lzf s j.
Proof. reflexivity. Qed.

Lemma tr_set_lz s i j (x : U) : tr (set_lz s i x) j = tr s j.
Proof. reflexivity. Qed.

Lemma lzf_set_lz s N i j (x : U) :
  sized N s -> 0 <= i < N ->
  lzf (set_lz s i x) j = if decide (j = i) then x else lzf s j.
Proof.
  intros (_ & _ & _ & Hl) Hi. unfold lzf, set_lz. cbn.
  rewrite vget_insert by lia. by destruct (decide (j = i)).
Qed.

Lemma sized_set_tr s N i (x : T) : sized N s -> sized N (set_tr s i x).
Proof.
  intros (? & ? & ? & ?). unfold sized, set_tr. cbn.
  rewrite length_insert. done.
Qed.

Lemma sized_set_lz s N i (x : U) : sized N s -> sized N (set_lz s i x).
Proof.
  intros (? & ? & ? & ?). unfold sized, set_lz. cbn.
  rewrite length_insert. done.
Qed.

Lemma rd_tree_eq s N i :
  sized N s -> 0 <= i < 2 * N -> rd_tree i s = Some (tr s i, s).
Proof.
  intros (_ & _ & Ht & _) Hi. unfold rd_tree, tr.
  destruct (vget_in_range (tree_ s) i ltac:(lia)) as [x ->]. done.
Qed.

Lemma rd_tree_none s N i :
  sized N s -> ~ (0 <= i < 2 * N) -> rd_tree i s = None.
Proof.
  intros (_ & _ & Ht & _) Hi. unfold rd_tree.
  rewrite vget_out_of_range by lia. done.
Qed.

Lemma rd_lazy_eq s N i :
  sized N s -> 0 <= i < N -> rd_lazy i s = Some (lzf s i, s).
Proof.
  intros (_ & _ & _ & Hl) Hi. unfold rd_lazy, lzf.
  destruct (vget_in_range (lazy_ s) i ltac:(lia)) as [x ->]. done.
Qed.

Lemma rd_lazy_none s N i :
  sized N s -> ~ (0 <= i < N) -> rd_lazy i s = None.
Proof.
  intros (_ & _ & _ & Hl) Hi. unfold rd_lazy.
  rewrite vget_out_of_range by lia. done.
Qed.

Lemma wr_tree_eq s N i (x : T) :
  sized N s -> 0 <= i < 2 * N -> wr_tree i x s = Some (tt, set_tr s i x).
Proof.
  intros (_ & _ & Ht & _) Hi. unfold wr_tree, vset.
  rewrite decide_True by lia. done.
Qed.

Lemma wr_lazy_eq s N i (x : U) :
  sized N s -> 0 <= i < N -> wr_lazy i x s = Some (tt, set_lz s i x).
Proof.
  intros (_ & _ & _ & Hl) Hi. unfold wr_lazy, vset.
  rewrite decide_True by lia. done.
Qed.

(** The same, under a [bind]. *)
Lemma bind_rd_tree {A} s N i (k : T -> M A) :
  sized N s -> 0 <= i < 2 * N -> bind (rd_tree i) k s = k (tr s i) s.
Proof. intros. unfold bind. erewrite rd_tree_eq; eauto. Qed.

Lemma bind_rd_lazy {A} s N i (k : U -> M A) :
  sized N s -> 0 <= i < N -> bind (rd_lazy i) k s = k (lzf s i) s.
Proof. intros. unfold bind. erewrite rd_lazy_eq; eauto. Qed.

Lemma bind_wr_tree {A} s N i (x : T) (k : unit -> M A) :
  sized N s -> 0 <= i < 2 * N -> bind (wr_tree i x) k s = k tt (set_tr s i x).
Proof. intros. unfold bind. erewrite wr_tree_eq; eauto. Qed.

Lemma bind_wr_lazy {A} s N i (x : U) (k : unit -> M A) :
  sized N s -> 0 <= i < N -> bind (wr_lazy i x) k s = k tt (set_lz s i x).
Proof. intros. unfold bind. erewrite wr_lazy_eq; eauto. Qed.

Lemma bind_ret {A B} (a : A) (k : A -> M B) s : bind (ret a) k s = k a s.
Proof. reflexivity. Qed.

Lemma bind_assoc {A B C} (m : M A) (k : A -> M B) (h : B -> M C) s :
  bind (bind m k) h s = bind m (fun a => bind (k a) h) s.
Proof. unfold bind. destruct (m s) as [[a s']|]; done. Qed.


Lemma bind_get_size {A} (k : Z -> M A) s : bind get_size k s = k (size_ s) s.
Proof. reflexivity. Qed.
Lemma bind_get_LOG {A} (k : Z -> M A) s : bind get_LOG k s = k (LOG_ s) s.
Proof. reflexivity. Qed.
Lemma bind_get_idOp {A} (k : T -> M A) s : bind get_idOp k s = k (identityOp_ s) s.
Proof. reflexivity. Qed.
Lemma bind_get_idUpd {A} (k : U -> M A) s : bind get_idUpd k s = k (identityUpdate_ s) s.
Proof. reflexivity. Qed.

Lemma wf_sized s N (io : T) (iu : U) : wf N io iu s -> sized N s.
Proof. by intros [? _]. Qed.

Lemma wf_set_tr s N (io : T) (iu : U) i (x : T) :
  wf N io iu s -> wf N io iu (set_tr s i x).
Proof. intros (? & ? & ?). split; [by apply sized_set_tr | done]. Qed.

Lemma wf_set_lz s N (io : T) (iu : U) i (x : U) :
  wf N io iu s -> wf N io iu (set_lz s i x).
Proof. intros (? & ? & ?). split; [by apply sized_set_lz | done]. Qed.

End State.

Create HintDb dense.
#[export] Hint Resolve wf_sized sized_set_tr sized_set_lz wf_set_tr wf_set_lz : dense.

(** Rewrites the reads and writes at the head of a monadic block into the
    total maps, given that the indices are in range. *)
Ltac exec_step N :=
  first
    [ rewrite bind_ret
    | rewrite bind_assoc
    | rewrite bind_get_size
    | rewrite bind_get_LOG
    | rewrite bind_get_idOp
    | rewrite bind_get_idUpd
    | rewrite (bind_rd_tree _ N) by (eauto 10 with dense; lia)
    | rewrite (bind_rd_lazy _ N) by (eauto 10 with dense; lia)
    | rewrite (bind_wr_tree _ N) by (eauto 10 with dense; lia)
    | rewrite (bind_wr_lazy _ N) by (eauto 10 with dense; lia)
    | rewrite (wr_tree_eq _ N) by (eauto 10 with dense; lia)
    | rewrite (wr_lazy_eq _ N) by (eauto 10 with dense; lia) ].
Ltac exec N := repeat exec_step N.

(** Reads of the total maps after writes. *)
Ltac state_simpl N :=
  repeat first
    [ rewrite lzf_set_tr
    | rewrite tr_set_lz
    | rewrite (tr_set_tr _ N) by (eauto 10 with dense; lia)
    | rewrite (lzf_set_lz _ N) by (eauto 10 with dense; lia) ].

Lemma pow2_ge_4 (k : Z) : 2 <= k -> 4 <= 2 ^ k.
Proof.
  intros Hk. change 4 with (2 ^ 2). apply Z.pow_le_mono_r; lia.
Qed.

Lemma shiftr_bound (pos k : Z) :
  0 <= pos -> 2 <= k -> 0 <= Z.shiftr pos k /\ 4 * Z.shiftr pos k <= pos.
Proof.
  intros Hpos Hk. rewrite Z.shiftr_div_pow2 by lia.
  pose proof (pow2_ge_4 k Hk) as H4.
  pose proof (Z.mul_div_le pos (2 ^ k) ltac:(lia)) as Hle.
  assert (0 <= pos / 2 ^ k) by (apply Z.div_pos; lia).
  split; [done | nia].
Qed.

Lemma proper_node_pos (N t : Z) : 1 <= N -> 0 <= t -> proper_node N t -> 1 <= t.
Proof.
  intros HN Ht (j & Hj & Hlo & _).
  destruct (decide (t = 0)) as [->|]; [|lia]. lia.
Qed.

(** The children of a proper node below the leaves are proper. *)
Lemma proper_node_child (N t c : Z) :
  0 <= t < N -> proper_node N t -> c = 2 * t \/ c = 2 * t + 1 -> proper_node N c.
Proof.
  intros Ht (j & Hj & Hlo & Hhi) Hc.
  assert (j <> 0) by (intros ->; rewrite Z.pow_0_r in Hlo; lia).
  exists (j - 1). split; [lia|].
  assert (E : 2 ^ j = 2 * 2 ^ (j - 1)).
  { rewrite <- Z.pow_succ_r by lia. f_equal. lia. }
  rewrite E in Hlo, Hhi.
  assert (0 < 2 ^ (j - 1)) by (apply Z.pow_pos_nonneg; lia).
  destruct Hc as [->| ->]; nia.
Qed.

(** A proper node whose children are not leaves has grandchildren. *)
Lemma proper_node_inner (N t : Z) :
  0 <= t -> 2 * t < N -> proper_node N t -> 2 * t + 2 <= N.
Proof.
  intros Ht Hlt (j & Hj & Hlo & Hhi).
  assert (j <> 0) by (intros ->; rewrite Z.pow_0_r in Hlo; lia).
  assert (j <> 1) by (intros ->; change (2 ^ 1) with 2 in Hlo; lia).
  pose proof (pow2_ge_4 j ltac:(lia)). nia.
Qed.

(** The children of a proper node just above the leaves are leaves. *)
Lemma proper_node_last (N t : Z) :
  0 <= t < N -> N <= 2 * t + 1 -> proper_node N t -> N <= 2 * t.
Proof.
  intros Ht Hge (j & Hj & Hlo & Hhi).
  assert (j <> 0) by (intros ->; rewrite Z.pow_0_r in Hlo; lia).
  destruct (decide (j = 1)) as [->|]; [change (2 ^ 1) with 2 in Hlo; lia|].
  pose proof (pow2_ge_4 j ltac:(lia)). nia.
Qed.


Section Exec.
Context {T U : Type}.
Variable op : T -> T -> T.
Variable updVal : T -> U -> T.
Variable updLazy : U -> U -> U.
Variable U_eqb : U -> U -> bool.
Variable N : Z.
Variable io : T.
Variable iu : U.

Local Abbreviation tree := (LazyPropSegtree (T:=T) (U:=U)).
Local Abbreviation wf := (wf N io iu).
Local Abbreviation push_inner := (push_inner updVal updLazy).
Local Abbreviation push_last := (push_last updVal).
Local Abbreviation push_if := (push_if updVal updLazy U_eqb).
Local Abbreviation touch := (touch updVal updLazy).
Local Abbreviation recalc_at := (recalc_at op updVal).

Implicit Types (s : tree) (i j t p : Z).

Lemma wf_idUpd s : wf s -> identityUpdate_ s = iu.
Proof. by intros (_ & _ & ?). Qed.
Lemma wf_idOp s : wf s -> identityOp_ s = io.
Proof. by intros (_ & ? & _). Qed.
Lemma wf_size s : wf s -> size_ s = N.
Proof. by intros ((? & _) & _). Qed.
Lemma wf_N s : wf s -> 1 <= N.
Proof. by intros ((_ & ? & _) & _). Qed.

(** *** The total maps after each step *)

Lemma wf_push_inner s i : wf s -> wf (push_inner i s).
Proof. intros. unfold Dense.push_inner. cbv zeta. eauto 10 with dense. Qed.

Lemma lzf_push_inner s i t :
  wf s -> 1 <= i -> 2 * i + 1 < N ->
  lzf (push_inner i s) t =
    if decide (t = i) then iu
    else if decide (t = 2 * i + 1) then updLazy (lzf s (2 * i + 1)) (lzf s i)
    else if decide (t = 2 * i) then updLazy (lzf s (2 * i)) (lzf s i)
    else lzf s t.
Proof.
  intros Hwf Hi Hc. unfold Dense.push_inner. cbv zeta.
  rewrite (wf_idUpd s Hwf). state_simpl N.
  repeat case_decide; try lia; done.
Qed.

Lemma tr_push_inner s i t :
  wf s -> 1 <= i -> 2 * i + 1 < N ->
  tr (push_inner i s) t =
    if decide (t = 2 * i + 1) then updVal (tr s (2 * i + 1)) (lzf s i)
    else if decide (t = 2 * i) then updVal (tr s (2 * i)) (lzf s i)
    else tr s t.
Proof.
  intros Hwf Hi Hc. unfold Dense.push_inner. cbv zeta.
  state_simpl N.
  repeat case_decide; try lia; done.
Qed.

Lemma wf_push_last s p : wf s -> wf (push_last p s).
Proof. intros. unfold Dense.push_last. cbv zeta. eauto 10 with dense. Qed.

Lemma lzf_push_last s p t :
  wf s -> 0 <= p < N ->
  lzf (push_last p s) t = if decide (t = p) then iu else lzf s t.
Proof.
  intros Hwf Hp. unfold Dense.push_last. cbv zeta.
  rewrite (wf_idUpd s Hwf). state_simpl N. done.
Qed.

Lemma tr_push_last s p t :
  wf s -> 0 <= p < N ->
  tr (push_last p s) t =
    if decide (t = 2 * p + 1) then updVal (tr s (2 * p + 1)) (lzf s p)
    else if decide (t = 2 * p) then updVal (tr s (2 * p)) (lzf s p)
    else tr s t.
Proof.
  intros Hwf Hp. unfold Dense.push_last. cbv zeta.
  state_simpl N.
  repeat case_decide; try lia; done.
Qed.

Lemma wf_touch s b (u : U) t : wf s -> wf (touch b u t s).
Proof. intros. unfold Dense.touch. cbv zeta. destruct b; eauto 10 with dense. Qed.

Lemma tr_touch s b (u : U) t i :
  wf s -> 0 <= t < 2 * N ->
  tr (touch b u t s) i = if decide (i = t) then updVal (tr s t) u else tr s i.
Proof.
  intros Hwf Ht. unfold Dense.touch. cbv zeta.
  destruct b; state_simpl N; done.
Qed.

Lemma lzf_touch_tag s (u : U) t i :
  wf s -> 0 <= t < N ->
  lzf (touch true u t s) i = if decide (i = t) then updLazy (lzf s t) u else lzf s i.
Proof.
  intros Hwf Ht. unfold Dense.touch. cbv zeta. state_simpl N. done.
Qed.

Lemma lzf_touch_leaf s (u : U) t i : lzf (touch false u t s) i = lzf s i.
Proof. reflexivity. Qed.

Lemma wf_recalc_at s p : wf s -> wf (recalc_at p s).
Proof. intros. unfold Dense.recalc_at. cbv zeta. eauto 10 with dense. Qed.

Lemma tr_recalc_at s p t :
  wf s -> 0 <= p < 2 * N ->
  tr (recalc_at p s) t =
    if decide (t = p)
    then updVal (op (tr s (2 * p)) (tr s (2 * p + 1))) (lzf s p)
    else tr s t.
Proof.
  intros Hwf Hp. unfold Dense.recalc_at. cbv zeta. state_simpl N.
  repeat case_decide; try lia; done.
Qed.

Lemma lzf_recalc_at s p t : lzf (recalc_at p s) t = lzf s t.
Proof. reflexivity. Qed.


(** *** The monadic code computes the functions on the object *)

Hypothesis U_eqb_refl : U_eqb iu iu = true.

Local Abbreviation tags_proper := (tags_proper N iu).

Lemma tagged_proper s i :
  wf s -> tags_proper s -> 0 <= i < N ->
  U_eqb (lzf s i) (identityUpdate_ s) = false -> proper_node N i.
Proof.
  intros Hwf Hp Hi Heq. apply (Hp i Hi). intros E.
  rewrite E, (wf_idUpd s Hwf), U_eqb_refl in Heq. done.
Qed.

Lemma Propagate_inner_exec s i :
  wf s -> tags_proper s -> 0 <= i -> 4 * i < 2 * N ->
  Propagate_inner updVal updLazy U_eqb i s = Some (tt, push_if i s).
Proof.
  intros Hwf Hp Hi Hlt. unfold Propagate_inner, Dense.push_if.
  exec N.
  destruct (U_eqb (lzf s i) (identityUpdate_ s)) eqn:Heq; [done|].
  pose proof (tagged_proper s i Hwf Hp ltac:(lia) Heq) as Hprop.
  pose proof (proper_node_inner N i Hi ltac:(lia) Hprop).
  exec N. unfold Dense.push_inner. cbv zeta. reflexivity.
Qed.

Lemma push_if_wf s i : wf s -> wf (push_if i s).
Proof.
  intros. unfold Dense.push_if.
  destruct (U_eqb (lzf s i) _); [done | by apply wf_push_inner].
Qed.

Lemma push_if_proper s i :
  wf s -> tags_proper s -> 0 <= i -> 4 * i < 2 * N -> tags_proper (push_if i s).
Proof.
  intros Hwf Hp Hi Hlt. unfold Dense.push_if.
  destruct (U_eqb (lzf s i) (identityUpdate_ s)) eqn:Heq; [done|].
  pose proof (tagged_proper s i Hwf Hp ltac:(lia) Heq) as Hprop.
  pose proof (proper_node_inner N i Hi ltac:(lia) Hprop).
  pose proof (proper_node_pos N i (wf_N s Hwf) Hi Hprop).
  intros t Ht. rewrite lzf_push_inner by (done || lia).
  repeat case_decide; subst; try done.
  - intros _. eapply proper_node_child; [|exact Hprop|]; lia.
  - intros _. eapply proper_node_child; [|exact Hprop|]; lia.
  - by apply Hp.
Qed.

Lemma Propagate_loop_exec (shift : nat) pos : forall s,
  wf s -> tags_proper s -> 0 <= pos < 2 * N ->
  Propagate_loop updVal updLazy U_eqb shift pos s
    = Some (tt, propagate_from updVal updLazy U_eqb shift pos s) /\
  wf (propagate_from updVal updLazy U_eqb shift pos s) /\
  tags_proper (propagate_from updVal updLazy U_eqb shift pos s).
Proof.
  induction shift as [|shift IH]; intros s Hwf Hp Hpos; [done|].
  destruct shift as [|shift']; [done|].
  cbn [Propagate_loop propagate_from].
  destruct (shiftr_bound pos (Z.of_nat (S (S shift'))) ltac:(lia) ltac:(lia)) as [Hi0 Hi4].
  unfold bind at 1. rewrite Propagate_inner_exec by (done || lia).
  apply IH; [by apply push_if_wf | apply push_if_proper; (done || lia) | done].
Qed.

Lemma Propagate_last_exec s p :
  wf s -> 0 <= p < N ->
  Propagate_last updVal U_eqb p s
    = Some (tt, if U_eqb (lzf s p) (identityUpdate_ s) then s else push_last p s).
Proof.
  intros Hwf Hp. unfold Propagate_last. exec N.
  destruct (U_eqb (lzf s p) (identityUpdate_ s)) eqn:Heq; [done|].
  exec N. unfold Dense.push_last. cbv zeta. done.
Qed.

Lemma Propagate_exec s pos :
  wf s -> tags_proper s -> 0 <= pos < 2 * N ->
  Propagate updVal updLazy U_eqb pos s
    = Some (tt, propagated updVal updLazy U_eqb pos s) /\
  wf (propagated updVal updLazy U_eqb pos s) /\
  tags_proper (propagated updVal updLazy U_eqb pos s).
Proof.
  intros Hwf Hp Hpos. unfold Propagate, propagated. cbv zeta.
  rewrite bind_get_LOG.
  destruct (Propagate_loop_exec (Z.to_nat (LOG_ s)) pos s Hwf Hp Hpos)
    as (Hloop & Hwf' & Hp').
  unfold bind at 1. rewrite Hloop.
  rewrite Propagate_last_exec by (done || lia).
  split; [done|].
  destruct (U_eqb (lzf _ _) _); [done|].
  split; [by apply wf_push_last|].
  intros t Ht. rewrite lzf_push_last by (done || lia).
  case_decide; [done | by apply Hp'].
Qed.


Lemma Query_loop_exec (fuel : nat) s : forall (x y : Z) (a b : T),
  wf s -> 0 <= x -> y <= 2 * N -> (Z.to_nat y <= fuel)%nat ->
  Query_loop op fuel x y a b s = Some (gather op fuel s x y a b, s).
Proof.
  induction fuel as [|fuel IH]; intros x y a b Hwf Hx Hy Hfuel.
  - cbn. case_decide; [lia | done].
  - cbn [Query_loop gather]. case_decide as Hlt; [|done].
    destruct (decide (Z.rem x 2 = 1)) as [Hxo|Hxo];
      destruct (decide (Z.rem y 2 = 1)) as [Hyo|Hyo];
      exec N; cbn [fst snd]; apply IH; (done || lia).
Qed.

Lemma wf_touch_all (b : bool) (u : U) (ts : list Z) : forall s,
  wf s -> wf (touch_all updVal updLazy b u ts s).
Proof.
  induction ts as [|t ts IH]; intros s Hwf; [done|].
  cbn. apply IH. by apply wf_touch.
Qed.

Lemma touch_all_nil (b : bool) (u : U) s : touch_all updVal updLazy b u [] s = s.
Proof. reflexivity. Qed.

Lemma touch_all_cons (b : bool) (u : U) t (ts : list Z) s :
  touch_all updVal updLazy b u (t :: ts) s
  = touch_all updVal updLazy b u ts (touch b u t s).
Proof. reflexivity. Qed.

Lemma touch_all_app (b : bool) (u : U) (ts1 ts2 : list Z) s :
  touch_all updVal updLazy b u (ts1 ++ ts2) s
  = touch_all updVal updLazy b u ts2 (touch_all updVal updLazy b u ts1 s).
Proof. unfold touch_all. apply foldl_app. Qed.

Lemma Update_loop_exec (fuel : nat) (u : U) : forall (x y : Z) s,
  wf s -> 0 <= x -> y <= N -> (Z.to_nat y <= fuel)%nat ->
  Update_loop updVal updLazy fuel x y u s
    = Some (tt, touch_all updVal updLazy true u (touched fuel x y) s).
Proof.
  induction fuel as [|fuel IH]; intros x y s Hwf Hx Hy Hfuel.
  - cbn. case_decide; [lia | done].
  - cbn [Update_loop touched]. case_decide as Hlt; [|done].
    rewrite touch_all_app. unfold round_nodes, next_left, next_right.
    destruct (decide (Z.rem x 2 = 1)) as [Hxo|Hxo];
      destruct (decide (Z.rem y 2 = 1)) as [Hyo|Hyo];
      exec N; cbn [app touch_all foldl].
    all: rewrite IH; [done | solve [eauto 10 with dense] | lia | lia | lia].
Qed.

Lemma recalc_from_step (fuel : nat) pos s :
  pos > 0 ->
  recalc_from op updVal (S fuel) pos s
  = recalc_from op updVal fuel (Z.quot pos 2) (recalc_at pos s).
Proof. intros. cbn [recalc_from]. by rewrite decide_True. Qed.

Lemma recalc_from_done (fuel : nat) pos s :
  ~ pos > 0 -> recalc_from op updVal fuel pos s = s.
Proof. intros. destruct fuel; cbn [recalc_from]; by rewrite decide_False. Qed.

Lemma propagate_from_step (k : nat) pos s :
  propagate_from updVal updLazy U_eqb (S (S k)) pos s
  = propagate_from updVal updLazy U_eqb (S k) pos
      (push_if (Z.shiftr pos (Z.of_nat (S (S k)))) s).
Proof. reflexivity. Qed.

Lemma touched_step (fuel : nat) (x y : Z) :
  x < y ->
  touched (S fuel) x y
  = round_nodes x y ++ touched fuel (next_left x) (next_right y).
Proof. intros. cbn [touched]. by rewrite decide_True. Qed.

Lemma touched_done (fuel : nat) (x y : Z) : ~ x < y -> touched fuel x y = [].
Proof. intros. destruct fuel; cbn [touched]; by rewrite decide_False. Qed.

Lemma wf_recalc_from (fuel : nat) : forall pos s,
  wf s -> wf (recalc_from op updVal fuel pos s).
Proof.
  induction fuel as [|fuel IH]; intros pos s Hwf; cbn; case_decide; try done.
  apply IH. by apply wf_recalc_at.
Qed.

Lemma recalc_loop_exec (fuel : nat) : forall pos s,
  wf s -> 0 <= pos < N -> (Z.to_nat pos <= fuel)%nat ->
  recalculate_loop op updVal fuel pos s
    = Some (tt, recalc_from op updVal fuel pos s).
Proof.
  induction fuel as [|fuel IH]; intros pos s Hwf Hpos Hfuel.
  - cbn. case_decide; [lia | done].
  - cbn [recalculate_loop recalc_from]. case_decide as Hgt; [|done].
    exec N.
    rewrite IH; [done | solve [eauto 10 with dense] | lia | lia].
Qed.

Lemma Query_exec s (l r : Z) :
  wf s -> tags_proper s -> 0 <= l -> l < N -> l <= r -> r <= N ->
  Query op updVal updLazy U_eqb l r s
    = Some (query_result op updVal updLazy U_eqb l r s,
            query_state updVal updLazy U_eqb l r s) /\
  wf (query_state updVal updLazy U_eqb l r s) /\
  tags_proper (query_state updVal updLazy U_eqb l r s).
Proof.
  intros Hwf Hp Hl HlN Hlr Hr. unfold Query, query_result, query_state.
  rewrite bind_get_idOp, bind_get_size. cbv zeta.
  rewrite (wf_size s Hwf).
  destruct (Propagate_exec s (l + N) Hwf Hp ltac:(pose proof (wf_N s Hwf); lia))
    as (E1 & Hwf1 & Hp1).
  unfold bind at 1. rewrite E1.
  destruct (Propagate_exec _ (r + N - 1) Hwf1 Hp1 ltac:(pose proof (wf_N s Hwf); lia))
    as (E2 & Hwf2 & Hp2).
  unfold bind at 1. rewrite E2.
  unfold bind at 1.
  rewrite Query_loop_exec by (done || pose proof (wf_N s Hwf); lia).
  done.
Qed.

Lemma Update_exec s (l r : Z) (u : U) :
  wf s -> 0 <= l -> l < N -> l <= r -> r <= N ->
  Update op updVal updLazy l r u s
    = Some (tt, update_state op updVal updLazy l r u s).
Proof.
  intros Hwf Hl HlN Hlr Hr. pose proof (wf_N s Hwf) as HN.
  unfold Update, update_state. rewrite bind_get_size. cbv zeta.
  rewrite (wf_size s Hwf).
  unfold round_nodes, next_left, next_right, recalculate_after_update, recalculated.
  destruct (decide (Z.rem (l + N) 2 = 1)) as [Hxo|Hxo];
    destruct (decide (Z.rem (r + N) 2 = 1)) as [Hyo|Hyo];
    exec N; cbn [app touch_all foldl];
    (unfold bind at 1; rewrite Update_loop_exec by (eauto 10 with dense; lia));
    (unfold bind at 1;
     rewrite recalc_loop_exec by (eauto 10 using wf_touch_all with dense; lia));
    (rewrite recalc_loop_exec
       by (eauto 10 using wf_touch_all, wf_recalc_from with dense; lia));
    done.
Qed.


Local Abbreviation propagate_from := (propagate_from updVal updLazy U_eqb).
Local Abbreviation propagated := (propagated updVal updLazy U_eqb).
Local Abbreviation touch_all := (touch_all updVal updLazy).
Local Abbreviation recalc_from := (recalc_from op updVal).
Local Abbreviation recalculated := (recalculated op updVal).
Local Abbreviation query_state := (query_state updVal updLazy U_eqb).
Local Abbreviation query_result := (query_result op updVal updLazy U_eqb).
Local Abbreviation update_state := (update_state op updVal updLazy).

(** *** [LOG_] is never written *)

Lemma LOG_push_if s i : LOG_ (push_if i s) = LOG_ s.
Proof. unfold Dense.push_if. by destruct (U_eqb (lzf s i) _). Qed.

Lemma LOG_propagate_from (shift : nat) pos : forall s,
  LOG_ (propagate_from shift pos s) = LOG_ s.
Proof.
  induction shift as [|shift IH]; intros s; [done|].
  destruct shift as [|shift']; [done|].
  rewrite propagate_from_step, IH. apply LOG_push_if.
Qed.

Lemma LOG_propagated s pos : LOG_ (propagated pos s) = LOG_ s.
Proof.
  unfold Dense.propagated. cbv zeta.
  destruct (U_eqb (lzf _ _) _); [|change (LOG_ (push_last _ ?x)) with (LOG_ x)];
    apply LOG_propagate_from.
Qed.

Lemma LOG_query_state s (l r : Z) : LOG_ (query_state l r s) = LOG_ s.
Proof. unfold Dense.query_state. by rewrite !LOG_propagated. Qed.

Lemma LOG_touch_all (b : bool) (u : U) (ts : list Z) : forall s,
  LOG_ (touch_all b u ts s) = LOG_ s.
Proof.
  induction ts as [|t ts IH]; intros s; [done|].
  rewrite touch_all_cons, IH. unfold touch. cbv zeta. by destruct b.
Qed.

Lemma LOG_recalc_from (fuel : nat) : forall pos s,
  LOG_ (recalc_from fuel pos s) = LOG_ s.
Proof.
  induction fuel as [|fuel IH]; intros pos s.
  - destruct (decide (pos > 0)); [cbn; by rewrite decide_True|].
    by rewrite recalc_from_done.
  - destruct (decide (pos > 0)); [|by rewrite recalc_from_done].
    by rewrite recalc_from_step, IH.
Qed.

Lemma LOG_update_state s (l r : Z) (u : U) : LOG_ (update_state l r u s) = LOG_ s.
Proof.
  unfold Dense.update_state, Dense.recalculated. cbv zeta.
  by rewrite !LOG_recalc_from, !LOG_touch_all.
Qed.

(** *** [Update] puts tags on proper nodes only *)

Lemma round_nodes_bounds (x y t : Z) :
  0 <= x -> x < y -> t ∈ round_nodes x y -> x <= t < y.
Proof.
  intros Hx Hlt Hin. unfold round_nodes in Hin.
  apply elem_of_app in Hin as [Hin|Hin]; case_decide;
    try (apply list_elem_of_singleton in Hin);
    try (by apply elem_of_nil in Hin); lia.
Qed.


Lemma next_left_bounds (x : Z) : 0 <= x -> x <= 2 * next_left x <= x + 1.
Proof. intros. unfold next_left. case_decide; lia. Qed.

Lemma next_right_bounds (y : Z) : 0 <= y -> y - 1 <= 2 * next_right y <= y.
Proof. intros. unfold next_right. case_decide; lia. Qed.

Lemma pow2_succ (j : Z) : 0 <= j -> 2 ^ (j + 1) = 2 * 2 ^ j.
Proof. intros. rewrite Z.pow_add_r by lia. lia. Qed.

(** The nodes the loop of [Update] visits at level [j] and above lie at or
    past [x], before [y], and are proper. *)
Lemma touched_level (fuel : nat) : forall (x y j t : Z),
  0 <= j -> 0 <= x -> N <= x * 2 ^ j -> y * 2 ^ j <= 2 * N ->
  t ∈ touched fuel x y ->
  0 <= t < y /\ proper_node N t.
Proof.
  induction fuel as [|fuel IH]; intros x y j t Hj Hx Hlo Hhi Hin.
  { destruct (decide (x < y)); [cbn in Hin; rewrite decide_True in Hin by done|
                                rewrite touched_done in Hin by done];
      by apply elem_of_nil in Hin. }
  destruct (decide (x < y)) as [Hlt|Hge];
    [|rewrite touched_done in Hin by done; by apply elem_of_nil in Hin].
  rewrite touched_step in Hin by done.
  assert (Hpow : 0 < 2 ^ j) by (apply Z.pow_pos_nonneg; lia).
  apply elem_of_app in Hin as [Hin|Hin].
  - apply round_nodes_bounds in Hin; [|done..].
    split; [lia|]. exists j. split; [done|]. nia.
  - pose proof (next_left_bounds x Hx). pose proof (next_right_bounds y ltac:(lia)).
    destruct (IH (next_left x) (next_right y) (j + 1) t) as [Ht Hprop];
      [lia | lia | rewrite pow2_succ by lia; nia
       | rewrite pow2_succ by lia; nia | done |].
    split; [lia | done].
Qed.

Lemma lzf_touch_all_leaf (u : U) (ts : list Z) : forall s i,
  lzf (touch_all false u ts s) i = lzf s i.
Proof.
  induction ts as [|t ts IH]; intros s i; [done|].
  by rewrite touch_all_cons, IH.
Qed.

Lemma touch_all_proper (u : U) (ts : list Z) : forall s,
  wf s -> tags_proper s ->
  (forall t, t ∈ ts -> 0 <= t < N /\ proper_node N t) ->
  tags_proper (touch_all true u ts s).
Proof.
  induction ts as [|t ts IH]; intros s Hwf Hp Hts; [done|].
  rewrite touch_all_cons. apply IH.
  - by apply wf_touch.
  - destruct (Hts t ltac:(left)) as [Ht Hprop].
    intros i Hi. rewrite lzf_touch_tag by done.
    case_decide; [by subst | by apply Hp].
  - intros t' Hin. apply Hts. by right.
Qed.

Lemma lzf_recalc_from (fuel : nat) : forall pos s i,
  lzf (recalc_from fuel pos s) i = lzf s i.
Proof.
  induction fuel as [|fuel IH]; intros pos s i.
  - destruct (decide (pos > 0)); [cbn; by rewrite decide_True|].
    by rewrite recalc_from_done.
  - destruct (decide (pos > 0)); [|by rewrite recalc_from_done].
    by rewrite recalc_from_step, IH.
Qed.

Lemma wf_update_state s (l r : Z) (u : U) : wf s -> wf (update_state l r u s).
Proof.
  intros Hwf. unfold Dense.update_state, Dense.recalculated. cbv zeta.
  by do 2 apply wf_recalc_from; do 2 apply wf_touch_all.
Qed.

Lemma update_state_proper s (l r : Z) (u : U) :
  wf s -> tags_proper s -> 0 <= l -> r <= N ->
  tags_proper (update_state l r u s).
Proof.
  intros Hwf Hp Hl Hr. pose proof (wf_N s Hwf) as HN.
  unfold Dense.update_state, Dense.recalculated. cbv zeta.
  rewrite (wf_size s Hwf).
  intros t Ht. rewrite !lzf_recalc_from. revert t Ht.
  apply touch_all_proper.
  - by apply wf_touch_all.
  - intros t Ht. by rewrite lzf_touch_all_leaf; apply Hp.
  - intros t Hin.
    pose proof (next_left_bounds (l + N) ltac:(lia)).
    destruct (decide (0 <= r + N)) as [Hr0|Hr0].
    + pose proof (next_right_bounds (r + N) Hr0).
      destruct (touched_level (Z.to_nat (next_right (r + N))) (next_left (l + N))
                  (next_right (r + N)) 1 t)
        as [? ?]; [lia | lia | change (2 ^ 1) with 2; lia
                   | change (2 ^ 1) with 2; lia | exact Hin |].
      split; [lia | done].
    + assert (next_right (r + N) <= 0) by (unfold next_right; case_decide; lia).
      rewrite touched_done in Hin by lia. by apply elem_of_nil in Hin.
Qed.


(** *** Objects that agree from index 1 on go through the same steps *)

Lemma agree_proper s1 s2 : agree s1 s2 -> tags_proper s1 -> tags_proper s2.
Proof. intros [_ Hl] Hp t Ht. rewrite <- Hl. by apply Hp. Qed.

Lemma agree_push_if s1 s2 i :
  wf s1 -> wf s2 -> tags_proper s1 -> agree s1 s2 -> 0 <= i -> 4 * i < 2 * N ->
  agree (push_if i s1) (push_if i s2).
Proof.
  intros Hwf1 Hwf2 Hp Hag Hi Hlt. destruct Hag as [Ht Hl].
  unfold Dense.push_if. rewrite (wf_idUpd s1 Hwf1), (wf_idUpd s2 Hwf2), <- Hl.
  destruct (U_eqb (lzf s1 i) iu) eqn:Heq; [done|].
  rewrite <- (wf_idUpd s1 Hwf1) in Heq.
  pose proof (tagged_proper s1 i Hwf1 Hp ltac:(pose proof (wf_N s1 Hwf1); lia) Heq) as Hprop.
  pose proof (proper_node_inner N i Hi ltac:(lia) Hprop).
  pose proof (proper_node_pos N i (wf_N s1 Hwf1) Hi Hprop).
  split; intros k.
  - intros Hk. rewrite !tr_push_inner by (done || lia).
    rewrite !Hl, !Ht by lia. done.
  - rewrite !lzf_push_inner by (done || lia). rewrite !Hl. done.
Qed.

Lemma agree_propagate_from (shift : nat) pos : forall s1 s2,
  wf s1 -> wf s2 -> tags_proper s1 -> agree s1 s2 -> 0 <= pos < 2 * N ->
  agree (propagate_from shift pos s1) (propagate_from shift pos s2).
Proof.
  induction shift as [|shift IH]; intros s1 s2 Hwf1 Hwf2 Hp Hag Hpos; [done|].
  destruct shift as [|shift']; [done|].
  rewrite !propagate_from_step.
  destruct (shiftr_bound pos (Z.of_nat (S (S shift'))) ltac:(lia) ltac:(lia)) as [Hi0 Hi4].
  apply IH; try done.
  - by apply push_if_wf.
  - by apply push_if_wf.
  - apply push_if_proper; (done || lia).
  - apply agree_push_if; (done || lia).
Qed.

(** With [LOG_] one more than [log2 N] the extra first round of
    [Propagate] finds the identity tag. *)
Lemma propagate_from_extra s pos :
  wf s -> tags_proper s -> 0 <= pos < 2 * N ->
  propagate_from (S (Z.to_nat (Z.log2 N))) pos s
  = propagate_from (Z.to_nat (Z.log2 N)) pos s.
Proof.
  intros Hwf Hp Hpos. pose proof (wf_N s Hwf) as HN.
  destruct (Z.to_nat (Z.log2 N)) as [|k] eqn:EL; [done|].
  rewrite propagate_from_step. f_equal.
  unfold Dense.push_if.
  destruct (U_eqb (lzf s _) (identityUpdate_ s)) eqn:Heq; [done|]. exfalso.
  set (L := Z.log2 N) in *.
  assert (HL : Z.of_nat (S (S k)) = L + 1) by lia.
  rewrite HL in Heq.
  destruct (Z.log2_spec N ltac:(lia)) as [HLlo HLhi]. fold L in HLlo, HLhi.
  assert (0 <= L) by apply Z.log2_nonneg.
  replace (Z.succ L) with (L + 1) in HLhi by lia.
  assert (Hpow : 0 < 2 ^ (L + 1)) by (apply Z.pow_pos_nonneg; lia).
  set (i := Z.shiftr pos (L + 1)) in *.
  assert (Hi : 0 <= i <= 1 /\ (i = 1 -> 2 ^ (L + 1) <= pos)).
  { unfold i. rewrite Z.shiftr_div_pow2 by lia.
    pose proof (Z.mul_div_le pos (2 ^ (L + 1)) Hpow).
    assert (0 <= pos / 2 ^ (L + 1)) by (apply Z.div_pos; lia).
    assert (pos / 2 ^ (L + 1) < 2) by (apply Z.div_lt_upper_bound; lia).
    lia. }
  pose proof (tagged_proper s i Hwf Hp ltac:(lia) Heq) as (j & Hj & Hlo & Hhi).
  destruct (decide (i = 0)) as [E|E]; [rewrite E in Hlo; lia|].
  assert (Ei : i = 1) by lia. rewrite Ei in Hlo, Hhi.
  destruct Hi as [_ Hi]. specialize (Hi Ei).
  assert (2 ^ (L + 1) <= 2 ^ j); [|lia].
  apply Z.pow_le_mono_r; [lia|].
  destruct (decide (L + 1 <= j)); [done|].
  assert (2 ^ j <= 2 ^ L) by (apply Z.pow_le_mono_r; lia).
  rewrite pow2_succ in Hi by lia. lia.
Qed.

Lemma agree_propagated s1 s2 pos :
  wf s1 -> wf s2 -> tags_proper s1 -> agree s1 s2 -> 0 <= pos < 2 * N ->
  LOG_ s1 = Z.log2 N \/ LOG_ s1 = Z.log2 N + 1 ->
  LOG_ s2 = Z.log2 N \/ LOG_ s2 = Z.log2 N + 1 ->
  agree (propagated pos s1) (propagated pos s2).
Proof.
  intros Hwf1 Hwf2 Hp1 Hag Hpos HL1 HL2.
  pose proof (agree_proper s1 s2 Hag Hp1) as Hp2.
  pose proof (wf_N s1 Hwf1) as HN.
  pose proof (Z.log2_nonneg N) as HL.
  assert (E1 : propagate_from (Z.to_nat (LOG_ s1)) pos s1
               = propagate_from (Z.to_nat (Z.log2 N)) pos s1).
  { destruct HL1 as [->| ->]; [done|].
    replace (Z.to_nat (Z.log2 N + 1)) with (S (Z.to_nat (Z.log2 N))) by lia.
    by apply propagate_from_extra. }
  assert (E2 : propagate_from (Z.to_nat (LOG_ s2)) pos s2
               = propagate_from (Z.to_nat (Z.log2 N)) pos s2).
  { destruct HL2 as [->| ->]; [done|].
    replace (Z.to_nat (Z.log2 N + 1)) with (S (Z.to_nat (Z.log2 N))) by lia.
    by apply propagate_from_extra. }
  unfold Dense.propagated. cbv zeta. rewrite E1, E2. clear E1 E2.
  destruct (Propagate_loop_exec (Z.to_nat (Z.log2 N)) pos s1 Hwf1 Hp1 Hpos)
    as (_ & Hwf1' & Hp1').
  destruct (Propagate_loop_exec (Z.to_nat (Z.log2 N)) pos s2 Hwf2 Hp2 Hpos)
    as (_ & Hwf2' & Hp2').
  pose proof (agree_propagate_from (Z.to_nat (Z.log2 N)) pos s1 s2
                Hwf1 Hwf2 Hp1 Hag Hpos) as Hag'.
  set (t1 := propagate_from (Z.to_nat (Z.log2 N)) pos s1) in *.
  set (t2 := propagate_from (Z.to_nat (Z.log2 N)) pos s2) in *.
  destruct Hag' as [Ht Hl].
  rewrite (wf_idUpd t1 Hwf1'), (wf_idUpd t2 Hwf2'), <- Hl.
  destruct (U_eqb (lzf t1 (pos `quot` 2)) iu) eqn:Heq; [done|].
  rewrite <- (wf_idUpd t1 Hwf1') in Heq.
  pose proof (tagged_proper t1 (pos `quot` 2) Hwf1' Hp1' ltac:(lia) Heq) as Hprop.
  pose proof (proper_node_pos N (pos `quot` 2) HN ltac:(lia) Hprop).
  split; intros k.
  - intros Hk. rewrite !tr_push_last by (done || lia).
    rewrite !Hl, !Ht by lia. done.
  - rewrite !lzf_push_last by (done || lia). rewrite !Hl. done.
Qed.

Lemma agree_gather (fuel : nat) s1 s2 : forall (x y : Z) (a b : T),
  agree s1 s2 -> 1 <= x ->
  gather op fuel s1 x y a b = gather op fuel s2 x y a b.
Proof.
  induction fuel as [|fuel IH]; intros x y a b Hag Hx; [done|].
  cbn [gather]. case_decide as Hlt; [|done].
  destruct Hag as [Ht Hl].
  rewrite !Ht by lia.
  repeat case_decide; cbn [fst snd]; apply IH; (done || lia).
Qed.

Lemma agree_touch s1 s2 (b : bool) (u : U) t :
  wf s1 -> wf s2 -> agree s1 s2 -> 0 <= t < 2 * N -> (b = true -> t < N) ->
  agree (touch b u t s1) (touch b u t s2).
Proof.
  intros Hwf1 Hwf2 [Ht Hl] Hr Hb. split; intros k.
  - intros Hk. rewrite !tr_touch by done.
    case_decide; [subst; by rewrite Ht | by apply Ht].
  - destruct b; [|by rewrite !lzf_touch_leaf].
    rewrite !lzf_touch_tag by (done || lia). by rewrite !Hl.
Qed.

Lemma agree_touch_all (b : bool) (u : U) (ts : list Z) : forall s1 s2,
  wf s1 -> wf s2 -> agree s1 s2 ->
  (forall t, t ∈ ts -> 0 <= t < 2 * N /\ (b = true -> t < N)) ->
  agree (touch_all b u ts s1) (touch_all b u ts s2).
Proof.
  induction ts as [|t ts IH]; intros s1 s2 Hwf1 Hwf2 Hag Hts; [done|].
  rewrite !touch_all_cons.
  destruct (Hts t ltac:(left)).
  apply IH; [by apply wf_touch | by apply wf_touch | by apply agree_touch|].
  intros t' Hin. apply Hts. by right.
Qed.

Lemma agree_recalc_from (fuel : nat) : forall pos s1 s2,
  wf s1 -> wf s2 -> agree s1 s2 -> pos < N ->
  agree (recalc_from fuel pos s1) (recalc_from fuel pos s2).
Proof.
  induction fuel as [|fuel IH]; intros pos s1 s2 Hwf1 Hwf2 Hag Hpos.
  - destruct (decide (pos > 0)); [cbn; by rewrite !decide_True|].
    by rewrite !recalc_from_done.
  - destruct (decide (pos > 0)); [|by rewrite !recalc_from_done].
    rewrite !recalc_from_step by done.
    apply IH; [by apply wf_recalc_at | by apply wf_recalc_at | | lia].
    destruct Hag as [Ht Hl]. split; intros k.
    + intros Hk. rewrite !tr_recalc_at by (done || lia).
      rewrite Hl, !Ht by lia. done.
    + by rewrite !lzf_recalc_at.
Qed.

Lemma agree_query s1 s2 (l r : Z) :
  wf s1 -> wf s2 -> tags_proper s1 -> agree s1 s2 ->
  LOG_ s1 = Z.log2 N \/ LOG_ s1 = Z.log2 N + 1 ->
  LOG_ s2 = Z.log2 N \/ LOG_ s2 = Z.log2 N + 1 ->
  0 <= l -> l < N -> l <= r -> r <= N ->
  query_result l r s1 = query_result l r s2 /\
  agree (query_state l r s1) (query_state l r s2).
Proof.
  intros Hwf1 Hwf2 Hp1 Hag HL1 HL2 Hl HlN Hlr Hr.
  pose proof (agree_proper s1 s2 Hag Hp1) as Hp2.
  unfold Dense.query_result, Dense.query_state.
  rewrite (wf_size s1 Hwf1), (wf_size s2 Hwf2), (wf_idOp s1 Hwf1), (wf_idOp s2 Hwf2).
  destruct (Propagate_exec s1 (l + N) Hwf1 Hp1 ltac:(lia)) as (_ & Hwf1' & Hp1').
  destruct (Propagate_exec s2 (l + N) Hwf2 Hp2 ltac:(lia)) as (_ & Hwf2' & Hp2').
  pose proof (agree_propagated s1 s2 (l + N) Hwf1 Hwf2 Hp1 Hag ltac:(lia) HL1 HL2) as Hag'.
  assert (Hag'' : agree (propagated (r + N - 1) (propagated (l + N) s1))
                        (propagated (r + N - 1) (propagated (l + N) s2))).
  { apply agree_propagated; try done; [lia | |]; by rewrite LOG_propagated. }
  split; [|done].
  by rewrite (agree_gather _ _ _ _ _ _ _ Hag'') by lia.
Qed.

Lemma agree_update s1 s2 (l r : Z) (u : U) :
  wf s1 -> wf s2 -> agree s1 s2 ->
  0 <= l -> l < N -> l <= r -> r <= N ->
  agree (update_state l r u s1) (update_state l r u s2).
Proof.
  intros Hwf1 Hwf2 Hag Hl HlN Hlr Hr. pose proof (wf_N s1 Hwf1) as HN.
  unfold Dense.update_state, Dense.recalculated. cbv zeta.
  rewrite (wf_size s1 Hwf1), (wf_size s2 Hwf2).
  pose proof (next_left_bounds (l + N) ltac:(lia)).
  pose proof (next_right_bounds (r + N) ltac:(lia)).
  apply agree_recalc_from;
    [by do 1 apply wf_recalc_from; do 2 apply wf_touch_all
    |by do 1 apply wf_recalc_from; do 2 apply wf_touch_all | | lia].
  apply agree_recalc_from; [by do 2 apply wf_touch_all
                           |by do 2 apply wf_touch_all | | lia].
  apply agree_touch_all; [by apply wf_touch_all | by apply wf_touch_all | |].
  - apply agree_touch_all; [done | done | done |].
    intros t Hin. split; [|done]. unfold round_nodes in Hin.
    apply elem_of_app in Hin as [Hin|Hin]; case_decide;
      try (apply list_elem_of_singleton in Hin);
      try (by apply elem_of_nil in Hin); lia.
  - intros t Hin.
    destruct (touched_level (Z.to_nat (next_right (r + N))) (next_left (l + N))
                (next_right (r + N)) 1 t)
      as [? ?]; [lia | lia | change (2 ^ 1) with 2; lia
                 | change (2 ^ 1) with 2; lia | exact Hin |].
    split; [lia | intros _; lia].
Qed.


(** *** Calls at the right end of the domain leave the vectors *)

Lemma Update_loop_done (fuel : nat) (x y : Z) (u : U) s :
  ~ x < y -> Update_loop updVal updLazy fuel x y u s = Some (tt, s).
Proof. intros. destruct fuel; cbn [Update_loop]; by rewrite decide_False. Qed.

(** [Update(N, N, value)] reads [tree_[2 * N]]. *)
Lemma Update_out_of_range s (u : U) :
  wf s -> Update op updVal updLazy N N u s = None.
Proof.
  intros Hwf. pose proof (wf_N s Hwf) as HN.
  unfold Update. rewrite bind_get_size. cbv zeta. rewrite (wf_size s Hwf).
  rewrite !(decide_False (P := Z.rem (N + N) 2 = 1)) by lia.
  exec N. unfold bind at 1. rewrite Update_loop_done by lia.
  unfold bind at 1. unfold recalculate_after_update at 1.
  replace (Z.quot (N + N) 2) with N by lia.
  destruct (Z.to_nat N) as [|fuel] eqn:E; [lia|].
  cbn [recalculate_loop]. rewrite decide_True by lia.
  unfold bind at 1. by rewrite (rd_tree_none s N) by (eauto with dense; lia).
Qed.

Lemma Propagate_inner_edge s i :
  wf s -> tags_proper s -> 0 <= i -> 4 * i <= 2 * N ->
  match Propagate_inner updVal updLazy U_eqb i s with
  | Some (_, s') => wf s' /\ tags_proper s'
  | None => True
  end.
Proof.
  intros Hwf Hp Hi Hle. pose proof (wf_N s Hwf) as HN.
  destruct (decide (4 * i < 2 * N)) as [Hlt|Hge].
  { rewrite Propagate_inner_exec by done.
    split; [by apply push_if_wf | by apply push_if_proper]. }
  unfold Propagate_inner. exec N.
  destruct (U_eqb (lzf s i) (identityUpdate_ s)) eqn:Heq; [done|].
  exec N. unfold bind at 1.
  by rewrite (rd_lazy_none _ N) by (eauto with dense; lia).
Qed.

Lemma Propagate_loop_edge (shift : nat) pos : forall s,
  wf s -> tags_proper s -> 0 <= pos <= 2 * N ->
  match Propagate_loop updVal updLazy U_eqb shift pos s with
  | Some (_, s') => wf s' /\ tags_proper s'
  | None => True
  end.
Proof.
  induction shift as [|shift IH]; intros s Hwf Hp Hpos; [done|].
  destruct shift as [|shift']; [done|].
  cbn [Propagate_loop].
  destruct (shiftr_bound pos (Z.of_nat (S (S shift'))) ltac:(lia) ltac:(lia)) as [Hi0 Hi4].
  unfold bind at 1.
  pose proof (Propagate_inner_edge s _ Hwf Hp Hi0 ltac:(lia)) as Hin.
  destruct (Propagate_inner _ _ _ _ s) as [[[] s']|]; [|done].
  destruct Hin as [Hwf' Hp']. by apply IH.
Qed.

(** [Query(N, right)] reads [lazy_[N]]. *)
Lemma Query_out_of_range s (r : Z) :
  wf s -> tags_proper s -> Query op updVal updLazy U_eqb N r s = None.
Proof.
  intros Hwf Hp. pose proof (wf_N s Hwf) as HN.
  unfold Query. rewrite bind_get_idOp, bind_get_size. cbv zeta.
  rewrite (wf_size s Hwf). unfold bind at 1.
  assert (E : Propagate updVal updLazy U_eqb (N + N) s = None); [|by rewrite E].
  unfold Propagate. rewrite bind_get_LOG. unfold bind at 1.
  pose proof (Propagate_loop_edge (Z.to_nat (LOG_ s)) (N + N) s Hwf Hp ltac:(lia)) as Hloop.
  destruct (Propagate_loop _ _ _ _ _ s) as [[[] s']|]; [|done].
  destruct Hloop as [Hwf' _].
  unfold Propagate_last. unfold bind at 1.
  by rewrite (rd_lazy_none _ N) by (eauto with dense; lia).
Qed.

(** *** The constructors *)

Lemma default_lookup_replicate {A} (x : A) (n k : nat) :
  default x (replicate n x !! k) = x.
Proof.
  destruct (replicate n x !! k) eqn:E; [|done].
  by apply lookup_replicate in E as [-> _].
Qed.

Lemma from_size_wf : 1 <= N -> wf (from_size N io iu).
Proof.
  intros HN. unfold Dense.wf, sized, from_size. cbn.
  rewrite !length_replicate. repeat split; lia.
Qed.

Lemma from_size_tr i : tr (from_size N io iu) i = io.
Proof.
  unfold tr, from_size, vget. cbn. case_decide; [|done].
  apply default_lookup_replicate.
Qed.

Lemma from_size_lzf i : lzf (from_size N io iu) i = iu.
Proof.
  unfold lzf, from_size, vget. cbn. case_decide; [|done].
  apply default_lookup_replicate.
Qed.

Lemma from_size_LOG : LOG_ (from_size N io iu) = Z.log2 N.
Proof. unfold from_size, clz. cbn. lia. Qed.

(** [identityOp] is a right identity of [op], as the documentation asks. *)
Hypothesis op_identity_r : forall x, op x io = x.

Lemma build_replicate (d : T) (k : nat) : forall m : nat,
  (k < m)%nat ->
  build op k (replicate (S k) d ++ replicate m io) = Some (d :: replicate (k + m) io).
Proof.
  induction k as [|k IH]; intros m Hm; [done|].
  cbn [build].
  assert (Hget : forall j : nat, (S (S k) <= j < S (S k) + m)%nat ->
            vget (replicate (S (S k)) d ++ replicate m io) (Z.of_nat j) = Some io).
  { intros j Hj. unfold vget. rewrite decide_True by lia. rewrite Nat2Z.id.
    rewrite lookup_app_r by (rewrite length_replicate; lia).
    rewrite length_replicate. apply lookup_replicate_2. lia. }
  replace (2 * Z.of_nat (S k)) with (Z.of_nat (2 * S k)) by lia.
  rewrite Hget by lia.
  replace (Z.of_nat (2 * S k) + 1) with (Z.of_nat (2 * S k + 1)) by lia.
  rewrite Hget by lia.
  cbn [mbind option_bind]. rewrite op_identity_r.
  unfold vset. rewrite decide_True
    by (rewrite length_app, !length_replicate; lia).
  cbn [mbind option_bind]. rewrite Nat2Z.id.
  replace (<[S k:=io]> (replicate (S (S k)) d ++ replicate m io))
    with (replicate (S k) d ++ replicate (S m) io).
  { rewrite IH by lia. by replace (k + S m)%nat with (S k + m)%nat by lia. }
  rewrite (replicate_S_end (S k)), <- app_assoc.
  rewrite insert_app_r_alt by (rewrite length_replicate; lia).
  rewrite length_replicate, Nat.sub_diag. done.
Qed.

Lemma from_range_replicate (d : T) :
  1 <= N ->
  exists s,
    from_range op d (replicate (Z.to_nat N) io) io iu = Some s /\
    wf s /\ LOG_ s = Z.log2 N + 1 /\
    (forall i, 1 <= i -> tr s i = io) /\ (forall i, lzf s i = iu).
Proof.
  intros HN. unfold from_range. rewrite length_replicate. cbv zeta.
  rewrite Z2Nat.id by lia.
  destruct (Z.to_nat N) as [|k] eqn:Ek; [lia|].
  replace (Z.to_nat (N - 1)) with k by lia.
  rewrite build_replicate by lia. cbn [mbind option_bind].
  eexists. split; [reflexivity|].
  split; [|split; [unfold clz; cbn; lia|split]].
  - unfold Dense.wf, sized. cbn. rewrite !length_replicate. repeat split; lia.
  - intros i Hi. unfold tr, vget. cbn [tree_ identityOp_].
    rewrite decide_True by lia.
    destruct (Z.to_nat i) as [|j] eqn:Ej; [lia|]. cbn [lookup list_lookup].
    apply default_lookup_replicate.
  - intros i. unfold lzf, vget. cbn [lazy_ identityUpdate_].
    case_decide; [|done]. apply default_lookup_replicate.
Qed.

(** *** Sequences of calls on the two objects *)

Lemma run_agree (cs : list (call (U:=U))) : forall s1 s2,
  Forall (in_bounds N) cs ->
  wf s1 -> wf s2 -> tags_proper s1 -> agree s1 s2 ->
  LOG_ s1 = Z.log2 N \/ LOG_ s1 = Z.log2 N + 1 ->
  LOG_ s2 = Z.log2 N \/ LOG_ s2 = Z.log2 N + 1 ->
  fst <$> run op updVal updLazy U_eqb cs s1
  = fst <$> run op updVal updLazy U_eqb cs s2.
Proof.
  induction cs as [|c cs IH]; intros s1 s2 Hcs Hwf1 Hwf2 Hp1 Hag HL1 HL2; [done|].
  inversion Hcs as [|c' cs' Hc Hcs']; subst c' cs'; clear Hcs; rename Hcs' into Hcs.
  pose proof (agree_proper s1 s2 Hag Hp1) as Hp2.
  destruct c as [l r u|l r]; cbn [run]; destruct Hc as (Hl & Hlr & Hr).
  - destruct (decide (l = N)) as [->|Hne].
    { assert (r = N) as -> by lia. by rewrite !Update_out_of_range. }
    rewrite !Update_exec by (done || lia).
    apply IH; try done.
    + by apply wf_update_state.
    + by apply wf_update_state.
    + apply update_state_proper; (done || lia).
    + apply agree_update; (done || lia).
    + by rewrite LOG_update_state.
    + by rewrite LOG_update_state.
  - destruct (decide (l = N)) as [->|Hne].
    { by rewrite !Query_out_of_range. }
    destruct (Query_exec s1 l r Hwf1 Hp1 Hl ltac:(lia) Hlr Hr) as (E1 & Hwf1' & Hp1').
    destruct (Query_exec s2 l r Hwf2 Hp2 Hl ltac:(lia) Hlr Hr) as (E2 & Hwf2' & Hp2').
    destruct (agree_query s1 s2 l r Hwf1 Hwf2 Hp1 Hag HL1 HL2 Hl ltac:(lia) Hlr Hr)
      as [Eres Hag'].
    rewrite E1, E2, Eres.
    specialize (IH (query_state l r s1) (query_state l r s2) Hcs Hwf1' Hwf2' Hp1' Hag').
    rewrite !LOG_query_state in IH. specialize (IH HL1 HL2).
    destruct (run _ _ _ _ cs (query_state l r s1)) as [[xs1 t1]|];
      destruct (run _ _ _ _ cs (query_state l r s2)) as [[xs2 t2]|];
      cbn in IH |- *; congruence.
Qed.

(** Calls within bounds whose left end is below [N] stay inside the
    vectors, also on an empty range. *)
Lemma run_inside (cs : list (call (U:=U))) : forall s,
  Forall (fun c => in_bounds N c /\ left_end c < N) cs -> wf s -> tags_proper s ->
  is_Some (run op updVal updLazy U_eqb cs s).
Proof.
  induction cs as [|c cs IH]; intros s Hcs Hwf Hp; [by eexists|].
  inversion Hcs as [|c' cs' [Hc HcN] Hcs']; subst c' cs'; clear Hcs; rename Hcs' into Hcs.
  destruct c as [l r u|l r]; cbn [run]; cbn [left_end] in HcN;
    destruct Hc as (Hl & Hlr & Hr).
  - rewrite Update_exec by (done || lia).
    apply IH; [done | by apply wf_update_state|].
    apply update_state_proper; (done || lia).
  - destruct (Query_exec s l r Hwf Hp Hl HcN Hlr Hr) as (E & Hwf' & Hp').
    rewrite E. destruct (IH _ Hcs Hwf' Hp') as [[xs t] ->]. by eexists.
Qed.

(** C10, amended: the tree constructed with a size and the tree
    constructed from that many copies of [identityOp] both return on every
    sequence of calls with [0 <= left < N] and [left <= right <= N], and
    their queries return the same results.  The two objects differ in
    [LOG_] (one more for the range constructor, whose extra round of
    [Propagate] meets an identity tag) and in [tree_[0]], which no call
    reads into a result. *)
Theorem C10_constructors_agree (T_default : T) (cs : list (call (U:=U))) :
  1 <= N -> Forall (fun c => in_bounds N c /\ left_end c < N) cs ->
  exists s res,
    from_range op T_default (replicate (Z.to_nat N) io) io iu = Some s /\
    results op updVal updLazy U_eqb cs (Some (from_size N io iu)) = Some res /\
    results op updVal updLazy U_eqb cs (Some s) = Some res.
Proof.
  intros HN Hcs.
  destruct (from_range_replicate T_default HN) as (s & Es & Hwf & HL & Ht & Hl).
  assert (Hp1 : tags_proper (from_size N io iu)).
  { intros t _ Hne. by rewrite from_size_lzf in Hne. }
  assert (Hp2 : tags_proper s).
  { intros t _ Hne. by rewrite Hl in Hne. }
  assert (Hin : Forall (in_bounds N) cs).
  { eapply List.Forall_impl; [|exact Hcs]. by intros c [Hc _]. }
  assert (Heq : results op updVal updLazy U_eqb cs (Some (from_size N io iu))
                = results op updVal updLazy U_eqb cs (Some s)).
  { unfold results. apply run_agree; try done.
    + by apply from_size_wf.
    + split; intros i; [intros Hi; by rewrite from_size_tr, Ht
                       | by rewrite from_size_lzf, Hl].
    + left. apply from_size_LOG.
    + by right. }
  destruct (run_inside cs s Hcs Hwf Hp2) as [[xs t] E].
  exists s, xs. split; [exact Es|].
  rewrite Heq. unfold results. rewrite E. done.
Qed.


(** *** What the nodes stand for is kept by [Propagate]

    From here on the algebra is taken to satisfy, next to the laws of the
    design document, the laws the code relies on without saying so: the
    identity update changes nothing, an update distributes over the
    combination, and updates commute. *)

Hypothesis upd_id : forall x, updVal x iu = x.
Hypothesis compat : forall x a b, updVal x (updLazy a b) = updVal (updVal x a) b.
Hypothesis distr : forall x y u, updVal (op x y) u = op (updVal x u) (updVal y u).
Hypothesis comm : forall x a b, updVal (updVal x a) b = updVal (updVal x b) a.
Hypothesis U_eqb_sound : forall a, U_eqb a iu = true -> a = iu.

(** Commutation is assumed only where a proof says so. *)
Set Default Proof Using "-(comm)".

Local Abbreviation pend := (pend updVal).
Local Abbreviation node_value := (node_value updVal).
Local Abbreviation consistent := (consistent op updVal N).

Lemma pend_unfold s q x :
  2 <= q -> pend s q x = pend s (q / 2) (updVal x (lzf s (q / 2))).
Proof.
  intros Hq. unfold Dense.pend. by rewrite (chain_unfold (q / 2)) by lia.
Qed.

Lemma pend_root s q x : q < 2 -> pend s q x = x.
Proof. intros Hq. unfold Dense.pend. by rewrite chain_nil by lia. Qed.

Lemma pend_ext s s' q x :
  (forall p, p ∈ chain (q / 2) -> lzf s p = lzf s' p) ->
  pend s q x = pend s' q x.
Proof.
  unfold Dense.pend. generalize (chain (q / 2)). intros l. revert x.
  induction l as [|p l IH]; intros x Hl; [done|].
  cbn. rewrite (Hl p) by left. apply IH. intros p' Hp'. apply Hl. by right.
Qed.

Lemma pend_op s q x y : pend s q (op x y) = op (pend s q x) (pend s q y).
Proof.
  unfold Dense.pend. generalize (chain (q / 2)). intros l. revert x y.
  induction l as [|p l IH]; intros x y; [done|].
  cbn. rewrite distr. apply IH.
Qed.

Lemma pend_updVal s q x u : pend s q (updVal x u) = updVal (pend s q x) u.
Proof using All.
  unfold Dense.pend. generalize (chain (q / 2)). intros l. revert x.
  induction l as [|p l IH]; intros x; [done|].
  cbn. rewrite comm. apply IH.
Qed.

Lemma pend_clear s q x :
  (forall p, p ∈ chain (q / 2) -> lzf s p = iu) -> pend s q x = x.
Proof.
  unfold Dense.pend. generalize (chain (q / 2)). intros l. revert x.
  induction l as [|p l IH]; intros x Hl; [done|].
  cbn. rewrite (Hl p), upd_id by left. apply IH. intros p' Hp'. apply Hl. by right.
Qed.

(** Tags above a node that is not below [i] are not changed by a push at
    [i]. *)
Lemma pend_push_inner_out s i q x :
  wf s -> 1 <= i -> 2 * i + 1 < N -> i ∉ chain (q / 2) ->
  pend (push_inner i s) q x = pend s q x.
Proof.
  intros Hwf Hi Hc Hout. apply pend_ext. intros p Hp.
  rewrite lzf_push_inner by done.
  repeat case_decide; try subst p; try done.
  - apply chain_parent in Hp; [|lia].
    replace ((2 * i + 1) / 2) with i in Hp by lia. done.
  - apply chain_parent in Hp; [|lia].
    replace (2 * i / 2) with i in Hp by lia. done.
Qed.

Lemma pend_push_inner_child s i c x :
  wf s -> 1 <= i -> 2 * i + 1 < N -> c = 2 * i \/ c = 2 * i + 1 ->
  pend (push_inner i s) c x = pend s i x.
Proof.
  intros Hwf Hi Hc Hci. rewrite pend_unfold by lia.
  replace (c / 2) with i by lia.
  rewrite lzf_push_inner, decide_True by done. rewrite upd_id.
  apply pend_push_inner_out; try done.
  intros Hin%chain_bound. lia.
Qed.

Lemma pend_push_inner_below s i : forall q x,
  wf s -> 1 <= i -> 2 * i + 1 < N ->
  2 * i ∈ chain (q / 2) \/ 2 * i + 1 ∈ chain (q / 2) ->
  pend (push_inner i s) q x = pend s q x.
Proof.
  intros q x Hwf Hi Hc. revert x.
  induction q as [q Hq|q Hq IH] using chain_ind; intros x Hin.
  - rewrite chain_nil in Hin by lia. destruct Hin as [H|H]; by apply elem_of_nil in H.
  - assert (exists c, (c = 2 * i \/ c = 2 * i + 1) /\ c ∈ chain (q / 2))
      as (c & Hci & Hcin) by (destruct Hin; eauto).
    pose proof (chain_bound _ _ Hcin).
    rewrite (pend_unfold _ q) by lia. rewrite (pend_unfold s q) by lia.
    destruct (chain_child (q / 2) c ltac:(lia) Hcin) as [E|[Hq2 Hcin']].
    + rewrite E. rewrite pend_push_inner_child by done.
      rewrite (pend_unfold s c) by lia. replace (c / 2) with i by lia.
      rewrite lzf_push_inner by done.
      destruct Hci as [-> | ->]; repeat case_decide; try lia; by rewrite compat.
    + pose proof (chain_bound _ _ Hcin').
      rewrite lzf_push_inner by done.
      repeat case_decide; try lia.
      apply IH. destruct Hci as [-> | ->]; [by left | by right].
Qed.

Lemma node_value_push_inner s i q :
  wf s -> 1 <= i -> 2 * i + 1 < N ->
  node_value (push_inner i s) q = node_value s q.
Proof.
  intros Hwf Hi Hc. unfold Dense.node_value.
  destruct (decide (i ∈ chain (q / 2))) as [Hin|Hout].
  - pose proof (chain_bound _ _ Hin).
    destruct (chain_child _ _ Hi Hin) as [E|[Hq2 Hin']].
    + rewrite pend_push_inner_child by (done || lia).
      rewrite (pend_unfold s q) by lia. rewrite E.
      rewrite tr_push_inner by done.
      repeat case_decide; try lia; by subst q.
    + pose proof (chain_bound _ _ Hin').
      rewrite tr_push_inner by done.
      repeat case_decide; try lia.
      apply pend_push_inner_below; try done.
      by apply chain_down.
  - rewrite tr_push_inner by done.
    destruct (decide (q / 2 = i)) as [E|E].
    { exfalso. apply Hout. rewrite E. by apply chain_self. }
    repeat case_decide; try lia.
    by apply pend_push_inner_out.
Qed.

Lemma node_value_push_last s p q :
  wf s -> 1 <= p < N -> N <= 2 * p -> 1 <= q < 2 * N ->
  node_value (push_last p s) q = node_value s q.
Proof.
  intros Hwf Hp Hleaf Hq. unfold Dense.node_value.
  assert (Hout : forall z x, p ∉ chain (z / 2) ->
            pend (push_last p s) z x = pend s z x).
  { intros z x Hz. apply pend_ext. intros t Ht.
    rewrite lzf_push_last by (done || lia). case_decide; [by subst t | done]. }
  destruct (decide (p ∈ chain (q / 2))) as [Hin|Hno].
  - pose proof (chain_bound _ _ Hin).
    destruct (chain_child (q / 2) p ltac:(lia) Hin) as [E|[Hq2 Hin']].
    + rewrite (pend_unfold _ q) by lia. rewrite (pend_unfold s q) by lia.
      rewrite E. rewrite lzf_push_last, decide_True by (done || lia).
      rewrite upd_id, tr_push_last by (done || lia).
      rewrite Hout by (intros Hin'%chain_bound; lia).
      repeat case_decide; try lia; by subst q.
    + pose proof (chain_bound _ _ Hin'). lia.
  - rewrite tr_push_last by (done || lia).
    destruct (decide (q / 2 = p)) as [E|E].
    { exfalso. apply Hno. rewrite E. apply chain_self. lia. }
    repeat case_decide; try lia.
    by apply Hout.
Qed.

Lemma node_value_push_if s i q :
  wf s -> tags_proper s -> 0 <= i -> 4 * i < 2 * N ->
  node_value (push_if i s) q = node_value s q.
Proof.
  intros Hwf Hp Hi Hlt. unfold Dense.push_if.
  destruct (U_eqb (lzf s i) (identityUpdate_ s)) eqn:Heq; [done|].
  pose proof (tagged_proper s i Hwf Hp ltac:(lia) Heq) as Hprop.
  pose proof (proper_node_inner N i Hi ltac:(lia) Hprop).
  pose proof (proper_node_pos N i (wf_N s Hwf) Hi Hprop).
  apply node_value_push_inner; (done || lia).
Qed.

Lemma node_value_propagate_from (shift : nat) pos q : forall s,
  wf s -> tags_proper s -> 0 <= pos < 2 * N ->
  node_value (propagate_from shift pos s) q = node_value s q.
Proof.
  induction shift as [|shift IH]; intros s Hwf Hp Hpos; [done|].
  destruct shift as [|shift']; [done|].
  rewrite propagate_from_step.
  destruct (shiftr_bound pos (Z.of_nat (S (S shift'))) ltac:(lia) ltac:(lia)) as [Hi0 Hi4].
  rewrite IH; [|by apply push_if_wf | apply push_if_proper; (done || lia) | done].
  apply node_value_push_if; (done || lia).
Qed.

Lemma node_value_propagated s pos q :
  wf s -> tags_proper s -> N <= pos < 2 * N -> 1 <= q < 2 * N ->
  node_value (propagated pos s) q = node_value s q.
Proof.
  intros Hwf Hp Hpos Hq. pose proof (wf_N s Hwf) as HN.
  destruct (Propagate_loop_exec (Z.to_nat (LOG_ s)) pos s Hwf Hp ltac:(lia))
    as (_ & Hwf1 & Hp1).
  unfold Dense.propagated. cbv zeta.
  destruct (U_eqb (lzf _ _) _) eqn:Heq.
  - apply node_value_propagate_from; (done || lia).
  - pose proof (tagged_proper _ (Z.quot pos 2) Hwf1 Hp1 ltac:(lia) Heq) as Hprop.
    pose proof (proper_node_last N (Z.quot pos 2) ltac:(lia) ltac:(lia) Hprop).
    rewrite node_value_push_last by (done || lia).
    apply node_value_propagate_from; (done || lia).
Qed.

(** *** [Propagate] clears the path to a leaf *)

Local Abbreviation cleared := (cleared iu).

Lemma cleared_low s x : x < 1 -> cleared s x.
Proof. intros Hx p Hp. rewrite chain_nil in Hp by done. by apply elem_of_nil in Hp. Qed.

Lemma cleared_up s x : cleared s x -> cleared s (x / 2).
Proof.
  intros Hc. destruct (decide (1 <= x)); [|apply cleared_low; lia].
  intros p Hp. apply Hc. by apply chain_up.
Qed.

Lemma cleared_cons s x :
  1 <= x -> lzf s x = iu -> cleared s (x / 2) -> cleared s x.
Proof.
  intros Hx Hl Hc p Hp. rewrite chain_unfold in Hp by done.
  apply elem_of_cons in Hp as [->|Hp]; [done | by apply Hc].
Qed.

Lemma shiftr_succ (pos k : Z) :
  0 <= k -> Z.shiftr pos (k + 1) = Z.shiftr pos k / 2.
Proof.
  intros Hk. rewrite <- Z.shiftr_shiftr by lia.
  by rewrite (Z.shiftr_div_pow2 _ 1) by lia.
Qed.

Lemma push_if_cleared s i x :
  wf s -> tags_proper s -> 0 <= i -> 4 * i < 2 * N ->
  cleared s x -> cleared (push_if i s) x.
Proof.
  intros Hwf Hp Hi Hlt Hc. unfold Dense.push_if.
  destruct (U_eqb (lzf s i) (identityUpdate_ s)) eqn:Heq; [done|].
  pose proof (tagged_proper s i Hwf Hp ltac:(lia) Heq) as Hprop.
  pose proof (proper_node_inner N i Hi ltac:(lia) Hprop).
  pose proof (proper_node_pos N i (wf_N s Hwf) Hi Hprop).
  assert (Hno : i ∉ chain x).
  { intros Hin. rewrite (Hc i Hin), (wf_idUpd s Hwf), U_eqb_refl in Heq. done. }
  intros p Hin. rewrite lzf_push_inner by (done || lia).
  repeat case_decide; try subst p; try done.
  - exfalso. apply Hno. apply chain_parent in Hin; [|lia].
    by replace ((2 * i + 1) / 2) with i in Hin by lia.
  - exfalso. apply Hno. apply chain_parent in Hin; [|lia].
    by replace (2 * i / 2) with i in Hin by lia.
  - by apply Hc.
Qed.

Lemma push_if_clears s i :
  wf s -> tags_proper s -> 0 <= i -> 4 * i < 2 * N ->
  cleared s (i / 2) -> cleared (push_if i s) i.
Proof.
  intros Hwf Hp Hi Hlt Hc.
  destruct (decide (1 <= i)); [|apply cleared_low; lia].
  apply cleared_cons; [done| |by apply push_if_cleared].
  unfold Dense.push_if.
  destruct (U_eqb (lzf s i) (identityUpdate_ s)) eqn:Heq.
  - apply U_eqb_sound. by rewrite (wf_idUpd s Hwf) in Heq.
  - pose proof (tagged_proper s i Hwf Hp ltac:(lia) Heq) as Hprop.
    pose proof (proper_node_inner N i Hi ltac:(lia) Hprop).
    rewrite lzf_push_inner by (done || lia). by rewrite decide_True.
Qed.

Lemma propagate_from_cleared (shift : nat) pos x : forall s,
  wf s -> tags_proper s -> 0 <= pos < 2 * N ->
  cleared s x -> cleared (propagate_from shift pos s) x.
Proof.
  induction shift as [|shift IH]; intros s Hwf Hp Hpos Hc; [done|].
  destruct shift as [|shift']; [done|].
  rewrite propagate_from_step.
  destruct (shiftr_bound pos (Z.of_nat (S (S shift'))) ltac:(lia) ltac:(lia)) as [Hi0 Hi4].
  apply IH; [by apply push_if_wf | apply push_if_proper; (done || lia) | done|].
  apply push_if_cleared; (done || lia).
Qed.

Lemma propagate_from_clears (shift : nat) pos : forall s,
  wf s -> tags_proper s -> 0 <= pos < 2 * N ->
  cleared s (Z.shiftr pos (Z.of_nat (S shift))) ->
  cleared (propagate_from shift pos s) (Z.shiftr pos 2).
Proof.
  induction shift as [|shift IH]; intros s Hwf Hp Hpos Hc.
  { change 2 with (1 + 1). rewrite shiftr_succ by lia. by apply cleared_up. }
  destruct shift as [|shift']; [done|].
  rewrite propagate_from_step.
  destruct (shiftr_bound pos (Z.of_nat (S (S shift'))) ltac:(lia) ltac:(lia)) as [Hi0 Hi4].
  apply IH; [by apply push_if_wf | apply push_if_proper; (done || lia) | done|].
  apply push_if_clears; try (done || lia).
  rewrite <- shiftr_succ by lia.
  by replace (Z.of_nat (S (S shift')) + 1) with (Z.of_nat (S (S (S shift')))) by lia.
Qed.

(** Above the first node [Propagate] looks at no node is proper, so none
    holds a tag. *)
Lemma above_first_cleared s pos k :
  wf s -> tags_proper s -> N <= pos < 2 * N -> Z.log2 N < k ->
  cleared s (Z.shiftr pos k).
Proof.
  intros Hwf Hp Hpos Hk p Hin. pose proof (wf_N s Hwf) as HN.
  apply chain_bound in Hin.
  set (L := Z.log2 N) in *.
  assert (HL0 : 0 <= L) by apply Z.log2_nonneg.
  rewrite Z.shiftr_div_pow2 in Hin by lia.
  destruct (Z.log2_spec N ltac:(lia)) as [HLlo HLhi]. fold L in HLlo, HLhi.
  assert (Hpk : 0 < 2 ^ k) by (apply Z.pow_pos_nonneg; lia).
  assert (Hmul : p * 2 ^ k <= pos).
  { pose proof (Z.mul_div_le pos (2 ^ k) Hpk). nia. }
  assert (HpN : p < N).
  { assert (2 ^ (L + 1) <= 2 ^ k) by (apply Z.pow_le_mono_r; lia).
    rewrite pow2_succ in * by lia. nia. }
  destruct (U_eqb (lzf s p) (identityUpdate_ s)) eqn:Heq.
  { apply U_eqb_sound. by rewrite (wf_idUpd s Hwf) in Heq. }
  exfalso.
  destruct (tagged_proper s p Hwf Hp ltac:(lia) Heq) as (j & Hj & Hlo & Hhi).
  assert (Hpj : 0 < 2 ^ j) by (apply Z.pow_pos_nonneg; lia).
  assert (Hjk : j < k).
  { destruct (decide (j < k)); [done|]. exfalso.
    assert (2 ^ k <= 2 ^ j) by (apply Z.pow_le_mono_r; lia).
    assert (2 ^ (L + 1) <= 2 ^ k) by (apply Z.pow_le_mono_r; lia).
    replace (Z.succ L) with (L + 1) in HLhi by lia. nia. }
  assert (E : 2 ^ k = 2 ^ j * 2 ^ (k - j)).
  { rewrite <- Z.pow_add_r by lia. f_equal. lia. }
  assert (2 <= 2 ^ (k - j)).
  { change 2 with (2 ^ 1) at 1. apply Z.pow_le_mono_r; lia. }
  rewrite E in Hmul. nia.
Qed.

Lemma propagated_cleared s pos x :
  wf s -> tags_proper s -> N <= pos < 2 * N ->
  cleared s x -> cleared (propagated pos s) x.
Proof.
  intros Hwf Hp Hpos Hc. pose proof (wf_N s Hwf) as HN.
  destruct (Propagate_loop_exec (Z.to_nat (LOG_ s)) pos s Hwf Hp ltac:(lia))
    as (_ & Hwf1 & Hp1).
  pose proof (propagate_from_cleared (Z.to_nat (LOG_ s)) pos x s Hwf Hp
                ltac:(lia) Hc) as Hc1.
  unfold Dense.propagated. cbv zeta.
  destruct (U_eqb (lzf _ _) _) eqn:Heq; [done|].
  intros p Hin. rewrite lzf_push_last by (done || lia).
  case_decide; [done | by apply Hc1].
Qed.

Lemma propagated_clears s pos :
  wf s -> tags_proper s -> N <= pos < 2 * N ->
  LOG_ s = Z.log2 N \/ LOG_ s = Z.log2 N + 1 ->
  cleared (propagated pos s) (pos / 2).
Proof.
  intros Hwf Hp Hpos HL. pose proof (wf_N s Hwf) as HN.
  destruct (decide (1 <= pos / 2)) as [Hge|Hlt]; [|apply cleared_low; lia].
  assert (HL0 : 0 <= Z.log2 N) by apply Z.log2_nonneg.
  destruct (Propagate_loop_exec (Z.to_nat (LOG_ s)) pos s Hwf Hp ltac:(lia))
    as (_ & Hwf1 & Hp1).
  assert (Hc1 : cleared (propagate_from (Z.to_nat (LOG_ s)) pos s) (Z.shiftr pos 2)).
  { apply propagate_from_clears; [done | done | lia |].
    apply above_first_cleared; (done || lia). }
  replace (Z.shiftr pos 2) with (pos / 2 / 2) in Hc1
    by (rewrite Z.shiftr_div_pow2 by lia; change (2 ^ 2) with 4; lia).
  unfold Dense.propagated. cbv zeta.
  replace (Z.quot pos 2) with (pos / 2) by lia.
  destruct (U_eqb (lzf _ _) _) eqn:Heq.
  - apply cleared_cons; [lia | | done].
    apply U_eqb_sound. by rewrite (wf_idUpd _ Hwf1) in Heq.
  - apply cleared_cons; [lia | |].
    + rewrite lzf_push_last by (done || lia). by rewrite decide_True.
    + intros p Hin. rewrite lzf_push_last by (done || lia).
      case_decide; [done | by apply Hc1].
Qed.

(** *** What the nodes stand for after [Update] *)

Local Abbreviation apply_times := (apply_times updVal).

Lemma apply_times_add (n m : nat) (u : U) (x : T) :
  apply_times n u (apply_times m u x) = apply_times (m + n) u x.
Proof.
  unfold Dense.apply_times. by rewrite (Nat.add_comm m n), Nat.iter_add.
Qed.

Lemma apply_times_op (n : nat) (u : U) (x y : T) :
  apply_times n u (op x y) = op (apply_times n u x) (apply_times n u y).
Proof.
  unfold Dense.apply_times. induction n as [|n IH]; [done|].
  rewrite !Nat.iter_succ. by rewrite IH, distr.
Qed.

Lemma pend_touch_out s (b : bool) (u : U) t q x :
  wf s -> 0 <= t -> (b = true -> t < N) -> t ∉ chain (q / 2) ->
  pend (touch b u t s) q x = pend s q x.
Proof.
  intros Hwf Ht Hb Hout. apply pend_ext. intros p Hp.
  destruct b; [|done].
  rewrite lzf_touch_tag by (done || lia). case_decide; [by subst p | done].
Qed.

Lemma pend_touch_below s (u : U) t : forall q x,
  wf s -> 1 <= t < N -> t ∈ chain (q / 2) ->
  pend (touch true u t s) q x = updVal (pend s q x) u.
Proof using All.
  intros q x Hwf Ht. revert x.
  induction q as [q Hq|q Hq IH] using chain_ind; intros x Hin.
  - rewrite chain_nil in Hin by lia. by apply elem_of_nil in Hin.
  - pose proof (chain_bound _ _ Hin).
    rewrite (pend_unfold _ q) by lia. rewrite (pend_unfold s q) by lia.
    rewrite lzf_touch_tag by (done || lia).
    destruct (chain_child (q / 2) t ltac:(lia) Hin) as [E|[Hq2 Hin']].
    + rewrite E, decide_True by done.
      rewrite pend_touch_out by (try done; try lia; intros H'%chain_bound; lia).
      by rewrite compat, pend_updVal.
    + pose proof (chain_bound _ _ Hin').
      rewrite decide_False by lia. by apply IH.
Qed.

(** Applying an update at [t] applies it to what each node at or below
    [t] stands for, and to nothing else. *)
Lemma node_value_touch s (b : bool) (u : U) t q :
  wf s -> 1 <= t < 2 * N -> (b = true -> t < N) -> (b = false -> N <= t) ->
  1 <= q < 2 * N ->
  node_value (touch b u t s) q
  = if decide (t ∈ chain q) then updVal (node_value s q) u else node_value s q.
Proof using All.
  intros Hwf Ht Hbt Hbf Hq. unfold Dense.node_value.
  rewrite tr_touch by (done || lia).
  destruct (decide (q = t)) as [->|Hne].
  - rewrite decide_True by (apply chain_self; lia).
    rewrite pend_touch_out by (try done; try lia; intros H'%chain_bound; lia).
    apply pend_updVal.
  - case_decide as Hin.
    + destruct (chain_child q t ltac:(lia) Hin) as [E|[Hq2 Hin']]; [done|].
      pose proof (chain_bound _ _ Hin').
      destruct b; [|specialize (Hbf eq_refl); lia].
      apply pend_touch_below; [done | | done]. specialize (Hbt eq_refl). lia.
    + apply pend_touch_out; try done; [lia|].
      intros Hin'. apply Hin. apply chain_up; [lia | done].
Qed.

Lemma node_value_touch_all (b : bool) (u : U) (ts : list Z) q : forall s,
  wf s ->
  (forall t, t ∈ ts ->
     1 <= t < 2 * N /\ (b = true -> t < N) /\ (b = false -> N <= t)) ->
  1 <= q < 2 * N ->
  node_value (touch_all b u ts s) q = apply_times (hits ts q) u (node_value s q).
Proof using All.
  induction ts as [|t ts IH]; intros s Hwf Hts Hq; [done|].
  destruct (Hts t ltac:(left)) as (Ht & Hbt & Hbf).
  rewrite touch_all_cons, IH;
    [|by apply wf_touch | intros t' Hin; apply Hts; by right | done].
  rewrite node_value_touch, hits_cons by done.
  case_decide; [|done].
  unfold Dense.apply_times. cbn [Nat.add]. by rewrite Nat.iter_succ_r.
Qed.

Lemma node_value_recalc_at_other s p q :
  wf s -> 0 <= p < 2 * N -> q <> p ->
  node_value (recalc_at p s) q = node_value s q.
Proof.
  intros Hwf Hp Hne. unfold Dense.node_value.
  rewrite tr_recalc_at, decide_False by done.
  by apply pend_ext.
Qed.

(** One round of [recalculate_after_update] makes the node stand for the
    combination of what its children stand for. *)
Lemma node_value_recalc_at s p :
  wf s -> 1 <= p < N ->
  node_value (recalc_at p s) p
  = op (node_value s (2 * p)) (node_value s (2 * p + 1)).
Proof.
  intros Hwf Hp. unfold Dense.node_value.
  rewrite tr_recalc_at, decide_True by (done || lia).
  rewrite (pend_ext (recalc_at p s) s) by done.
  rewrite (pend_unfold s (2 * p)), (pend_unfold s (2 * p + 1)) by lia.
  replace (2 * p / 2) with p by lia. replace ((2 * p + 1) / 2) with p by lia.
  by rewrite distr, pend_op.
Qed.

Lemma recalc_from_spec (fuel : nat) : forall p0 s,
  wf s -> 0 <= p0 < N -> (Z.to_nat p0 <= fuel)%nat ->
  (forall q, q ∉ chain p0 ->
     node_value (recalc_from fuel p0 s) q = node_value s q) /\
  (forall p, p ∈ chain p0 ->
     node_value (recalc_from fuel p0 s) p
     = op (node_value (recalc_from fuel p0 s) (2 * p))
          (node_value (recalc_from fuel p0 s) (2 * p + 1))).
Proof.
  induction fuel as [|fuel IH]; intros p0 s Hwf Hp0 Hfuel.
  { assert (p0 = 0) as -> by lia. rewrite recalc_from_done by lia.
    split; [done|]. intros p Hp. rewrite chain_nil in Hp by lia.
    by apply elem_of_nil in Hp. }
  destruct (decide (p0 > 0)) as [Hpos|Hpos].
  2:{ rewrite recalc_from_done by lia.
      split; [done|]. intros p Hp. rewrite chain_nil in Hp by lia.
      by apply elem_of_nil in Hp. }
  rewrite recalc_from_step by done.
  replace (Z.quot p0 2) with (p0 / 2) by lia.
  destruct (IH (p0 / 2) (recalc_at p0 s) (wf_recalc_at s p0 Hwf)
              ltac:(lia) ltac:(lia)) as [Hout Hin].
  assert (Hother : forall q, q ∉ chain p0 ->
            node_value (recalc_from fuel (p0 / 2) (recalc_at p0 s)) q
            = node_value s q).
  { intros q Hq. rewrite Hout.
    - apply node_value_recalc_at_other; [done | lia |].
      intros ->. apply Hq. apply chain_self. lia.
    - intros Hq'. apply Hq. apply chain_up; [lia | done]. }
  split; [done|].
  intros p Hp. rewrite chain_unfold in Hp by lia.
  apply elem_of_cons in Hp as [->|Hp]; [|by apply Hin].
  rewrite Hout by (intros H'%chain_bound; lia).
  rewrite (Hout (2 * p0)) by (intros H'%chain_bound; lia).
  rewrite (Hout (2 * p0 + 1)) by (intros H'%chain_bound; lia).
  rewrite node_value_recalc_at by (done || lia).
  by rewrite !node_value_recalc_at_other by (done || lia).
Qed.

(** A node off the path walked keeps standing for the combination of
    its children. *)
Lemma consistent_frame s s' b p :
  (forall q, q ∉ chain b -> node_value s' q = node_value s q) ->
  1 <= p -> p ∉ chain b ->
  node_value s p = op (node_value s (2 * p)) (node_value s (2 * p + 1)) ->
  node_value s' p = op (node_value s' (2 * p)) (node_value s' (2 * p + 1)).
Proof.
  intros Hout Hp Hno Hc.
  rewrite !Hout; [done| | |done].
  - intros Hin%chain_parent; [|lia].
    by replace ((2 * p + 1) / 2) with p in Hin by lia.
  - intros Hin%chain_parent; [|lia].
    by replace (2 * p / 2) with p in Hin by lia.
Qed.

(** [Update] on a range that is not empty applies the update to what the
    leaves of the range stand for, to no other leaf, and leaves every node
    below the leaves standing for the combination of its children. *)
Lemma update_state_spec s (l r : Z) (u : U) :
  wf s -> consistent s -> 0 <= l -> l < r -> r <= N ->
  consistent (update_state l r u s) /\
  forall k, 0 <= k < N ->
    node_value (update_state l r u s) (N + k)
    = if decide (l <= k < r) then updVal (node_value s (N + k)) u
      else node_value s (N + k).
Proof using All.
  intros Hwf Hcons Hl Hlr Hr. pose proof (wf_N s Hwf) as HN.
  unfold Dense.update_state, Dense.recalculated. cbv zeta.
  rewrite (wf_size s Hwf).
  set (x0 := l + N). set (y0 := r + N).
  set (D0 := round_nodes x0 y0).
  set (D1 := touched (Z.to_nat (next_right y0)) (next_left x0) (next_right y0)).
  set (s1 := touch_all false u D0 s).
  set (s2 := touch_all true u D1 s1).
  replace (Z.quot x0 2) with (x0 / 2) by lia.
  replace (Z.quot (y0 - 1) 2) with ((y0 - 1) / 2) by lia.
  set (s3 := recalc_from (Z.to_nat (x0 / 2)) (x0 / 2) s2).
  pose proof (next_left_bounds x0 ltac:(lia)) as Hnl.
  pose proof (next_right_bounds y0 ltac:(lia)) as Hnr.
  assert (HD0 : forall t, t ∈ D0 -> N <= t < 2 * N).
  { intros t Hin. pose proof (round_nodes_bounds x0 y0 t ltac:(lia) ltac:(lia) Hin). lia. }
  assert (HD1 : forall t, t ∈ D1 -> 1 <= t < N).
  { intros t Hin.
    destruct (touched_level (Z.to_nat (next_right y0)) (next_left x0)
                (next_right y0) 1 t)
      as [Ht Hprop]; [lia | lia | change (2 ^ 1) with 2; lia
                      | change (2 ^ 1) with 2; lia | exact Hin |].
    pose proof (proper_node_pos N t HN ltac:(lia) Hprop). lia. }
  assert (Hwf1 : wf s1) by by apply wf_touch_all.
  assert (Hwf2 : wf s2) by by apply wf_touch_all.
  assert (Hwf3 : wf s3) by by apply wf_recalc_from.
  assert (Hv2 : forall q, 1 <= q < 2 * N ->
            node_value s2 q
            = apply_times (hits D0 q + hits D1 q) u (node_value s q)).
  { intros q Hq. unfold s2, s1.
    rewrite node_value_touch_all; [|done| |done].
    - rewrite node_value_touch_all; [|done| |done].
      + apply apply_times_add.
      + intros t Hin. specialize (HD0 t Hin). repeat split; (done || lia).
    - intros t Hin. specialize (HD1 t Hin). repeat split; (done || lia). }
  assert (Hpar : forall t, t ∈ D0 \/ t ∈ D1 -> 2 <= t ->
            t / 2 ∈ chain (x0 / 2) \/ t / 2 ∈ chain ((y0 - 1) / 2)).
  { intros t [Hin|Hin] Ht.
    - destruct (round_nodes_parent x0 y0 x0 (y0 - 1) t) as [E|E];
        try done; try lia; [left | right]; rewrite <- E; apply chain_self; lia.
    - destruct (touched_parent (Z.to_nat (next_right y0)) (next_left x0)
                  (next_right y0) (x0 / 2) ((y0 - 1) / 2) t) as [H|H];
        try done; try lia.
      + left. apply chain_up; [|done]. apply chain_bound in H. lia.
      + right. apply chain_up; [|done]. apply chain_bound in H. lia. }
  assert (Hcons2 : forall p, 1 <= p < N ->
            p ∉ chain (x0 / 2) -> p ∉ chain ((y0 - 1) / 2) ->
            node_value s2 p = op (node_value s2 (2 * p)) (node_value s2 (2 * p + 1))).
  { intros p Hp Hnx Hny.
    assert (Hh : forall c, c = 2 * p \/ c = 2 * p + 1 ->
              (hits D0 c + hits D1 c = hits D0 p + hits D1 p)%nat).
    { intros c Hc.
      assert (Hnc : forall t, t ∈ D0 \/ t ∈ D1 -> t <> c).
      { intros t Hin ->. destruct (Hpar c Hin ltac:(lia)) as [H|H];
          replace (c / 2) with p in H by lia; done. }
      assert (Hiff : forall t, t ∈ D0 \/ t ∈ D1 -> t ∈ chain c <-> t ∈ chain p).
      { intros t Hin. rewrite (chain_unfold c) by lia.
        replace (c / 2) with p by lia. rewrite elem_of_cons.
        specialize (Hnc t Hin). tauto. }
      f_equal; apply hits_ext; intros t Hin; apply Hiff; tauto. }
    rewrite !Hv2 by lia. rewrite (Hh (2 * p)), (Hh (2 * p + 1)) by lia.
    by rewrite Hcons, apply_times_op by lia. }
  destruct (recalc_from_spec (Z.to_nat (x0 / 2)) (x0 / 2) s2 Hwf2
              ltac:(lia) ltac:(lia)) as [Hout3 Hin3].
  fold s3 in Hout3, Hin3.
  destruct (recalc_from_spec (Z.to_nat ((y0 - 1) / 2)) ((y0 - 1) / 2) s3 Hwf3
              ltac:(lia) ltac:(lia)) as [Hout4 Hin4].
  set (s4 := recalc_from (Z.to_nat ((y0 - 1) / 2)) ((y0 - 1) / 2) s3) in *.
  split.
  - intros p Hp.
    destruct (decide (p ∈ chain ((y0 - 1) / 2))) as [Hy|Hy]; [by apply Hin4|].
    apply (consistent_frame s3 s4 ((y0 - 1) / 2)); [done | lia | done |].
    destruct (decide (p ∈ chain (x0 / 2))) as [Hx|Hx]; [by apply Hin3|].
    apply (consistent_frame s2 s3 (x0 / 2)); [done | lia | done |].
    by apply Hcons2.
  - intros k Hk.
    rewrite Hout4 by (intros H'%chain_bound; lia).
    rewrite Hout3 by (intros H'%chain_bound; lia).
    rewrite Hv2 by lia.
    assert (Hcount : (hits D0 (N + k) + hits D1 (N + k))%nat
                     = if decide (l <= k < r) then 1%nat else 0%nat).
    { unfold D1. rewrite (hits_touched _ ((N + 1) / 2)) by lia.
      unfold D0. rewrite (hits_round N) by lia.
      rewrite in_range_count_unfold by lia.
      rewrite (in_range_count_high _ _ ((N + k) / 2)) by lia.
      unfold x0, y0. repeat case_decide; lia. }
    rewrite Hcount. by case_decide.
Qed.

(** *** The sequence the tree stands for *)

Local Abbreviation leaves := (leaves updVal).
Local Abbreviation represents := (represents op updVal N io iu).

Lemma leaves_lookup s k :
  wf s -> 0 <= k < N -> leaves s !! Z.to_nat k = Some (node_value s (N + k)).
Proof.
  intros Hwf Hk. unfold Dense.leaves. rewrite (wf_size s Hwf).
  rewrite list_lookup_fmap, lookup_seqZ_lt by lia. cbn.
  do 3 f_equal. lia.
Qed.

Lemma leaves_length s : wf s -> length (leaves s) = Z.to_nat N.
Proof.
  intros Hwf. unfold Dense.leaves. rewrite (wf_size s Hwf).
  by rewrite length_fmap, length_seqZ.
Qed.

Lemma leaves_eq s (a : list T) :
  wf s -> length a = Z.to_nat N ->
  (forall k, 0 <= k < N -> a !! Z.to_nat k = Some (node_value s (N + k))) ->
  leaves s = a.
Proof.
  intros Hwf Hlen Ha. apply list_eq. intros i.
  destruct (decide (i < Z.to_nat N)%nat) as [Hi|Hi].
  - rewrite <- (Nat2Z.id i). rewrite leaves_lookup, Ha by (done || lia). done.
  - rewrite !lookup_ge_None_2; [done | lia | rewrite leaves_length by done; lia].
Qed.

Lemma leaves_ext s s' :
  wf s -> wf s' ->
  (forall q, N <= q < 2 * N -> node_value s' q = node_value s q) ->
  leaves s' = leaves s.
Proof.
  intros Hwf Hwf' Hq. apply leaves_eq; [done | by apply leaves_length |].
  intros k Hk. rewrite leaves_lookup by done. f_equal. symmetry. apply Hq. lia.
Qed.

(** *** [Query] and [Update] on the sequence *)

Lemma represents_intro s (a : list T) :
  wf s -> tags_proper s -> LOG_ s = Z.log2 N \/ LOG_ s = Z.log2 N + 1 ->
  consistent s -> leaves s = a -> represents s a.
Proof. by unfold Dense.represents. Qed.

Lemma query_state_spec s (l r : Z) :
  wf s -> tags_proper s -> LOG_ s = Z.log2 N \/ LOG_ s = Z.log2 N + 1 ->
  0 <= l -> l < r -> r <= N ->
  (forall q, 1 <= q < 2 * N ->
     node_value (query_state l r s) q = node_value s q) /\
  cleared (query_state l r s) ((l + N) / 2) /\
  cleared (query_state l r s) ((r + N - 1) / 2).
Proof.
  intros Hwf Hp HL Hl Hlr Hr. pose proof (wf_N s Hwf) as HN.
  unfold Dense.query_state. rewrite (wf_size s Hwf).
  destruct (Propagate_exec s (l + N) Hwf Hp ltac:(lia)) as (_ & Hwf1 & Hp1).
  split; [|split].
  - intros q Hq. rewrite !node_value_propagated by (done || lia). done.
  - apply propagated_cleared; [done | done | lia |].
    apply propagated_clears; (done || lia).
  - apply propagated_clears; [done | done | lia |].
    by rewrite LOG_propagated.
Qed.

Lemma query_represents s (a : list T) (l r : Z) :
  represents s a -> 0 <= l -> l < r -> r <= N ->
  represents (query_state l r s) a.
Proof.
  intros (Hwf & Hp & HL & Hcons & Hlv) Hl Hlr Hr.
  destruct (Query_exec s l r Hwf Hp Hl ltac:(lia) ltac:(lia) Hr) as (_ & Hwf' & Hp').
  destruct (query_state_spec s l r Hwf Hp HL Hl Hlr Hr) as (Hv & _ & _).
  pose proof (wf_N s Hwf) as HN.
  apply represents_intro; try done.
  - by rewrite LOG_query_state.
  - intros p Hpn. rewrite !Hv by lia. by apply Hcons.
  - rewrite <- Hlv. apply leaves_ext; [done | done |]. intros q Hq. apply Hv. lia.
Qed.

Lemma update_represents s (a : list T) (l r : Z) (u : U) :
  represents s a -> 0 <= l -> l < r -> r <= N ->
  represents (update_state l r u s) (ref_update updVal l r u a).
Proof using All.
  intros (Hwf & Hp & HL & Hcons & Hlv) Hl Hlr Hr.
  destruct (update_state_spec s l r u Hwf Hcons Hl Hlr Hr) as [Hcons' Hlv'].
  pose proof (wf_update_state s l r u Hwf) as Hwf'.
  apply represents_intro; try done.
  - apply update_state_proper; (done || lia).
  - by rewrite LOG_update_state.
  - apply leaves_eq; [done| |].
    + unfold ref_update. rewrite length_imap, <- Hlv. by apply leaves_length.
    + intros k Hk. unfold ref_update. rewrite list_lookup_imap, <- Hlv.
      rewrite leaves_lookup by done. cbn. rewrite Hlv' by done.
      rewrite Z2Nat.id by lia. done.
Qed.

Lemma run_represents (cs : list (call (U:=U))) : forall s (a : list T),
  Forall (nonempty_call N) cs -> represents s a ->
  exists res s',
    run op updVal updLazy U_eqb cs s = Some (res, s') /\
    represents s' (ref_state updVal cs a).
Proof using All.
  induction cs as [|c cs IH]; intros s a Hcs Hrep; [by exists [], s|].
  inversion Hcs as [|c' cs' Hc Hcs']; subst c' cs'; clear Hcs; rename Hcs' into Hcs.
  pose proof Hrep as (Hwf & Hp & _).
  destruct c as [l r u|l r]; cbn [run ref_state]; destruct Hc as (Hl & Hlr & Hr).
  - rewrite Update_exec by (done || lia).
    apply IH; [done|]. by apply update_represents.
  - destruct (Query_exec s l r Hwf Hp Hl ltac:(lia) ltac:(lia) Hr) as (E & _ & _).
    rewrite E.
    destruct (IH (query_state l r s) a Hcs) as (res & s' & -> & Hrep');
      [by apply query_represents|].
    by eexists _, _.
Qed.

(** *** The constructors *)

Lemma from_size_represents :
  1 <= N -> represents (from_size N io iu) (replicate (Z.to_nat N) io).
Proof.
  intros HN. pose proof (from_size_wf HN) as Hwf.
  assert (Hv : forall q, node_value (from_size N io iu) q = io).
  { intros q. unfold Dense.node_value. rewrite from_size_tr.
    apply pend_clear. intros p _. apply from_size_lzf. }
  apply represents_intro; try done.
  - intros t _ Ht. by rewrite from_size_lzf in Ht.
  - left. apply from_size_LOG.
  - intros p _. by rewrite !Hv, op_identity_r.
  - apply leaves_eq; [done | by rewrite length_replicate |].
    intros k Hk. rewrite Hv. apply lookup_replicate_2. lia.
Qed.

Lemma build_spec (k : nat) : forall t : list T,
  (2 * k + 1 < length t)%nat ->
  exists t' : list T,
    build op k t = Some t' /\ length t' = length t /\
    (forall j, Z.of_nat k < j -> vget t' j = vget t j) /\
    (forall i, 1 <= i <= Z.of_nat k ->
       exists a b, vget t' (2 * i) = Some a /\ vget t' (2 * i + 1) = Some b /\
                   vget t' i = Some (op a b)).
Proof.
  induction k as [|k IH]; intros t Hlen.
  { exists t. repeat split; try done. intros i Hi. lia. }
  cbn [build].
  destruct (vget_in_range t (2 * Z.of_nat (S k)) ltac:(lia)) as [a Ea].
  destruct (vget_in_range t (2 * Z.of_nat (S k) + 1) ltac:(lia)) as [b Eb].
  rewrite Ea, Eb. cbn [mbind option_bind].
  unfold vset at 1. rewrite decide_True by lia. cbn [mbind option_bind].
  set (t1 := <[Z.to_nat (Z.of_nat (S k)) := op a b]> t).
  assert (Hget1 : forall j, vget t1 j
            = if decide (j = Z.of_nat (S k)) then Some (op a b) else vget t j).
  { intros j. unfold t1. apply vget_insert. lia. }
  destruct (IH t1) as (t' & E & Hlen' & Hhi & Hlo).
  { unfold t1. rewrite length_insert. lia. }
  exists t'. split; [done|]. split; [|split].
  - rewrite Hlen'. unfold t1. by rewrite length_insert.
  - intros j Hj. rewrite Hhi, Hget1 by lia. by rewrite decide_False by lia.
  - intros i Hi. destruct (decide (i = Z.of_nat (S k))) as [->|Hne].
    + exists a, b. rewrite !Hhi, !Hget1 by lia.
      repeat case_decide; try lia. done.
    + apply Hlo. lia.
Qed.

Lemma from_range_represents (d : T) (xs : list T) :
  1 <= N -> Z.of_nat (length xs) = N ->
  exists s, from_range op d xs io iu = Some s /\ represents s xs.
Proof.
  intros HN Hlen. unfold from_range. rewrite Hlen. cbv zeta.
  destruct (build_spec (Z.to_nat (N - 1)) (replicate (length xs) d ++ xs))
    as (t' & E & Hlen' & Hhi & Hlo).
  { rewrite length_app, length_replicate. lia. }
  rewrite E. cbn [mbind option_bind]. eexists. split; [reflexivity|].
  rewrite length_app, length_replicate in Hlen'.
  set (s0 := mkTree _ _ _ _ _ _).
  assert (Hwf : wf s0).
  { unfold Dense.wf, sized, s0. cbn. rewrite length_replicate. repeat split; lia. }
  assert (Hlz : forall i, lzf s0 i = iu).
  { intros i. unfold lzf, vget, s0. cbn [lazy_ identityUpdate_].
    case_decide; [|done]. apply default_lookup_replicate. }
  assert (Hv : forall q, node_value s0 q = tr s0 q).
  { intros q. unfold Dense.node_value. apply pend_clear. intros p _. apply Hlz. }
  apply represents_intro; try done.
  - intros t _ Ht. by rewrite Hlz in Ht.
  - right. unfold s0, clz. cbn. lia.
  - intros p Hp. rewrite !Hv. unfold tr, s0. cbn [tree_ identityOp_].
    destruct (Hlo p ltac:(lia)) as (a & b & -> & -> & ->). done.
  - apply leaves_eq; [done | lia |].
    intros k Hk. rewrite Hv. unfold tr, s0. cbn [tree_ identityOp_].
    rewrite Hhi by lia. unfold vget. rewrite decide_True by lia.
    rewrite lookup_app_r by (rewrite length_replicate; lia).
    rewrite length_replicate.
    replace (Z.to_nat (N + k) - length xs)%nat with (Z.to_nat k) by lia.
    destruct (xs !! Z.to_nat k) eqn:Ex; [done|].
    apply lookup_ge_None in Ex. lia.
Qed.

Lemma constructed_represents (d : T) (xs : list T) s :
  1 <= N -> constructed op d N io iu xs s -> represents s xs.
Proof.
  intros HN [[-> ->]|[Hlen E]].
  - by apply from_size_represents.
  - destruct (from_range_represents d xs HN Hlen) as (s' & E' & Hrep).
    by replace s with s' by congruence.
Qed.

Set Default Proof Using "All".

(** C4, as the code has it: in every state a sequence of calls on ranges
    that are not empty reaches from a constructed tree, under an algebra
    where the identity update changes nothing, updates distribute over
    the combination and commute, every node below the leaves stands for
    the combination of what its children stand for, and the leaves stand
    for the elements with every update so far applied.  What a node
    stands for is its stored aggregate with the tags pending on its
    proper ancestors applied: the stored aggregate alone reflects the
    updates made at the node and below it, and misses those a tag above
    still withholds. *)
Theorem C4_nodes_stand_for_updated_elements (T_default : T) (xs : list T)
    (cs : list (call (U:=U))) s0 :
  1 <= N -> constructed op T_default N io iu xs s0 ->
  Forall (nonempty_call N) cs ->
  exists res s,
    run op updVal updLazy U_eqb cs s0 = Some (res, s) /\
    consistent s /\
    leaves s = ref_state updVal cs xs /\
    (forall q, 1 <= q < 2 * N -> cleared s (q / 2) -> tr s q = node_value s q).
Proof.
  intros HN Hs0 Hcs.
  destruct (run_represents cs s0 xs Hcs (constructed_represents _ _ _ HN Hs0))
    as (res & s & E & _ & _ & _ & Hcons & Hlv).
  exists res, s. repeat split; try done.
  intros q Hq Hc. unfold Dense.node_value. symmetry. by apply pend_clear.
Qed.

(** *** What [Query] returns *)

Hypothesis op_assoc : forall x y z, op (op x y) z = op x (op y z).
Hypothesis op_identity_l : forall x, op io x = x.

Set Default Proof Using "-(comm)".

Local Abbreviation span s := (combine_from op io (node_value s)).
Local Abbreviation near s z := (cleared s (z / 2) \/ cleared s ((z - 1) / 2)).

Lemma gather_step (fuel : nat) s (x y : Z) (a b : T) :
  x < y ->
  gather op (S fuel) s x y a b
  = gather op fuel s (next_left x) (next_right y)
      (if decide (Z.rem x 2 = 1) then op a (tr s x) else a)
      (if decide (Z.rem y 2 = 1) then op (tr s (y - 1)) b else b).
Proof.
  intros Hlt. cbn [gather]. rewrite decide_True by done.
  unfold next_left, next_right. by repeat case_decide.
Qed.

Lemma gather_done (fuel : nat) s (x y : Z) (a b : T) :
  ~ x < y -> gather op fuel s x y a b = (a, b).
Proof. intros. destruct fuel; cbn [gather]; by rewrite decide_False. Qed.

Lemma near_next_left s x : 1 <= x -> near s x -> near s (next_left x).
Proof.
  intros Hx Hn. unfold next_left. case_decide as Hodd.
  - right. replace ((Z.quot (x + 1) 2 - 1) / 2) with (x / 2 / 2) by lia.
    apply cleared_up. destruct Hn as [H|H]; [done|].
    by replace ((x - 1) / 2) with (x / 2) in H by lia.
  - destruct Hn as [H|H].
    + left. replace (Z.quot x 2) with (x / 2) by lia. by apply cleared_up.
    + right. replace (Z.quot x 2 - 1) with ((x - 1) / 2) by lia. by apply cleared_up.
Qed.

Lemma near_next_right s y : 1 <= y -> near s y -> near s (next_right y).
Proof.
  intros Hy Hn. unfold next_right. case_decide as Hodd.
  - left. replace (Z.quot (y - 1) 2) with (y / 2) by lia.
    apply cleared_up. destruct Hn as [H|H]; [done|].
    by replace ((y - 1) / 2) with (y / 2) in H by lia.
  - destruct Hn as [H|H].
    + left. replace (Z.quot y 2) with (y / 2) by lia. by apply cleared_up.
    + right. replace (Z.quot y 2 - 1) with ((y - 1) / 2) by lia. by apply cleared_up.
Qed.

(** The aggregates the loop of [Query] reads are what their nodes stand
    for. *)
Lemma near_read_left s x :
  1 <= x -> near s x -> Z.rem x 2 = 1 -> tr s x = node_value s x.
Proof.
  intros Hx Hn Hodd. unfold Dense.node_value. symmetry. apply pend_clear.
  destruct Hn as [H|H]; [done|].
  by replace ((x - 1) / 2) with (x / 2) in H by lia.
Qed.

Lemma near_read_right s y :
  1 <= y -> near s y -> Z.rem y 2 = 1 -> tr s (y - 1) = node_value s (y - 1).
Proof.
  intros Hy Hn Hodd. unfold Dense.node_value. symmetry. apply pend_clear.
  destruct Hn as [H|H]; [|done].
  by replace ((y - 1) / 2) with (y / 2) by lia.
Qed.

Lemma gather_spec s (fuel : nat) :
  wf s -> consistent s ->
  forall (x y : Z) (a b : T),
    1 <= x -> x <= y -> y <= 2 * N -> near s x -> near s y ->
    (Z.to_nat y <= fuel)%nat ->
    op (fst (gather op fuel s x y a b)) (snd (gather op fuel s x y a b))
    = op a (op (span s x (Z.to_nat (y - x))) b).
Proof.
  intros Hwf Hcons.
  induction fuel as [|fuel IH]; intros x y a b Hx Hxy Hy Hnx Hny Hfuel; [lia|].
  destruct (decide (x < y)) as [Hlt|Hge].
  2:{ rewrite gather_done by done. replace (y - x) with 0 by lia. cbn.
      by rewrite op_identity_l. }
  rewrite gather_step by done.
  pose proof (next_left_bounds x ltac:(lia)) as Hnl.
  pose proof (next_right_bounds y ltac:(lia)) as Hnr.
  set (x' := next_left x) in *. set (y' := next_right y) in *.
  assert (Hxy' : x' <= y').
  { unfold x', y', next_left, next_right. repeat case_decide; lia. }
  rewrite IH; [|lia | done | lia | by apply near_next_left
               | apply near_next_right; (done || lia) | lia].
  rewrite <- (CombineFacts.combine_from_double op io op_assoc op_identity_l
                op_identity_r (node_value s) (node_value s))
    by (intros p Hp; apply Hcons; lia).
  replace (2 * Z.to_nat (y' - x'))%nat with (Z.to_nat (2 * y' - 2 * x')) by lia.
  assert (Hleft : forall b' : T,
            op (if decide (Z.rem x 2 = 1) then op a (tr s x) else a)
               (op (span s (2 * x') (Z.to_nat (y - 2 * x'))) b')
            = op a (op (span s x (Z.to_nat (y - x))) b')).
  { intros b'. case_decide as Hodd.
    - rewrite near_read_left by done.
      replace (Z.to_nat (y - x)) with (S (Z.to_nat (y - 2 * x'))) by lia.
      cbn [combine_from]. replace (x + 1) with (2 * x') by lia.
      by rewrite !op_assoc.
    - by replace (2 * x') with x by lia. }
  rewrite <- Hleft. apply (f_equal (op _)). clear Hleft.
  destruct (decide (Z.rem y 2 = 1)) as [Hodd|Hodd].
  - rewrite near_read_right by (done || lia).
    replace (Z.to_nat (y - 2 * x')) with (S (Z.to_nat (2 * y' - 2 * x'))) by lia.
    rewrite (CombineFacts.combine_from_snoc op io op_assoc op_identity_l
               op_identity_r).
    replace (2 * x' + Z.of_nat (Z.to_nat (2 * y' - 2 * x'))) with (y - 1) by lia.
    by rewrite !op_assoc.
  - by replace (2 * y') with y by lia.
Qed.

Lemma query_result_spec s (a : list T) (l r : Z) :
  represents s a -> 0 <= l -> l < r -> r <= N ->
  query_result l r s = ref_query op io l r a.
Proof.
  intros Hrep Hl Hlr Hr.
  pose proof (query_represents s a l r Hrep Hl Hlr Hr) as (Hwf' & _ & _ & Hcons' & Hlv').
  destruct Hrep as (Hwf & Hp & HL & _ & _).
  destruct (query_state_spec s l r Hwf Hp HL Hl Hlr Hr) as (_ & Hcl & Hcr).
  pose proof (wf_N s Hwf) as HN.
  unfold Dense.query_result. cbv zeta.
  rewrite (wf_size s Hwf), (wf_idOp s Hwf).
  rewrite (gather_spec _ _ Hwf' Hcons'); [|lia | lia | lia | by left | right | lia].
  2:{ by replace (r + N - 1) with (r + N - 1) by lia. }
  rewrite op_identity_l, op_identity_r.
  unfold ref_query.
  rewrite (CombineFacts.combine_from_lookup op io op_assoc op_identity_l
             op_identity_r a (fun i => node_value (query_state l r s) (N + i)))
    by (try lia; intros i Hi; rewrite <- Hlv'; apply leaves_lookup; (done || lia)).
  rewrite (CombineFacts.combine_from_shift op io op_assoc op_identity_l
             op_identity_r).
  replace (N + l) with (l + N) by lia.
  by replace (r + N - (l + N)) with (r - l) by lia.
Qed.

(** The dense tree answers a sequence of calls on ranges that are not
    empty as the reference array does. *)
Lemma run_refines (cs : list (call (U:=U))) : forall s (a : list T),
  Forall (nonempty_call N) cs -> represents s a ->
  exists s',
    run op updVal updLazy U_eqb cs s = Some (ref_run op updVal io cs a, s') /\
    represents s' (ref_state updVal cs a).
Proof using All.
  induction cs as [|c cs IH]; intros s a Hcs Hrep; [by exists s|].
  inversion Hcs as [|c' cs' Hc Hcs']; subst c' cs'; clear Hcs; rename Hcs' into Hcs.
  pose proof Hrep as (Hwf & Hp & _).
  destruct c as [l r u|l r]; cbn [run ref_run ref_state]; destruct Hc as (Hl & Hlr & Hr).
  - rewrite Update_exec by (done || lia).
    apply IH; [done|]. by apply update_represents.
  - destruct (Query_exec s l r Hwf Hp Hl ltac:(lia) ltac:(lia) Hr) as (E & _ & _).
    rewrite E, (query_result_spec s a) by done.
    destruct (IH (query_state l r s) a Hcs) as (s' & -> & Hrep');
      [by apply query_represents|].
    by eexists.
Qed.

Lemma dense_refines (d : T) (xs : list T) (cs : list (call (U:=U))) s0 :
  1 <= N -> constructed op d N io iu xs s0 -> Forall (nonempty_call N) cs ->
  results op updVal updLazy U_eqb cs (Some s0)
  = Some (ref_run op updVal io cs xs).
Proof using All.
  intros HN Hs0 Hcs. unfold results.
  destruct (run_refines cs s0 xs Hcs (constructed_represents _ _ _ HN Hs0))
    as (s' & -> & _). done.
Qed.

(** *** Updates that do not commute, behind a query

    [Update] composes its value into the tags of the nodes it reaches and
    leaves the tags above them where they are.  When the tags on the paths
    to the two ends of the range are the identity, as [Query] on the same
    range leaves them, no older tag lies above a newer one, and the laws
    above suffice without commutation. *)

Lemma cleared_in s b p : cleared s b -> p ∈ chain b -> cleared s p.
Proof. intros Hc Hp q Hq. apply Hc. by apply (chain_trans b p q). Qed.

Lemma pend_updVal_cleared s q x (u : U) :
  cleared s (q / 2) -> pend s q (updVal x u) = updVal (pend s q x) u.
Proof. intros Hc. by rewrite !pend_clear by exact Hc. Qed.

Lemma pend_touch_below_cleared s (u : U) t : forall q x,
  wf s -> 1 <= t < N -> cleared s (t / 2) -> t ∈ chain (q / 2) ->
  pend (touch true u t s) q x = updVal (pend s q x) u.
Proof.
  intros q x Hwf Ht Hc. revert x.
  induction q as [q Hq|q Hq IH] using chain_ind; intros x Hin.
  - rewrite chain_nil in Hin by lia. by apply elem_of_nil in Hin.
  - pose proof (chain_bound _ _ Hin).
    rewrite (pend_unfold _ q) by lia. rewrite (pend_unfold s q) by lia.
    rewrite lzf_touch_tag by (done || lia).
    destruct (chain_child (q / 2) t ltac:(lia) Hin) as [E|[Hq2 Hin']].
    + rewrite E, decide_True by done.
      rewrite pend_touch_out by (try done; try lia; intros H'%chain_bound; lia).
      by rewrite compat, pend_updVal_cleared.
    + pose proof (chain_bound _ _ Hin').
      rewrite decide_False by lia. by apply IH.
Qed.

Lemma node_value_touch_cleared s (b : bool) (u : U) t q :
  wf s -> 1 <= t < 2 * N -> (b = true -> t < N) -> (b = false -> N <= t) ->
  cleared s (t / 2) -> 1 <= q < 2 * N ->
  node_value (touch b u t s) q
  = if decide (t ∈ chain q) then updVal (node_value s q) u else node_value s q.
Proof.
  intros Hwf Ht Hbt Hbf Hc Hq. unfold Dense.node_value.
  rewrite tr_touch by (done || lia).
  destruct (decide (q = t)) as [->|Hne].
  - rewrite decide_True by (apply chain_self; lia).
    rewrite pend_touch_out by (try done; try lia; intros H'%chain_bound; lia).
    by apply pend_updVal_cleared.
  - case_decide as Hin.
    + destruct (chain_child q t ltac:(lia) Hin) as [E|[Hq2 Hin']]; [done|].
      pose proof (chain_bound _ _ Hin').
      destruct b; [|specialize (Hbf eq_refl); lia].
      apply pend_touch_below_cleared; [done | | done | done].
      specialize (Hbt eq_refl). lia.
    + apply pend_touch_out; try done; [lia|].
      intros Hin'. apply Hin. apply chain_up; [lia | done].
Qed.

(** Nodes handed over from the bottom up: none is above a later one. *)
Local Abbreviation bottom_up ts :=
  (forall (i j : nat) (t t' : Z),
     (i < j)%nat -> ts !! i = Some t -> ts !! j = Some t' -> t' / 2 < t).

Lemma node_value_touch_all_cleared (b : bool) (u : U) (ts : list Z) q : forall s,
  wf s ->
  (forall t, t ∈ ts ->
     1 <= t < 2 * N /\ (b = true -> t < N) /\ (b = false -> N <= t) /\
     cleared s (t / 2)) ->
  bottom_up ts ->
  1 <= q < 2 * N ->
  node_value (touch_all b u ts s) q = apply_times (hits ts q) u (node_value s q).
Proof.
  induction ts as [|t ts IH]; intros s Hwf Hts Hord Hq; [done|].
  destruct (Hts t ltac:(left)) as (Ht & Hbt & Hbf & Hc).
  rewrite touch_all_cons, IH; [|by apply wf_touch | | |done].
  - rewrite node_value_touch_cleared, hits_cons by done.
    case_decide; [|done].
    unfold Dense.apply_times. cbn [Nat.add]. by rewrite Nat.iter_succ_r.
  - intros t' Hin. destruct (Hts t' ltac:(by right)) as (Ht' & Hbt' & Hbf' & Hc').
    split; [done|]. split; [done|]. split; [done|].
    apply list_elem_of_lookup in Hin as [j Hj].
    pose proof (Hord 0%nat (S j) t t' ltac:(lia) eq_refl Hj) as Hlt.
    intros p Hp. destruct b; [|by apply Hc'].
    rewrite lzf_touch_tag by (try done; specialize (Hbt eq_refl); lia).
    pose proof (chain_bound _ _ Hp).
    rewrite decide_False by lia. by apply Hc'.
  - intros i j t1 t2 Hij H1 H2. by apply (Hord (S i) (S j)); [lia | |].
Qed.

Lemma round_nodes_bottom_up (x y : Z) : 1 <= x -> y <= 2 * x -> bottom_up (round_nodes x y).
Proof.
  intros Hx Hy i j t t' Hij Hi Hj. unfold round_nodes in Hi, Hj.
  repeat case_decide; cbn in Hi, Hj;
    repeat (match goal with
            | H : (_ :: _) !! ?k = Some _ |- _ => destruct k; cbn in H
            | H : [] !! _ = Some _ |- _ => done
            | H : Some _ = Some _ |- _ => injection H as <-
            end); lia.
Qed.

Lemma touched_below (fuel : nat) : forall (x y t : Z),
  0 <= y -> t ∈ touched fuel x y -> t < y.
Proof.
  induction fuel as [|fuel IH]; intros x y t Hy Hin.
  { cbn in Hin. case_decide; by apply elem_of_nil in Hin. }
  cbn [touched] in Hin. case_decide as Hlt; [|by apply elem_of_nil in Hin].
  apply elem_of_app in Hin as [Hin|Hin].
  - unfold round_nodes in Hin.
    apply elem_of_app in Hin as [Hin|Hin]; case_decide;
      try (apply list_elem_of_singleton in Hin);
      try (by apply elem_of_nil in Hin); lia.
  - pose proof (next_right_bounds y Hy).
    apply IH in Hin; lia.
Qed.

Lemma touched_bottom_up (fuel : nat) : forall (x y : Z),
  1 <= x -> y <= 2 * x -> bottom_up (touched fuel x y).
Proof.
  induction fuel as [|fuel IH]; intros x y Hx Hy i j t t' Hij Hi Hj.
  { cbn in Hi. by case_decide. }
  cbn [touched] in Hi, Hj. case_decide as Hlt; [|done].
  pose proof (next_left_bounds x ltac:(lia)) as Hnl.
  pose proof (next_right_bounds y ltac:(lia)) as Hnr.
  apply lookup_app_Some in Hi as [Hi|[Hli Hi]];
    apply lookup_app_Some in Hj as [Hj|[Hlj Hj]].
  - by apply (round_nodes_bottom_up x y Hx Hy i j).
  - apply list_elem_of_lookup_2 in Hi, Hj.
    apply touched_below in Hj; [|lia].
    unfold round_nodes in Hi.
    apply elem_of_app in Hi as [Hi|Hi]; case_decide;
      try (apply list_elem_of_singleton in Hi);
      try (by apply elem_of_nil in Hi); lia.
  - apply lookup_lt_Some in Hj. lia.
  - apply (IH (next_left x) (next_right y) ltac:(lia) ltac:(lia)
             (i - length (round_nodes x y))%nat (j - length (round_nodes x y))%nat);
      [lia | done | done].
Qed.

(** [Update] on a range that is not empty, the paths to whose two ends hold
    no tag: the update is applied to what the leaves of the range stand
    for, to no other leaf, and every node below the leaves goes on standing
    for the combination of its children. *)
Lemma update_state_spec_cleared s (l r : Z) (u : U) :
  wf s -> consistent s -> 0 <= l -> l < r -> r <= N ->
  cleared s ((l + N) / 2) -> cleared s ((r + N - 1) / 2) ->
  consistent (update_state l r u s) /\
  forall k, 0 <= k < N ->
    node_value (update_state l r u s) (N + k)
    = if decide (l <= k < r) then updVal (node_value s (N + k)) u
      else node_value s (N + k).
Proof.
  intros Hwf Hcons Hl Hlr Hr Hcl Hcr. pose proof (wf_N s Hwf) as HN.
  unfold Dense.update_state, Dense.recalculated. cbv zeta.
  rewrite (wf_size s Hwf).
  set (x0 := l + N) in *. set (y0 := r + N).
  replace (r + N - 1) with (y0 - 1) in Hcr by (unfold y0; lia).
  set (D0 := round_nodes x0 y0).
  set (D1 := touched (Z.to_nat (next_right y0)) (next_left x0) (next_right y0)).
  set (s1 := touch_all false u D0 s).
  set (s2 := touch_all true u D1 s1).
  replace (Z.quot x0 2) with (x0 / 2) by lia.
  replace (Z.quot (y0 - 1) 2) with ((y0 - 1) / 2) by lia.
  set (s3 := recalc_from (Z.to_nat (x0 / 2)) (x0 / 2) s2).
  pose proof (next_left_bounds x0 ltac:(lia)) as Hnl.
  pose proof (next_right_bounds y0 ltac:(lia)) as Hnr.
  assert (HD0 : forall t, t ∈ D0 -> N <= t < 2 * N).
  { intros t Hin. pose proof (round_nodes_bounds x0 y0 t ltac:(lia) ltac:(lia) Hin). lia. }
  assert (HD1 : forall t, t ∈ D1 -> 1 <= t < N).
  { intros t Hin.
    destruct (touched_level (Z.to_nat (next_right y0)) (next_left x0)
                (next_right y0) 1 t)
      as [Ht Hprop]; [lia | lia | change (2 ^ 1) with 2; lia
                      | change (2 ^ 1) with 2; lia | exact Hin |].
    pose proof (proper_node_pos N t HN ltac:(lia) Hprop). lia. }
  assert (Hwf1 : wf s1) by by apply wf_touch_all.
  assert (Hwf2 : wf s2) by by apply wf_touch_all.
  assert (Hwf3 : wf s3) by by apply wf_recalc_from.
  assert (Hpar : forall t, t ∈ D0 \/ t ∈ D1 -> 2 <= t ->
            t / 2 ∈ chain (x0 / 2) \/ t / 2 ∈ chain ((y0 - 1) / 2)).
  { intros t [Hin|Hin] Ht.
    - destruct (round_nodes_parent x0 y0 x0 (y0 - 1) t) as [E|E];
        try done; try lia; [left | right]; rewrite <- E; apply chain_self; lia.
    - destruct (touched_parent (Z.to_nat (next_right y0)) (next_left x0)
                  (next_right y0) (x0 / 2) ((y0 - 1) / 2) t) as [H|H];
        try done; try lia.
      + left. apply chain_up; [|done]. apply chain_bound in H. lia.
      + right. apply chain_up; [|done]. apply chain_bound in H. lia. }
  assert (Habove : forall t, t ∈ D0 \/ t ∈ D1 -> cleared s (t / 2)).
  { intros t Hin. destruct (decide (2 <= t)) as [Ht|Ht]; [|apply cleared_low; lia].
    destruct (Hpar t Hin Ht) as [H|H];
      [exact (cleared_in s _ _ Hcl H) | exact (cleared_in s _ _ Hcr H)]. }
  assert (Hv2 : forall q, 1 <= q < 2 * N ->
            node_value s2 q
            = apply_times (hits D0 q + hits D1 q) u (node_value s q)).
  { intros q Hq. unfold s2, s1.
    rewrite node_value_touch_all_cleared; [|done| | |done].
    - rewrite node_value_touch_all_cleared; [|done| | |done].
      + apply apply_times_add.
      + intros t Hin. specialize (HD0 t Hin).
        split; [lia|]. split; [done|]. split; [lia|]. apply Habove. by left.
      + apply round_nodes_bottom_up; unfold x0, y0; lia.
    - intros t Hin. specialize (HD1 t Hin).
      split; [lia|]. split; [lia|]. split; [done|].
      intros p Hp. rewrite lzf_touch_all_leaf. apply (Habove t); [by right | done].
    - apply touched_bottom_up; lia. }
  assert (Hcons2 : forall p, 1 <= p < N ->
            p ∉ chain (x0 / 2) -> p ∉ chain ((y0 - 1) / 2) ->
            node_value s2 p = op (node_value s2 (2 * p)) (node_value s2 (2 * p + 1))).
  { intros p Hp Hnx Hny.
    assert (Hh : forall c, c = 2 * p \/ c = 2 * p + 1 ->
              (hits D0 c + hits D1 c = hits D0 p + hits D1 p)%nat).
    { intros c Hc.
      assert (Hnc : forall t, t ∈ D0 \/ t ∈ D1 -> t <> c).
      { intros t Hin ->. destruct (Hpar c Hin ltac:(lia)) as [H|H];
          replace (c / 2) with p in H by lia; done. }
      assert (Hiff : forall t, t ∈ D0 \/ t ∈ D1 -> t ∈ chain c <-> t ∈ chain p).
      { intros t Hin. rewrite (chain_unfold c) by lia.
        replace (c / 2) with p by lia. rewrite elem_of_cons.
        specialize (Hnc t Hin). tauto. }
      f_equal; apply hits_ext; intros t Hin; apply Hiff; tauto. }
    rewrite !Hv2 by lia. rewrite (Hh (2 * p)), (Hh (2 * p + 1)) by lia.
    by rewrite Hcons, apply_times_op by lia. }
  destruct (recalc_from_spec (Z.to_nat (x0 / 2)) (x0 / 2) s2 Hwf2
              ltac:(lia) ltac:(lia)) as [Hout3 Hin3].
  fold s3 in Hout3, Hin3.
  destruct (recalc_from_spec (Z.to_nat ((y0 - 1) / 2)) ((y0 - 1) / 2) s3 Hwf3
              ltac:(lia) ltac:(lia)) as [Hout4 Hin4].
  set (s4 := recalc_from (Z.to_nat ((y0 - 1) / 2)) ((y0 - 1) / 2) s3) in *.
  split.
  - intros p Hp.
    destruct (decide (p ∈ chain ((y0 - 1) / 2))) as [Hy|Hy]; [by apply Hin4|].
    apply (consistent_frame s3 s4 ((y0 - 1) / 2)); [done | lia | done |].
    destruct (decide (p ∈ chain (x0 / 2))) as [Hx|Hx]; [by apply Hin3|].
    apply (consistent_frame s2 s3 (x0 / 2)); [done | lia | done |].
    by apply Hcons2.
  - intros k Hk.
    rewrite Hout4 by (intros H'%chain_bound; lia).
    rewrite Hout3 by (intros H'%chain_bound; lia).
    rewrite Hv2 by lia.
    assert (Hcount : (hits D0 (N + k) + hits D1 (N + k))%nat
                     = if decide (l <= k < r) then 1%nat else 0%nat).
    { unfold D1. rewrite (hits_touched _ ((N + 1) / 2)) by lia.
      unfold D0. rewrite (hits_round N) by lia.
      rewrite in_range_count_unfold by lia.
      rewrite (in_range_count_high _ _ ((N + k) / 2)) by lia.
      unfold x0, y0. repeat case_decide; lia. }
    rewrite Hcount. by case_decide.
Qed.

Lemma update_represents_cleared s (a : list T) (l r : Z) (u : U) :
  represents s a -> 0 <= l -> l < r -> r <= N ->
  cleared s ((l + N) / 2) -> cleared s ((r + N - 1) / 2) ->
  represents (update_state l r u s) (ref_update updVal l r u a).
Proof.
  intros (Hwf & Hp & HL & Hcons & Hlv) Hl Hlr Hr Hcl Hcr.
  destruct (update_state_spec_cleared s l r u Hwf Hcons Hl Hlr Hr Hcl Hcr)
    as [Hcons' Hlv'].
  pose proof (wf_update_state s l r u Hwf) as Hwf'.
  apply represents_intro; try done.
  - apply update_state_proper; (done || lia).
  - by rewrite LOG_update_state.
  - apply leaves_eq; [done| |].
    + unfold ref_update. rewrite length_imap, <- Hlv. by apply leaves_length.
    + intros k Hk. unfold ref_update. rewrite list_lookup_imap, <- Hlv.
      rewrite leaves_lookup by done. cbn. rewrite Hlv' by done.
      rewrite Z2Nat.id by lia. done.
Qed.

Lemma guarded_run_refines (cs : list (call (U:=U))) : forall s (a : list T),
  Forall (nonempty_call N) cs -> represents s a ->
  exists s',
    run op updVal updLazy U_eqb (guarded cs) s
    = Some (ref_run op updVal io (guarded cs) a, s') /\
    represents s' (ref_state updVal (guarded cs) a).
Proof.
  induction cs as [|c cs IH]; intros s a Hcs Hrep; [by exists s|].
  inversion Hcs as [|c' cs' Hc Hcs']; subst c' cs'; clear Hcs; rename Hcs' into Hcs.
  pose proof Hrep as (Hwf & Hp & HL & _).
  destruct c as [l r u|l r]; destruct Hc as (Hl & Hlr & Hr);
    cbn [guarded run ref_run ref_state].
  - destruct (Query_exec s l r Hwf Hp Hl ltac:(lia) ltac:(lia) Hr) as (E & Hwf1 & _).
    rewrite E, (query_result_spec s a) by done.
    destruct (query_state_spec s l r Hwf Hp HL Hl Hlr Hr) as (_ & Hcl & Hcr).
    pose proof (query_represents s a l r Hrep Hl Hlr Hr) as Hrep1.
    rewrite Update_exec by (done || lia).
    destruct (IH (update_state l r u (query_state l r s)) (ref_update updVal l r u a) Hcs)
      as (s' & -> & Hrep'); [by apply update_represents_cleared|].
    by eexists.
  - destruct (Query_exec s l r Hwf Hp Hl ltac:(lia) ltac:(lia) Hr) as (E & _ & _).
    rewrite E, (query_result_spec s a) by done.
    destruct (IH (query_state l r s) a Hcs) as (s' & -> & Hrep');
      [by apply query_represents|].
    by eexists.
Qed.

(** With [Query(left, right)] called before every
    [Update(left, right, value)], the dense tree answers as the reference
    array does also when updates do not commute, assignment for one: on a
    tree made by either constructor, under the laws of the document and
    [updVal(x, idUpd) == x], [updVal(op(x, y), u) == op(updVal(x, u),
    updVal(y, u))], every query of the sequence, those put before the
    updates among them, returns what the reference array returns. *)
Theorem guarded_updates_refine (d : T) (xs : list T) (cs : list (call (U:=U))) s0 :
  1 <= N -> constructed op d N io iu xs s0 -> Forall (nonempty_call N) cs ->
  results op updVal updLazy U_eqb (guarded cs) (Some s0)
  = Some (ref_run op updVal io (guarded cs) xs).
Proof.
  intros HN Hs0 Hcs. unfold results.
  destruct (guarded_run_refines cs s0 xs Hcs (constructed_represents _ _ _ HN Hs0))
    as (s' & -> & _). done.
Qed.

Set Default Proof Using "All".
End Exec.
End DenseExec.

Import Dense Algebra.

Lemma C10_constructors_agree_witness :
  exists s res,
    from_range plain_op 7 (replicate (Z.to_nat 3) 0) 0 0 = Some s /\
    results plain_op plain_updVal plain_updLazy Z.eqb
      [CallUpdate 0 2 5; CallQuery 1 3; CallQuery 0 1; CallQuery 2 2]
      (Some (from_size 3 0 0)) = Some res /\
    results plain_op plain_updVal plain_updLazy Z.eqb
      [CallUpdate 0 2 5; CallQuery 1 3; CallQuery 0 1; CallQuery 2 2]
      (Some s) = Some res.
Proof.
  apply (DenseExec.C10_constructors_agree plain_op plain_updVal plain_updLazy Z.eqb
           3 0 0).
  - reflexivity.
  - intros x. unfold plain_op. lia.
  - lia.
  - repeat constructor; cbn; lia.
Defined.

(** C10 as stated fails: [Query(3, 3)] is within bounds on a tree of
    size 3, and on either tree it reads [lazy_[3]], past the end of the
    vector; without that call the same sequence returns 5 on both. *)
Lemma C10_counterexample :
  Forall (in_bounds 3) [CallUpdate 0 3 5; CallQuery 0 1; CallQuery 3 3] /\
  results plain_op plain_updVal plain_updLazy Z.eqb
    [CallUpdate 0 3 5; CallQuery 0 1] (Some (from_size 3 0 0)) = Some [5] /\
  results plain_op plain_updVal plain_updLazy Z.eqb
    [CallUpdate 0 3 5; CallQuery 0 1; CallQuery 3 3] (Some (from_size 3 0 0)) = None /\
  results plain_op plain_updVal plain_updLazy Z.eqb
    [CallUpdate 0 3 5; CallQuery 0 1; CallQuery 3 3]
    (from_range plain_op 0 [0; 0; 0] 0 0) = None /\
  Query plain_op plain_updVal plain_updLazy Z.eqb 3 3 (from_size 3 0 0) = None.
Proof.
  split; [repeat constructor; cbn; lia|].
  repeat split; vm_compute; reflexivity.
Qed.

(** The sum carried with the element count satisfies the laws the dense
    tree relies on. *)
Lemma sized_laws :
  (forall x, sized_op x (0, 0) = x) /\
  (forall x, sized_updVal x 0 = x) /\
  (forall x a b, sized_updVal x (plain_updLazy a b)
                 = sized_updVal (sized_updVal x a) b) /\
  (forall x y u, sized_updVal (sized_op x y) u
                 = sized_op (sized_updVal x u) (sized_updVal y u)) /\
  (forall x a b, sized_updVal (sized_updVal x a) b
                 = sized_updVal (sized_updVal x b) a) /\
  (forall a, Z.eqb a 0 = true -> a = 0).
Proof.
  unfold sized_op, sized_updVal, plain_updLazy.
  refine (conj _ (conj _ (conj _ (conj _ (conj _ _))))).
  - intros [a n]. cbn. f_equal; lia.
  - intros [a n]. cbn. f_equal; lia.
  - intros [a n] a' b. cbn. f_equal; lia.
  - intros [a n] [b m] u. cbn. f_equal; lia.
  - intros [a n] a' b. cbn. f_equal; lia.
  - intros a Ha. lia.
Qed.

(** C4 as stated fails at the root, above which no tag can withhold
    anything, under algebras that satisfy the laws of the document.  With
    the sum over bare integers and additive update, [Update(0, 2, 1)] on
    the tree of size 2 leaves [tree_[1]] at 1 while its two elements are 1
    each: an update reaches a covered node once and has to distribute over
    [op].  With the maximum and the one update that caps a value at 5,
    which distributes over the maximum, commutes and composes, on the tree
    built from [7, 8], [Update(0, 1, tt)] leaves [tree_[1]] at 5 while the
    elements are 5 and 8: [recalculate_after_update] applies [updVal] with
    the tag of the node also when the tag is the identity, which therefore
    has to change nothing. *)
Lemma C4_counterexample :
  ((forall x y z, plain_op (plain_op x y) z = plain_op x (plain_op y z)) /\
   (forall x, plain_op x 0 = x) /\
   (forall a b c, plain_updLazy (plain_updLazy a b) c
                  = plain_updLazy a (plain_updLazy b c)) /\
   (forall a, plain_updLazy a 0 = a) /\
   (forall x a b, plain_updVal x (plain_updLazy a b)
                  = plain_updVal (plain_updVal x a) b) /\
   exists s,
     run plain_op plain_updVal plain_updLazy Z.eqb [CallUpdate 0 2 1]
         (from_size 2 0 0) = Some ([], s) /\
     tr s 1 = 1 /\ node_value plain_updVal s 1 = 1 /\
     ref_state plain_updVal [CallUpdate 0 2 1] [0; 0] = [1; 1] /\
     plain_op 1 1 = 2) /\
  ((forall x y z, Nat.max (Nat.max x y) z = Nat.max x (Nat.max y z)) /\
   (forall x, Nat.max x 0 = x) /\
   (forall x y : nat, Nat.min (Nat.max x y) 5 = Nat.max (Nat.min x 5) (Nat.min y 5)) /\
   (forall x : nat, Nat.min (Nat.min x 5) 5 = Nat.min x 5) /\
   exists s0 s,
     from_range Nat.max 0%nat [7%nat; 8%nat] 0%nat tt = Some s0 /\
     run Nat.max (fun x (_ : unit) => Nat.min x 5) (fun _ _ => tt) (fun _ _ => true)
         [CallUpdate 0 1 tt] s0 = Some ([], s) /\
     tr s 1 = 5%nat /\
     node_value (fun x (_ : unit) => Nat.min x 5) s 1 = 5%nat /\
     ref_state (fun x (_ : unit) => Nat.min x 5) [CallUpdate 0 1 tt] [7%nat; 8%nat]
     = [5%nat; 8%nat] /\
     Nat.max 5 8 = 8%nat).
Proof.
  unfold plain_op, plain_updVal, plain_updLazy.
  split.
  - split; [intros; lia|]. split; [intros; lia|]. split; [intros; lia|].
    split; [intros; lia|]. split; [intros; lia|].
    eexists. split; [vm_compute; reflexivity|].
    repeat split; vm_compute; reflexivity.
  - split; [intros; lia|]. split; [intros; lia|]. split; [intros; lia|].
    split; [intros; lia|].
    eexists _, _. split; [vm_compute; reflexivity|].
    split; [vm_compute; reflexivity|].
    repeat split; vm_compute; reflexivity.
Qed.

Lemma C4_nodes_stand_for_updated_elements_witness :
  exists res s,
    run sized_op sized_updVal plain_updLazy Z.eqb
        [CallUpdate 0 4 10; CallQuery 1 3; CallUpdate 1 2 5]
        (mkTree 4 3 (0, 0) 0
           [(0, 0); (10, 4); (3, 2); (7, 2); (1, 1); (2, 1); (3, 1); (4, 1)]
           [0; 0; 0; 0])
    = Some (res, s) /\
    consistent sized_op sized_updVal 4 s /\
    leaves sized_updVal s
    = ref_state sized_updVal [CallUpdate 0 4 10; CallQuery 1 3; CallUpdate 1 2 5]
        (unit_elems [1; 2; 3; 4]) /\
    (forall q, 1 <= q < 2 * 4 -> cleared 0 s (q / 2) ->
       tr s q = node_value sized_updVal s q).
Proof.
  destruct sized_laws as (H1 & H2 & H3 & H4 & H5 & H6).
  apply (DenseExec.C4_nodes_stand_for_updated_elements
           sized_op sized_updVal plain_updLazy Z.eqb 4 (0, 0) 0
           eq_refl H1 H2 H3 H4 H5 H6 (0, 0) (unit_elems [1; 2; 3; 4])).
  - lia.
  - right. split; [reflexivity | vm_compute; reflexivity].
  - repeat constructor; cbn; lia.
Defined.

(** Maximum under assignment on a tree of size 2: with the queries put
    before the updates, [Update(0, 2, 5)], [Update(0, 1, 7)], [Query(0, 1)]
    ends with the answer 7. *)
Lemma guarded_updates_refine_witness :
  results Nat.max Assignment.set_to Assignment.latest Assignment.same
    (guarded [CallUpdate 0 2 (Some 5%nat); CallUpdate 0 1 (Some 7%nat); CallQuery 0 1])
    (Some (from_size 2 0%nat None))
  = Some [0%nat; 5%nat; 7%nat].
Proof.
  apply (DenseExec.guarded_updates_refine Nat.max Assignment.set_to
           Assignment.latest Assignment.same 2 0%nat None
           ltac:(reflexivity)
           ltac:(intros; lia)
           ltac:(intros; reflexivity)
           ltac:(intros x a [b|]; reflexivity)
           ltac:(intros x y [u|]; cbn; lia)
           ltac:(intros a H; exact (bool_decide_eq_true_1 _ H))
           ltac:(intros; lia)
           ltac:(intros; reflexivity)
           0%nat (replicate (Z.to_nat 2) 0%nat)
           [CallUpdate 0 2 (Some 5%nat); CallUpdate 0 1 (Some 7%nat); CallQuery 0 1]
           (from_size 2 0%nat None)).
  - lia.
  - left. split; reflexivity.
  - repeat constructor; cbn; lia.
Defined.

(** ** The sparse tree answers as the reference array does *)

Module SparseRefine.
Import Sparse Refinement SparseShape.

Section SparseRefine.
Context {T U : Type}.
Variable op : T -> T -> T.
Variable updVal : T -> U -> T.
Variable updLazy : U -> U -> U.
Variable U_eqb : U -> U -> bool.
Variable io : T.
Variable iu : U.

Hypothesis op_assoc : forall x y z, op (op x y) z = op x (op y z).
Hypothesis op_identity_l : forall x, op io x = x.
Hypothesis op_identity_r : forall x, op x io = x.
Hypothesis upd_id : forall x, updVal x iu = x.
Hypothesis compat : forall x a b, updVal x (updLazy a b) = updVal (updVal x a) b.
Hypothesis distr : forall x y u, updVal (op x y) u = op (updVal x u) (updVal y u).
Hypothesis U_eqb_sound : forall a, U_eqb a iu = true -> a = iu.

Local Abbreviation tree := (DynamicSegmentTree (T:=T) (U:=U)).
Local Abbreviation cb := (callback updVal updLazy).
Local Abbreviation Query := (Query op cb U_eqb).
Local Abbreviation Update := (Update op cb U_eqb).
Local Abbreviation Propagate := (Propagate cb U_eqb).
Local Abbreviation shaped := (shaped io iu).
Local Abbreviation sound := (sound op updVal io).
Local Abbreviation elem := (elem updVal io).
Local Abbreviation stored := (stored io).
Local Abbreviation combine := (combine_from op io).
Local Abbreviation good t := (shaped t /\ sound t).

Lemma new_node_good (s e : Z) :
  0 <= s -> s <= e -> e < 2 ^ 62 -> good (new_node s e io iu).
Proof.
  intros Hs Hse He. split.
  - by apply (new_node_shaped op cb U_eqb).
  - cbn. by rewrite upd_id.
Qed.

Lemma good_not_null (t : tree) : good t -> t <> nullptr.
Proof. intros [H _] ->. exact H. Qed.

Lemma value_of_good (t : tree) : good t -> value_of t = Done (stored t).
Proof. intros [H _]. by destruct t. Qed.

Lemma elem_Node (s e m : Z) (io' : T) (iu' : U) (val : T) (lz : U) (l r : tree) i :
  l <> nullptr ->
  elem (Node s e m io' iu' val lz l r) i
  = updVal (if decide (i <= m) then elem l i else elem r i) lz.
Proof. intros Hl. by destruct l. Qed.

Lemma sound_Node (s e m : Z) (io' : T) (iu' : U) (val : T) (lz : U) (l r : tree) :
  l <> nullptr -> val = updVal (op (stored l) (stored r)) lz ->
  sound l -> sound r -> sound (Node s e m io' iu' val lz l r).
Proof. intros Hl Hv Hsl Hsr. by destruct l. Qed.

(** What the callback does to a child it is handed with [u]. *)
Lemma push_into_good (c : tree) (u : U) :
  good c ->
  exists c' : tree,
    push_into cb c u = Done c' /\ good c' /\
    start_of c' = start_of c /\ end_of c' = end_of c /\
    stored c' = updVal (stored c) u /\
    forall i, elem c' i = updVal (elem c i) u.
Proof.
  intros [Hsh Hso].
  destruct c as [|s e m io' iu' val lz l r]; [done|].
  cbn [push_into]. unfold callback. eexists. split; [reflexivity|].
  split; [split; [exact Hsh|]|].
  - cbn [Refinement.sound] in *. destruct Hso as (Hv & Hl & Hr).
    split; [|done]. destruct l; rewrite Hv; by rewrite compat.
  - repeat split. intros i. cbn [Refinement.elem].
    destruct l; [done | by rewrite compat].
Qed.

(** [Propagate] on a node over more than one index: the node gets
    children, its tag goes to them, and it stands for the same
    elements. *)
Lemma Propagate_good (s e m : Z) (io' : T) (iu' : U) (val : T) (lz : U) (l r : tree) :
  good (Node s e m io' iu' val lz l r) -> s < e ->
  exists l' r' : tree,
    Propagate (Node s e m io' iu' val lz l r)
      = Done (Node s e m io' iu' val iu l' r') /\
    good l' /\ good r' /\
    start_of l' = s /\ end_of l' = m /\ start_of r' = m + 1 /\ end_of r' = e /\
    val = op (stored l') (stored r') /\
    forall i, elem (Node s e m io' iu' val lz l r) i
              = if decide (i <= m) then elem l' i else elem r' i.
Proof.
  intros [Hsh Hso] Hse.
  assert (Hm : s <= (s + e) / 2 < e) by lia.
  assert (exists l0 r0 : tree,
            Propagate (Node s e m io' iu' val lz l r)
              = (if U_eqb lz iu then Done (Node s e m io' iu' val lz l0 r0)
                 else obind (push_into cb l0 lz) (fun l' =>
                      obind (push_into cb r0 lz) (fun r' =>
                      Done (Node s e m io' iu' val iu l' r')))) /\
            good l0 /\ good r0 /\
            start_of l0 = s /\ end_of l0 = m /\ start_of r0 = m + 1 /\ end_of r0 = e /\
            val = updVal (op (stored l0) (stored r0)) lz /\
            forall i, elem (Node s e m io' iu' val lz l r) i
                      = updVal (if decide (i <= m) then elem l0 i else elem r0 i) lz)
    as (l0 & r0 & E & Hl0 & Hr0 & Hl1 & Hl2 & Hr1 & Hr2 & Hval & Helem).
  { destruct l as [|ls le lm lio liu lval llz ll lr];
      destruct r as [|rs re rm rio riu rval rlz rl rr]; cbn in Hsh;
      try (exfalso; tauto).
    - destruct Hsh as (-> & -> & Hs & _ & He & -> & _).
      cbn in Hso. destruct Hso as (Hv & _ & _).
      exists (new_node s ((s + e) / 2) io iu), (new_node ((s + e) / 2 + 1) e io iu).
      split.
      { cbn [Sparse.Propagate]. by rewrite (wrap64_small ((s + e) / 2 + 1)) by lia. }
      split; [apply new_node_good; lia|].
      split; [apply new_node_good; lia|].
      repeat split.
      + cbn. by rewrite op_identity_l.
      + intros i. cbn. by destruct (decide (i <= (s + e) / 2)).
    - destruct Hsh as (-> & -> & Hs & _ & He & -> & _ & -> & -> & -> & -> & Hl & Hr).
      cbn [Refinement.sound] in Hso. destruct Hso as (Hv & Hsl & Hsr).
      eexists _, _. split; [cbn [Sparse.Propagate]; reflexivity|].
      split; [by split|]. split; [by split|].
      split; [done|]. split; [done|]. split; [done|]. split; [done|].
      split; [exact Hv|]. intros i. reflexivity. }
  rewrite E. clear E.
  destruct (U_eqb lz iu) eqn:Heq.
  - apply U_eqb_sound in Heq. subst lz.
    exists l0, r0.
    split; [done|]. split; [done|]. split; [done|].
    split; [done|]. split; [done|]. split; [done|]. split; [done|].
    split; [by rewrite Hval, upd_id|].
    intros i. by rewrite Helem, upd_id.
  - destruct (push_into_good l0 lz Hl0) as (l' & -> & Hl' & El1 & El2 & Els & Ele).
    destruct (push_into_good r0 lz Hr0) as (r' & -> & Hr' & Er1 & Er2 & Ers & Ere).
    cbn [obind]. exists l', r'.
    split; [done|]. split; [done|]. split; [done|].
    split; [congruence|]. split; [congruence|].
    split; [congruence|]. split; [congruence|].
    split; [by rewrite Hval, distr, Els, Ers|].
    intros i. rewrite Helem. destruct (decide (i <= m)); by rewrite ?Ele, ?Ere.
Qed.

(** The stored aggregate is the combination of the elements the node
    stands for. *)
Lemma stored_combine (t : tree) :
  good t ->
  stored t
  = combine (elem t) (start_of t) (Z.to_nat (end_of t - start_of t + 1)).
Proof.
  induction t as [|s e m io' iu' val lz l IHl r IHr]; intros [Hsh Hso]; [done|].
  cbn [Refinement.stored start_of end_of].
  destruct l as [|ls le lm lio liu lval llz ll lr];
    destruct r as [|rs re rm rio riu rval rlz rl rr]; cbn in Hsh;
    try (exfalso; tauto).
  - destruct Hsh as (-> & -> & Hs & Hse & He & -> & _).
    cbn in Hso. destruct Hso as (Hv & _ & _).
    rewrite (CombineFacts.combine_from_ext op io op_assoc op_identity_l
               op_identity_r _ (fun _ => val)) by done.
    rewrite (CombineFacts.combine_from_const op io op_assoc op_identity_l
               op_identity_r) by (try lia; by rewrite Hv, <- distr, op_identity_l).
    done.
  - destruct Hsh as (-> & -> & Hs & Hse & He & -> & Hlt & -> & -> & -> & -> & Hl & Hr).
    cbn [Refinement.sound] in Hso. destruct Hso as (Hv & Hsl & Hsr).
    specialize (IHl (conj Hl Hsl)). specialize (IHr (conj Hr Hsr)).
    cbn [start_of end_of] in IHl, IHr.
    set (m := (s + e) / 2) in *.
    set (L := Node s m lm lio liu lval llz ll lr) in *.
    set (R := Node (m + 1) e rm rio riu rval rlz rl rr) in *.
    replace (Z.to_nat (e - s + 1))
      with (Z.to_nat (m - s + 1) + Z.to_nat (e - (m + 1) + 1))%nat by lia.
    rewrite (CombineFacts.combine_from_app op io op_assoc op_identity_l
               op_identity_r).
    replace (s + Z.of_nat (Z.to_nat (m - s + 1))) with (m + 1) by lia.
    rewrite (CombineFacts.combine_from_ext op io op_assoc op_identity_l
               op_identity_r _ (fun i => updVal (elem L i) lz) _ s).
    2:{ intros i Hi. cbn [Refinement.elem]. fold L. by rewrite decide_True by lia. }
    rewrite (CombineFacts.combine_from_ext op io op_assoc op_identity_l
               op_identity_r _ (fun i => updVal (elem R i) lz) _ (m + 1)).
    2:{ intros i Hi. cbn [Refinement.elem]. fold R. by rewrite decide_False by lia. }
    rewrite <- !(CombineFacts.combine_from_map op io op_assoc op_identity_l
                   op_identity_r (fun x => updVal x lz))
      by ((intros; apply distr) || lia).
    rewrite <- IHl, <- IHr. by rewrite Hv, distr.
Qed.

(** [Update] applies the update to the elements of the range and to no
    other element. *)
Lemma Update_good (fuel : nat) : forall (t : tree) (lo hi : Z) (u : U),
  good t -> (depth_bound (start_of t) (end_of t) <= fuel)%nat ->
  exists t' : tree,
    Update fuel t lo hi u = Done t' /\ good t' /\
    start_of t' = start_of t /\ end_of t' = end_of t /\
    forall i, start_of t <= i <= end_of t ->
      elem t' i = if decide (lo <= i <= hi) then updVal (elem t i) u else elem t i.
Proof.
  induction fuel as [|fuel IH]; intros t lo hi u Ht Hfuel.
  { unfold depth_bound in Hfuel. lia. }
  pose proof Ht as [Hsh Hso].
  destruct (shaped_node_inv op cb U_eqb io iu t Hsh)
    as (s & e & val & lz & l & r & -> & Hs & Hse & He).
  cbn [start_of end_of] in *. cbn [Sparse.Update].
  destruct (decide (hi < s \/ e < lo)) as [Hdis|Hdis].
  { eexists. split; [reflexivity|]. split; [done|]. split; [done|]. split; [done|].
    intros i Hi. by rewrite decide_False by lia. }
  destruct (decide (lo <= s /\ e <= hi)) as [Hcov|Hcov].
  { destruct (push_into_good _ u Ht) as (t' & E & Ht' & E1 & E2 & _ & Hel).
    cbn [push_into] in E. unfold callback in *.
    eexists. split; [exact E|]. split; [done|]. split; [done|]. split; [done|].
    intros i Hi. rewrite decide_True by lia. apply Hel. }
  assert (Hlt : s < e) by lia.
  destruct (Propagate_good _ _ _ _ _ _ _ _ _ Ht Hlt)
    as (l1 & r1 & -> & Hl1 & Hr1 & Hl1s & Hl1e & Hr1s & Hr1e & Hval & Hel).
  cbn [obind].
  pose proof (depth_bound_left s e Hlt). pose proof (depth_bound_right s e Hlt).
  destruct (IH l1 lo hi u Hl1) as (l2 & -> & Hl2 & Hl2s & Hl2e & Hel2).
  { rewrite Hl1s, Hl1e. lia. }
  destruct (IH r1 lo hi u Hr1) as (r2 & -> & Hr2 & Hr2s & Hr2e & Her2).
  { rewrite Hr1s, Hr1e. lia. }
  cbn [obind]. rewrite (value_of_good l2), (value_of_good r2) by done.
  cbn [obind].
  eexists. split; [reflexivity|].
  destruct Hsh as (Eio & Eiu & _).
  pose proof (good_not_null _ Hl2) as Hnl.
  split; [split|].
  - apply (shaped_children op cb U_eqb);
      [exact Hs | exact Hlt | exact He | reflexivity | reflexivity | reflexivity
      | exact (proj1 Hl2) | exact (proj1 Hr2)
      | congruence | congruence | congruence | congruence].
  - apply sound_Node; [done | by rewrite upd_id | exact (proj2 Hl2) | exact (proj2 Hr2)].
  - split; [done|]. split; [done|].
    intros i Hi. rewrite Hel, elem_Node, upd_id by done.
    destruct (decide (i <= (s + e) / 2)).
    + apply Hel2. rewrite Hl1s, Hl1e. lia.
    + apply Her2. rewrite Hr1s, Hr1e. lia.
Qed.

(** [Query] returns the combination of the elements of the range that lie
    in the node, and the node goes on standing for the same elements. *)
Lemma Query_good (fuel : nat) : forall (t : tree) (lo hi : Z),
  good t -> lo <= hi -> (depth_bound (start_of t) (end_of t) <= fuel)%nat ->
  exists t' : tree,
    Query fuel t lo hi
    = Done (combine (elem t) (Z.max lo (start_of t))
              (Z.to_nat (Z.min hi (end_of t) - Z.max lo (start_of t) + 1)), t') /\
    good t' /\ start_of t' = start_of t /\ end_of t' = end_of t /\
    stored t' = stored t /\
    forall i, start_of t <= i <= end_of t -> elem t' i = elem t i.
Proof.
  induction fuel as [|fuel IH]; intros t lo hi Ht Hlh Hfuel.
  { unfold depth_bound in Hfuel. lia. }
  pose proof Ht as [Hsh Hso].
  destruct (shaped_node_inv op cb U_eqb io iu t Hsh)
    as (s & e & val & lz & l & r & -> & Hs & Hse & He).
  cbn [start_of end_of] in *. cbn [Sparse.Query].
  destruct (decide (hi < s \/ e < lo)) as [Hdis|Hdis].
  { eexists. split; [|done].
    by replace (Z.to_nat (Z.min hi e - Z.max lo s + 1)) with 0%nat by lia. }
  destruct (decide (lo <= s /\ e <= hi)) as [Hcov|Hcov].
  { eexists. split; [|done].
    replace (Z.max lo s) with s by lia. replace (Z.min hi e) with e by lia.
    pose proof (stored_combine _ Ht) as Hsc.
    cbn [Refinement.stored start_of end_of] in Hsc. by rewrite <- Hsc. }
  assert (Hlt : s < e) by lia.
  destruct (Propagate_good _ _ _ _ _ _ _ _ _ Ht Hlt)
    as (l1 & r1 & -> & Hl1 & Hr1 & Hl1s & Hl1e & Hr1s & Hr1e & Hval & Hel).
  cbn [obind].
  pose proof (depth_bound_left s e Hlt). pose proof (depth_bound_right s e Hlt).
  destruct (IH l1 lo hi Hl1 Hlh) as (l2 & -> & Hl2 & Hl2s & Hl2e & Hl2v & Hel2).
  { rewrite Hl1s, Hl1e. lia. }
  destruct (IH r1 lo hi Hr1 Hlh) as (r2 & -> & Hr2 & Hr2s & Hr2e & Hr2v & Her2).
  { rewrite Hr1s, Hr1e. lia. }
  cbn [obind fst snd].
  rewrite Hl1s, Hl1e, Hr1s, Hr1e.
  set (m := (s + e) / 2) in *.
  eexists. split; [f_equal; f_equal|].
  - set (a := Z.max lo s). set (b := Z.min hi e).
    rewrite (CombineFacts.combine_from_ext op io op_assoc op_identity_l
               op_identity_r (elem (Node _ _ _ _ _ _ _ _ _))
               (fun i => if decide (i <= m) then elem l1 i else elem r1 i))
      by (intros; apply Hel).
    destruct (decide (hi <= m)) as [Hhm|Hhm];
      [|destruct (decide (m < lo)) as [Hml|Hml]].
    + replace (Z.to_nat (b - Z.max lo (m + 1) + 1)) with 0%nat by lia.
      cbn [combine_from]. rewrite op_identity_r.
      replace (Z.min hi m) with b by lia.
      apply (CombineFacts.combine_from_ext op io op_assoc op_identity_l
               op_identity_r).
      intros i Hi. by rewrite decide_True by lia.
    + replace (Z.to_nat (Z.min hi m - a + 1)) with 0%nat by lia.
      cbn [combine_from]. rewrite op_identity_l.
      replace (Z.max lo (m + 1)) with a by lia.
      apply (CombineFacts.combine_from_ext op io op_assoc op_identity_l
               op_identity_r).
      intros i Hi. by rewrite decide_False by lia.
    + replace (Z.to_nat (b - a + 1))
        with (Z.to_nat (Z.min hi m - a + 1) + Z.to_nat (b - Z.max lo (m + 1) + 1))%nat
        by lia.
      rewrite (CombineFacts.combine_from_app op io op_assoc op_identity_l
                 op_identity_r).
      replace (a + Z.of_nat (Z.to_nat (Z.min hi m - a + 1)))
        with (Z.max lo (m + 1)) by lia.
      f_equal;
        apply (CombineFacts.combine_from_ext op io op_assoc op_identity_l
                 op_identity_r);
        intros i Hi; [by rewrite decide_True by lia | by rewrite decide_False by lia].
  - destruct Hsh as (Eio & Eiu & _).
    pose proof (good_not_null _ Hl2) as Hnl.
    split; [split|].
    + apply (shaped_children op cb U_eqb);
        [exact Hs | exact Hlt | exact He | reflexivity | reflexivity | reflexivity
        | exact (proj1 Hl2) | exact (proj1 Hr2)
        | congruence | congruence | congruence | congruence].
    + apply sound_Node; [done | by rewrite upd_id, Hl2v, Hr2v
                         | exact (proj2 Hl2) | exact (proj2 Hr2)].
    + split; [done|]. split; [done|]. split; [done|].
      intros i Hi. rewrite Hel, elem_Node, upd_id by done.
      destruct (decide (i <= m)).
      * apply Hel2. rewrite Hl1s, Hl1e. lia.
      * apply Her2. rewrite Hr1s, Hr1e. lia.
Qed.

(** *** Sequences of calls *)

Variable N : Z.

Local Abbreviation stands_for := (stands_for op updVal io iu N).

Lemma new_node_stands_for :
  1 <= N -> N <= 2 ^ 62 ->
  stands_for (new_node 0 (N - 1) io iu) (replicate (Z.to_nat N) io).
Proof.
  intros HN Hmax.
  destruct (new_node_good 0 (N - 1)) as [Hsh Hso]; [lia | lia | lia|].
  split; [done|]. split; [done|]. split; [done|]. split; [done|].
  split; [rewrite length_replicate; lia|].
  intros i Hi. cbn. apply lookup_replicate_2. lia.
Qed.

Lemma sparse_run_refines (fuel : nat) (cs : list (Dense.call (U:=U))) :
  forall (t : tree) (a : list T),
    Forall (Dense.nonempty_call N) cs -> stands_for t a ->
    (depth_bound 0 (N - 1) <= fuel)%nat ->
    exists t' : tree,
      Sparse.run op cb U_eqb fuel (inclusive <$> cs) t
      = Done (Dense.ref_run op updVal io cs a, t') /\
      stands_for t' (Dense.ref_state updVal cs a).
Proof.
  induction cs as [|c cs IH]; intros t a Hcs Hrep Hfuel; [by exists t|].
  inversion Hcs as [|c' cs' Hc Hcs']; subst c' cs'; clear Hcs; rename Hcs' into Hcs.
  destruct Hrep as (Hsh & Hso & Hts & Hte & Hlen & Ha).
  destruct c as [l r u|l r]; destruct Hc as (Hl & Hlr & Hr);
    cbn [fmap list_fmap inclusive Sparse.run Dense.ref_run Dense.ref_state].
  - destruct (Update_good fuel t l (r - 1) u (conj Hsh Hso))
      as (t' & -> & [Hsh' Hso'] & Hts' & Hte' & Hel); [rewrite Hts, Hte; lia|].
    cbn [obind]. apply IH; [done | | done].
    split; [done|]. split; [done|]. split; [congruence|]. split; [congruence|].
    unfold Dense.ref_update. split; [by rewrite length_imap|].
    intros i Hi. rewrite list_lookup_imap, Ha by done. cbn.
    rewrite Hel by (rewrite Hts, Hte; lia). f_equal.
    repeat case_decide; (done || lia).
  - destruct (Query_good fuel t l (r - 1) (conj Hsh Hso))
      as (t' & -> & [Hsh' Hso'] & Hts' & Hte' & _ & Hel);
      [lia | rewrite Hts, Hte; lia|].
    cbn [obind fst snd].
    destruct (IH t' a Hcs) as (t'' & -> & Hrep''); [|done|].
    { split; [done|]. split; [done|]. split; [congruence|]. split; [congruence|].
      split; [done|]. intros i Hi. rewrite Ha by done. f_equal. symmetry.
      apply Hel. rewrite Hts, Hte. lia. }
    cbn [obind fst snd]. exists t''. split; [|done].
    do 3 f_equal. unfold Dense.ref_query.
    rewrite (CombineFacts.combine_from_lookup op io op_assoc op_identity_l
               op_identity_r a (elem t)) by (try lia; intros i Hi; apply Ha; lia).
    rewrite Hts, Hte. f_equal; lia.
Qed.

(** The sparse tree over [0, N - 1], handed the callback that composes
    tags with [updLazy] and applies updates with [updVal], answers a
    sequence of calls on ranges that are not empty as the reference array
    of [N] copies of [identityOp] does. *)
Lemma sparse_refines (cs : list (Dense.call (U:=U))) :
  1 <= N -> N <= 2 ^ 62 -> Forall (Dense.nonempty_call N) cs ->
  exists t' : tree,
    Sparse.run op cb U_eqb (depth_bound 0 (N - 1)) (inclusive <$> cs)
      (new_node 0 (N - 1) io iu)
    = Done (Dense.ref_run op updVal io cs (replicate (Z.to_nat N) io), t').
Proof.
  intros HN Hmax Hcs.
  destruct (sparse_run_refines (depth_bound 0 (N - 1)) cs _ _ Hcs
              (new_node_stands_for HN Hmax)) as (t' & E & _); [lia|].
  by exists t'.
Qed.

End SparseRefine.
End SparseRefine.

(** ** Further properties of the sparse tree *)

Module SparseProperties.
Import Sparse SparseShape.

(** *** Clear and the destructor *)

Section Clear.
Context {T U : Type}.

Local Abbreviation tree := (DynamicSegmentTree (T:=T) (U:=U)).

Lemma Clear_node (fuel : nat) : forall (s e m : Z) (io : T) (iu : U) (val : T)
    (lz : U) (l r : tree),
  (nodes (Node s e m io iu val lz l r) <= fuel)%nat ->
  Clear fuel (Node s e m io iu val lz l r)
  = Done (Node s e m io iu val lz nullptr nullptr, (nodes l + nodes r)%nat).
Proof.
  induction fuel as [|fuel IH]; intros s e m io iu val lz l r Hfuel;
    [cbn in Hfuel; lia|].
  cbn [nodes] in Hfuel.
  assert (Hchild : forall p : tree, (nodes p <= fuel)%nat ->
            match p with
            | nullptr => Done O
            | Node _ _ _ _ _ _ _ _ _ =>
                obind (Clear fuel p) (fun a =>
                obind (Clear fuel (fst a)) (fun b =>
                Done (S (snd a + snd b))))
            end = Done (nodes p)).
  { intros [|ps pe pm pio piu pval plz pl pr] Hp; [done|].
    rewrite IH by done. cbn [obind fst snd].
    rewrite IH by (cbn in Hp |- *; lia). cbn [obind fst snd nodes].
    f_equal. lia. }
  cbn [Clear]. rewrite !Hchild by lia. done.
Qed.

(** [Clear] frees every node below the one it is called on, each once,
    keeps the fields of the node and leaves it without children; called
    again, as the destructor does after an explicit [Clear], it frees
    nothing. *)
Theorem Clear_frees_all_descendants (fuel : nat) (s e m : Z) (io : T) (iu : U)
    (val : T) (lz : U) (l r : tree) :
  (nodes (Node s e m io iu val lz l r) <= fuel)%nat ->
  Clear fuel (Node s e m io iu val lz l r)
  = Done (Node s e m io iu val lz nullptr nullptr, (nodes l + nodes r)%nat) /\
  Clear fuel (Node s e m io iu val lz nullptr nullptr)
  = Done (Node s e m io iu val lz nullptr nullptr, O).
Proof.
  intros Hfuel. split; [by apply Clear_node|].
  rewrite Clear_node; [done|]. cbn in Hfuel |- *. lia.
Qed.

End Clear.

(** *** Nodes allocated by a call *)

Section Allocation.
Context {T U : Type}.
Variable op : T -> T -> T.
Variable updLazy : U -> T -> U -> Z -> Z -> U * T.
Variable U_eqb : U -> U -> bool.
Variable io : T.
Variable iu : U.

Local Abbreviation tree := (DynamicSegmentTree (T:=T) (U:=U)).
Local Abbreviation Query := (Query op updLazy U_eqb).
Local Abbreviation Update := (Update op updLazy U_eqb).
Local Abbreviation Propagate := (Propagate updLazy U_eqb).
Local Abbreviation shaped := (shaped io iu).

(** Levels below a node over [s, e]. *)
Local Abbreviation levels s e := (Z.to_nat (Z.log2_up (e - s + 1))).

(** Nodes a call on [lo, hi] may allocate per level below a node over
    [s, e]: none when the range misses or covers the node, two when it
    reaches one end of the node, four otherwise. *)
Local Abbreviation per_level lo hi s e :=
  (if decide (hi < s \/ e < lo)%Z then 0%nat
   else if decide (lo <= s /\ e <= hi)%Z then 0%nat
   else if decide (lo <= s \/ e <= hi)%Z then 2%nat else 4%nat).



Lemma push_into_nodes (p p' : tree) (v : U) :
  push_into updLazy p v = Done p' -> nodes p' = nodes p.
Proof.
  destruct p as [|s e m io' iu' val lz l r]; [done|].
  cbn [push_into]. destruct (updLazy lz val v s e) as [lz' val'].
  by intros [= <-].
Qed.






End Allocation.

(** *** A callback that leaves the aggregate alone *)

Section Unchanged.
Context {T U : Type}.
Variable op : T -> T -> T.
Variable updLazy : U -> T -> U -> Z -> Z -> U * T.
Variable U_eqb : U -> U -> bool.
Variable io : T.
Variable iu : U.
Hypothesis op_identity : op io io = io.
Hypothesis callback_keeps : forall lz val v s e, snd (updLazy lz val v s e) = val.

Local Abbreviation tree := (DynamicSegmentTree (T:=T) (U:=U)).
Local Abbreviation Query := (Query op updLazy U_eqb).
Local Abbreviation Update := (Update op updLazy U_eqb).
Local Abbreviation Propagate := (Propagate updLazy U_eqb).
Local Abbreviation shaped := (shaped io iu).
Local Abbreviation still := (all_values io).

Lemma push_into_still (p p' : tree) (v : U) :
  still p -> push_into updLazy p v = Done p' -> still p'.
Proof.
  destruct p as [|s e m io' iu' val lz l r]; [done|].
  cbn [push_into]. pose proof (callback_keeps lz val v s e) as Hk.
  destruct (updLazy lz val v s e) as [lz' val']. cbn in Hk. subst val'.
  by intros H [= <-].
Qed.

Lemma Propagate_still (s e m : Z) (io' : T) (iu' : U) (val : T) (lz lz' : U)
    (l r l' r' : tree) :
  shaped (Node s e m io' iu' val lz l r) -> still (Node s e m io' iu' val lz l r) ->
  Propagate (Node s e m io' iu' val lz l r) = Done (Node s e m io' iu' val lz' l' r') ->
  still l' /\ still r'.
Proof.
  intros Hsh (_ & Hl & Hr).
  assert (io' = io) as -> by (cbn in Hsh; tauto).
  destruct l as [|ls le lm lio liu lval llz ll lr];
    destruct r as [|rs re rm rio riu rval rlz rl rr]; cbn in Hsh;
    try (exfalso; tauto); cbn [Sparse.Propagate].
  - destruct (U_eqb lz iu'); [by intros [= _ <- <-]|].
    destruct (push_into updLazy (new_node s m io iu') lz) as [l1| |] eqn:E1;
      cbn [obind]; try done.
    destruct (push_into updLazy (new_node _ e io iu') lz) as [r1| |] eqn:E2;
      cbn [obind]; try done.
    intros [= _ <- <-].
    split; [eapply push_into_still; [|exact E1] | eapply push_into_still; [|exact E2]];
      done.
  - destruct (U_eqb lz iu'); [by intros [= _ <- <-]|].
    destruct (push_into updLazy (Node ls le lm lio liu lval llz ll lr) lz)
      as [l1| |] eqn:E1; cbn [obind]; try done.
    destruct (push_into updLazy (Node rs re rm rio riu rval rlz rl rr) lz)
      as [r1| |] eqn:E2; cbn [obind]; try done.
    intros [= _ <- <-].
    split; [eapply push_into_still; [|exact E1] | eapply push_into_still; [|exact E2]];
      done.
Qed.

Lemma Update_still (fuel : nat) : forall (t t' : tree) (lo hi : Z) (u : U),
  shaped t -> still t -> Update fuel t lo hi u = Done t' -> still t'.
Proof.
  induction fuel as [|fuel IH]; intros t t' lo hi u Ht Hst; [done|].
  destruct (shaped_node_inv op updLazy U_eqb io iu t Ht)
    as (s & e & val & lz & l & r & -> & Hs & Hse & He).
  cbn [Sparse.Update].
  destruct (decide (hi < s \/ e < lo)) as [Hdis|Hdis]; [by intros [= <-]|].
  destruct (decide (lo <= s /\ e <= hi)) as [Hcov|Hcov].
  { pose proof (callback_keeps lz val u s e) as Hk.
    destruct (updLazy lz val u s e) as [lz' val']. cbn in Hk. subst val'.
    by intros [= <-]. }
  assert (Hlt : s < e) by lia.
  destruct (Propagate_shaped op updLazy U_eqb io iu _ _ _ _ _ _ _ _ _ Ht Hlt)
    as (lz' & l' & r' & Hprop & Hl & Hr & _).
  destruct (Propagate_still _ _ _ _ _ _ _ _ _ _ _ _ Ht Hst Hprop) as [Hsl Hsr].
  rewrite Hprop. cbn [obind].
  destruct (Update fuel l' lo hi u) as [l''| |] eqn:El; cbn [obind]; try done.
  destruct (Update fuel r' lo hi u) as [r''| |] eqn:Er; cbn [obind]; try done.
  pose proof (IH l' l'' lo hi u Hl Hsl El) as Hl''.
  pose proof (IH r' r'' lo hi u Hr Hsr Er) as Hr''.
  destruct l'' as [|ls le lm lio liu a llz ll lr]; cbn [value_of obind]; try done.
  destruct r'' as [|rs re rm rio riu b rlz rl rr]; cbn [value_of obind]; try done.
  intros [= <-].
  pose proof (proj1 Hl''). pose proof (proj1 Hr''). subst a b.
  cbn [all_values]. by rewrite op_identity.
Qed.

Lemma Query_still (fuel : nat) : forall (t t' : tree) (lo hi : Z) (x : T),
  shaped t -> still t -> Query fuel t lo hi = Done (x, t') -> x = io /\ still t'.
Proof.
  induction fuel as [|fuel IH]; intros t t' lo hi x Ht Hst; [done|].
  destruct (shaped_node_inv op updLazy U_eqb io iu t Ht)
    as (s & e & val & lz & l & r & -> & Hs & Hse & He).
  cbn [Sparse.Query].
  destruct (decide (hi < s \/ e < lo)) as [Hdis|Hdis]; [by intros [= <- <-]|].
  destruct (decide (lo <= s /\ e <= hi)) as [Hcov|Hcov].
  { intros [= <- <-]. split; [apply Hst | done]. }
  assert (Hlt : s < e) by lia.
  destruct (Propagate_shaped op updLazy U_eqb io iu _ _ _ _ _ _ _ _ _ Ht Hlt)
    as (lz' & l' & r' & Hprop & Hl & Hr & _).
  destruct (Propagate_still _ _ _ _ _ _ _ _ _ _ _ _ Ht Hst Hprop) as [Hsl Hsr].
  rewrite Hprop. cbn [obind].
  destruct (Query fuel l' lo hi) as [[a l'']| |] eqn:El; cbn [obind]; try done.
  destruct (Query fuel r' lo hi) as [[b r'']| |] eqn:Er; cbn [obind]; try done.
  cbn [fst snd]. intros [= <- <-].
  destruct (IH l' l'' lo hi a Hl Hsl El) as [-> Hl''].
  destruct (IH r' r'' lo hi b Hr Hsr Er) as [-> Hr''].
  split; [exact op_identity|]. cbn [all_values]. split; [apply Hst | done].
Qed.

Lemma run_still (fuel : nat) (cs : list call) : forall (t t' : tree) (xs : list T),
  shaped t -> (depth_bound (start_of t) (end_of t) <= fuel)%nat -> still t ->
  run op updLazy U_eqb fuel cs t = Done (xs, t') ->
  xs = replicate (queries cs) io.
Proof.
  induction cs as [|[lo hi u|lo hi] cs IH]; intros t t' xs Ht Hfuel Hst; cbn [run queries].
  - by intros [= <- _].
  - destruct (Update_shaped op updLazy U_eqb io iu fuel t lo hi u Ht Hfuel)
      as (t1 & E & Ht1 & E1 & E2).
    rewrite E. cbn [obind]. intros Hrun.
    apply (IH t1 t' xs Ht1 ltac:(by rewrite E1, E2)); [|done].
    by apply (Update_still fuel t t1 lo hi u).
  - destruct (Query_shaped op updLazy U_eqb io iu fuel t lo hi Ht Hfuel)
      as (x & t1 & E & Ht1 & E1 & E2).
    rewrite E. cbn [obind fst snd].
    destruct (run op updLazy U_eqb fuel cs t1) as [[ys t2]| |] eqn:Erun;
      cbn [obind]; try done.
    cbn [fst snd]. intros [= <- _].
    destruct (Query_still fuel t t1 lo hi x Ht Hst E) as [-> Hst1].
    cbn [replicate]. f_equal.
    by apply (IH t1 t2 ys Ht1 ltac:(by rewrite E1, E2)).
Qed.

(** The sparse tree never calls [updVal]: an aggregate changes only where
    the five-argument callback writes its second argument.  With a callback
    that writes the tag alone, as the one of the documented example does,
    every query returns [identityOp], whatever was updated before. *)
Theorem callback_must_update_the_aggregate (s e : Z) (cs : list call) (fuel : nat) :
  0 <= s -> s <= e -> e < 2 ^ 62 -> (depth_bound s e <= fuel)%nat ->
  exists t,
    run op updLazy U_eqb fuel cs (new_node s e io iu)
    = Done (replicate (queries cs) io, t).
Proof.
  intros Hs Hse He Hfuel.
  pose proof (new_node_shaped op updLazy U_eqb io iu s e Hs Hse He) as Hsh.
  destruct (run_shaped op updLazy U_eqb io iu fuel cs _ Hsh Hfuel)
    as (xs & t & Hrun & _).
  exists t. rewrite Hrun. do 2 f_equal.
  apply (run_still fuel cs (new_node s e io iu) t xs Hsh Hfuel); done.
Qed.

End Unchanged.

(** *** An empty domain *)

Section Empty.
Context {T U : Type}.
Variable op : T -> T -> T.
Variable updLazy : U -> T -> U -> Z -> Z -> U * T.
Variable U_eqb : U -> U -> bool.

Local Abbreviation tree := (DynamicSegmentTree (T:=T) (U:=U)).



End Empty.

Import Algebra.

Lemma Clear_frees_all_descendants_witness :
  Clear 3 (Node 0 1 0 0 0 5 0 (Node 0 0 0 0 0 2 0 nullptr nullptr)
                              (Node 1 1 1 0 0 3 0 nullptr nullptr))
  = Done (Node 0 1 0 0 0 5 0 nullptr nullptr, 2%nat) /\
  Clear 3 (Node (T:=Z) (U:=Z) 0 1 0 0 0 5 0 nullptr nullptr)
  = Done (Node 0 1 0 0 0 5 0 nullptr nullptr, 0%nat).
Proof.
  apply (Clear_frees_all_descendants (T:=Z) (U:=Z) 3 0 1 0 0 0 5 0
           (Node 0 0 0 0 0 2 0 nullptr nullptr) (Node 1 1 1 0 0 3 0 nullptr nullptr)).
  vm_compute. lia.
Defined.


(** The calls of the documented example, with its callback: the three
    queries return 0. *)
Lemma callback_must_update_the_aggregate_witness :
  exists t,
    run plain_op readme_callback Z.eqb 4
        [CallUpdate 0 0 1; CallUpdate 1 1 2; CallUpdate 2 2 3; CallUpdate 3 3 4;
         CallUpdate 4 4 5; CallQuery 1 3; CallUpdate 1 3 10; CallQuery 1 3;
         CallQuery 2 2]
        (new_node 0 4 0 0)
    = Done ([0; 0; 0], t).
Proof.
  apply (callback_must_update_the_aggregate plain_op readme_callback Z.eqb 0 0
           ltac:(reflexivity) ltac:(intros; reflexivity) 0 4
           [CallUpdate 0 0 1; CallUpdate 1 1 2; CallUpdate 2 2 3; CallUpdate 3 3 4;
            CallUpdate 4 4 5; CallQuery 1 3; CallUpdate 1 3 10; CallQuery 1 3;
            CallQuery 2 2] 4).
  - lia.
  - lia.
  - reflexivity.
  - vm_compute. lia.
Defined.


End SparseProperties.

(** ** The sparse tree with a callback that uses the bounds, against the
    reference array *)

Module SparseRanged.
Import Sparse SparseShape Refinement Ranged.

Section SparseRanged.
Context {T U : Type}.
Variable op : T -> T -> T.
Variable updValN : T -> U -> Z -> T.
Variable updLazy : U -> U -> U.
Variable U_eqb : U -> U -> bool.
Variable io : T.
Variable iu : U.

Hypothesis op_assoc : forall x y z, op (op x y) z = op x (op y z).
Hypothesis op_identity_l : forall x, op io x = x.
Hypothesis op_identity_r : forall x, op x io = x.
Hypothesis upd_id : forall x n, 1 <= n -> updValN x iu n = x.
Hypothesis compat : forall x a b n, 1 <= n ->
  updValN x (updLazy a b) n = updValN (updValN x a n) b n.
Hypothesis distr : forall x y u n m, 1 <= n -> 1 <= m ->
  updValN (op x y) u (n + m) = op (updValN x u n) (updValN y u m).
Hypothesis U_eqb_sound : forall a, U_eqb a iu = true -> a = iu.

Local Abbreviation tree := (DynamicSegmentTree (T:=T) (U:=U)).
Local Abbreviation cb := (Ranged.callback updValN updLazy).
Local Abbreviation Query := (Query op cb U_eqb).
Local Abbreviation Update := (Update op cb U_eqb).
Local Abbreviation Propagate := (Propagate cb U_eqb).
Local Abbreviation shaped := (shaped io iu).
Local Abbreviation sound := (Ranged.sound op updValN io).
Local Abbreviation elem := (Ranged.elem updValN io).
Local Abbreviation upd1 := (on_element updValN).
Local Abbreviation stored := (stored io).
Local Abbreviation combine := (combine_from op io).
Local Abbreviation good t := (shaped t /\ sound t).
Local Abbreviation width t := (end_of t - start_of t + 1).

(** An update of [n] elements is the update of each. *)
Lemma combine_updated (f : Z -> T) (u : U) (n : nat) : forall x,
  (1 <= n)%nat ->
  updValN (combine f x n) u (Z.of_nat n) = combine (fun i => upd1 (f i) u) x n.
Proof.
  induction n as [|n IH]; intros x Hn; [lia|].
  cbn [combine_from]. destruct n as [|n].
  - cbn. by rewrite !op_identity_r.
  - replace (Z.of_nat (S (S n))) with (1 + Z.of_nat (S n)) by lia.
    rewrite distr by lia. by rewrite IH by lia.
Qed.

Lemma combine_fresh (u : U) (n : nat) (x : Z) :
  (1 <= n)%nat ->
  combine (fun _ => upd1 io u) x n = updValN io u (Z.of_nat n).
Proof.
  intros Hn. rewrite <- (combine_updated (fun _ => io)) by done.
  f_equal.
  apply (CombineFacts.combine_from_const op io op_assoc op_identity_l op_identity_r);
    [apply op_identity_l | done].
Qed.

Lemma ranged_new_node_good (s e : Z) :
  0 <= s -> s <= e -> e < 2 ^ 62 -> good (new_node s e io iu).
Proof.
  intros Hs Hse He. split.
  - by apply (new_node_shaped op cb U_eqb).
  - cbn. by rewrite upd_id by lia.
Qed.

Lemma ranged_good_not_null (t : tree) : good t -> t <> nullptr.
Proof. intros [H _] ->. exact H. Qed.

Lemma ranged_value_of_good (t : tree) : good t -> value_of t = Done (stored t).
Proof. intros [H _]. by destruct t. Qed.

Lemma good_width (t : tree) : good t -> 1 <= width t.
Proof.
  intros [H _].
  destruct (shaped_node_inv op cb U_eqb io iu t H)
    as (s & e & val & lz & l & r & -> & Hs & Hse & He).
  cbn. lia.
Qed.

Lemma ranged_elem_Node (s e m : Z) (io' : T) (iu' : U) (val : T) (lz : U) (l r : tree) i :
  l <> nullptr ->
  elem (Node s e m io' iu' val lz l r) i
  = upd1 (if decide (i <= m) then elem l i else elem r i) lz.
Proof. intros Hl. by destruct l. Qed.

Lemma ranged_sound_Node (s e m : Z) (io' : T) (iu' : U) (val : T) (lz : U) (l r : tree) :
  l <> nullptr -> val = updValN (op (stored l) (stored r)) lz (e - s + 1) ->
  sound l -> sound r -> sound (Node s e m io' iu' val lz l r).
Proof. intros Hl Hv Hsl Hsr. by destruct l. Qed.

(** What the callback does to a child it is handed with [u]. *)
Lemma ranged_push_into_good (c : tree) (u : U) :
  good c ->
  exists c' : tree,
    push_into cb c u = Done c' /\ good c' /\
    start_of c' = start_of c /\ end_of c' = end_of c /\
    stored c' = updValN (stored c) u (width c) /\
    forall i, elem c' i = upd1 (elem c i) u.
Proof.
  intros Hc. pose proof (good_width c Hc) as Hw. destruct Hc as [Hsh Hso].
  destruct c as [|s e m io' iu' val lz l r]; [done|].
  cbn [start_of end_of] in Hw.
  cbn [push_into]. unfold callback. eexists. split; [reflexivity|].
  split; [split; [exact Hsh|]|].
  - cbn [Ranged.sound] in *. destruct Hso as (Hv & Hl & Hr).
    split; [|done]. destruct l; rewrite Hv; by rewrite compat by lia.
  - repeat split. intros i. cbn [Ranged.elem]. unfold on_element.
    destruct l; by rewrite compat by lia.
Qed.

(** [Propagate] on a node over more than one index: the node gets
    children, its tag goes to them, and it stands for the same
    elements. *)
Lemma ranged_Propagate_good (s e m : Z) (io' : T) (iu' : U) (val : T) (lz : U) (l r : tree) :
  good (Node s e m io' iu' val lz l r) -> s < e ->
  exists l' r' : tree,
    Propagate (Node s e m io' iu' val lz l r)
      = Done (Node s e m io' iu' val iu l' r') /\
    good l' /\ good r' /\
    start_of l' = s /\ end_of l' = m /\ start_of r' = m + 1 /\ end_of r' = e /\
    val = op (stored l') (stored r') /\
    forall i, elem (Node s e m io' iu' val lz l r) i
              = if decide (i <= m) then elem l' i else elem r' i.
Proof.
  intros [Hsh Hso] Hse.
  assert (Hm : s <= (s + e) / 2 < e) by lia.
  assert (exists l0 r0 : tree,
            Propagate (Node s e m io' iu' val lz l r)
              = (if U_eqb lz iu then Done (Node s e m io' iu' val lz l0 r0)
                 else obind (push_into cb l0 lz) (fun l' =>
                      obind (push_into cb r0 lz) (fun r' =>
                      Done (Node s e m io' iu' val iu l' r')))) /\
            good l0 /\ good r0 /\
            start_of l0 = s /\ end_of l0 = m /\ start_of r0 = m + 1 /\ end_of r0 = e /\
            m = (s + e) / 2 /\
            val = updValN (op (stored l0) (stored r0)) lz (e - s + 1) /\
            forall i, elem (Node s e m io' iu' val lz l r) i
                      = upd1 (if decide (i <= m) then elem l0 i else elem r0 i) lz)
    as (l0 & r0 & E & Hl0 & Hr0 & Hl1 & Hl2 & Hr1 & Hr2 & Em & Hval & Helem).
  { destruct l as [|ls le lm lio liu lval llz ll lr];
      destruct r as [|rs re rm rio riu rval rlz rl rr]; cbn in Hsh;
      try (exfalso; tauto).
    - destruct Hsh as (-> & -> & Hs & _ & He & -> & _).
      cbn in Hso. destruct Hso as (Hv & _ & _).
      exists (new_node s ((s + e) / 2) io iu), (new_node ((s + e) / 2 + 1) e io iu).
      split.
      { cbn [Sparse.Propagate]. by rewrite (wrap64_small ((s + e) / 2 + 1)) by lia. }
      split; [apply ranged_new_node_good; lia|].
      split; [apply ranged_new_node_good; lia|].
      repeat split.
      + cbn. by rewrite op_identity_l.
      + intros i. cbn. unfold on_element.
        destruct (decide (i <= (s + e) / 2)); by rewrite (upd_id io) by lia.
    - destruct Hsh as (-> & -> & Hs & _ & He & -> & _ & -> & -> & -> & -> & Hl & Hr).
      cbn [Ranged.sound] in Hso. destruct Hso as (Hv & Hsl & Hsr).
      eexists _, _. split; [cbn [Sparse.Propagate]; reflexivity|].
      split; [by split|]. split; [by split|].
      split; [done|]. split; [done|]. split; [done|]. split; [done|]. split; [done|].
      split; [exact Hv|]. intros i. reflexivity. }
  rewrite E. clear E.
  destruct (U_eqb lz iu) eqn:Heq.
  - apply U_eqb_sound in Heq. subst lz.
    exists l0, r0.
    split; [done|]. split; [done|]. split; [done|].
    split; [done|]. split; [done|]. split; [done|]. split; [done|].
    split; [by rewrite Hval, upd_id by lia|].
    intros i. rewrite Helem. unfold on_element. by rewrite upd_id by lia.
  - destruct (ranged_push_into_good l0 lz Hl0) as (l' & -> & Hl' & El1 & El2 & Els & Ele).
    destruct (ranged_push_into_good r0 lz Hr0) as (r' & -> & Hr' & Er1 & Er2 & Ers & Ere).
    cbn [obind]. exists l', r'.
    split; [done|]. split; [done|]. split; [done|].
    split; [congruence|]. split; [congruence|].
    split; [congruence|]. split; [congruence|].
    split.
    + rewrite Hval, Els, Ers, Hl1, Hl2, Hr1, Hr2.
      replace (e - s + 1) with ((m - s + 1) + (e - (m + 1) + 1)) by lia.
      apply distr; lia.
    + intros i. rewrite Helem. destruct (decide (i <= m)); by rewrite ?Ele, ?Ere.
Qed.

(** The stored aggregate is the combination of the elements the node
    stands for. *)
Lemma ranged_stored_combine (t : tree) :
  good t ->
  stored t
  = combine (elem t) (start_of t) (Z.to_nat (end_of t - start_of t + 1)).
Proof.
  induction t as [|s e m io' iu' val lz l IHl r IHr]; intros [Hsh Hso]; [done|].
  cbn [Refinement.stored start_of end_of].
  destruct l as [|ls le lm lio liu lval llz ll lr];
    destruct r as [|rs re rm rio riu rval rlz rl rr]; cbn in Hsh;
    try (exfalso; tauto).
  - destruct Hsh as (-> & -> & Hs & Hse & He & -> & _).
    cbn in Hso. destruct Hso as (Hv & _ & _).
    rewrite (CombineFacts.combine_from_ext op io op_assoc op_identity_l
               op_identity_r _ (fun _ => upd1 io lz)) by done.
    rewrite combine_fresh by lia. rewrite Hv. f_equal. lia.
  - destruct Hsh as (-> & -> & Hs & Hse & He & -> & Hlt & -> & -> & -> & -> & Hl & Hr).
    cbn [Ranged.sound] in Hso. destruct Hso as (Hv & Hsl & Hsr).
    specialize (IHl (conj Hl Hsl)). specialize (IHr (conj Hr Hsr)).
    cbn [start_of end_of] in IHl, IHr.
    set (m := (s + e) / 2) in *.
    set (L := Node s m lm lio liu lval llz ll lr) in *.
    set (R := Node (m + 1) e rm rio riu rval rlz rl rr) in *.
    assert (Hm : s <= m < e) by (subst m; lia).
    replace (Z.to_nat (e - s + 1))
      with (Z.to_nat (m - s + 1) + Z.to_nat (e - (m + 1) + 1))%nat by lia.
    rewrite (CombineFacts.combine_from_app op io op_assoc op_identity_l
               op_identity_r).
    replace (s + Z.of_nat (Z.to_nat (m - s + 1))) with (m + 1) by lia.
    rewrite (CombineFacts.combine_from_ext op io op_assoc op_identity_l
               op_identity_r _ (fun i => upd1 (elem L i) lz) _ s).
    2:{ intros i Hi. cbn [Ranged.elem]. fold L. by rewrite decide_True by lia. }
    rewrite (CombineFacts.combine_from_ext op io op_assoc op_identity_l
               op_identity_r _ (fun i => upd1 (elem R i) lz) _ (m + 1)).
    2:{ intros i Hi. cbn [Ranged.elem]. fold R. by rewrite decide_False by lia. }
    rewrite <- !combine_updated by lia.
    rewrite <- IHl, <- IHr, Hv.
    replace (e - s + 1)
      with (Z.of_nat (Z.to_nat (m - s + 1)) + Z.of_nat (Z.to_nat (e - (m + 1) + 1)))
      by lia.
    apply distr; lia.
Qed.

(** [Update] applies the update to the elements of the range and to no
    other element, whatever the range. *)
Lemma ranged_Update_good (fuel : nat) : forall (t : tree) (lo hi : Z) (u : U),
  good t -> (depth_bound (start_of t) (end_of t) <= fuel)%nat ->
  exists t' : tree,
    Update fuel t lo hi u = Done t' /\ good t' /\
    start_of t' = start_of t /\ end_of t' = end_of t /\
    forall i, start_of t <= i <= end_of t ->
      elem t' i = if decide (lo <= i <= hi) then upd1 (elem t i) u else elem t i.
Proof.
  induction fuel as [|fuel IH]; intros t lo hi u Ht Hfuel.
  { unfold depth_bound in Hfuel. lia. }
  pose proof Ht as [Hsh Hso].
  destruct (shaped_node_inv op cb U_eqb io iu t Hsh)
    as (s & e & val & lz & l & r & -> & Hs & Hse & He).
  cbn [start_of end_of] in *. cbn [Sparse.Update].
  destruct (decide (hi < s \/ e < lo)) as [Hdis|Hdis].
  { eexists. split; [reflexivity|]. split; [done|]. split; [done|]. split; [done|].
    intros i Hi. by rewrite decide_False by lia. }
  destruct (decide (lo <= s /\ e <= hi)) as [Hcov|Hcov].
  { destruct (ranged_push_into_good _ u Ht) as (t' & E & Ht' & E1 & E2 & _ & Hel).
    cbn [push_into] in E. unfold callback in *.
    eexists. split; [exact E|]. split; [done|]. split; [done|]. split; [done|].
    intros i Hi. rewrite decide_True by lia. apply Hel. }
  assert (Hlt : s < e) by lia.
  destruct (ranged_Propagate_good _ _ _ _ _ _ _ _ _ Ht Hlt)
    as (l1 & r1 & -> & Hl1 & Hr1 & Hl1s & Hl1e & Hr1s & Hr1e & Hval & Hel).
  cbn [obind].
  pose proof (depth_bound_left s e Hlt). pose proof (depth_bound_right s e Hlt).
  destruct (IH l1 lo hi u Hl1) as (l2 & -> & Hl2 & Hl2s & Hl2e & Hel2).
  { rewrite Hl1s, Hl1e. lia. }
  destruct (IH r1 lo hi u Hr1) as (r2 & -> & Hr2 & Hr2s & Hr2e & Her2).
  { rewrite Hr1s, Hr1e. lia. }
  cbn [obind]. rewrite (ranged_value_of_good l2), (ranged_value_of_good r2) by done.
  cbn [obind].
  eexists. split; [reflexivity|].
  destruct Hsh as (Eio & Eiu & _).
  pose proof (ranged_good_not_null _ Hl2) as Hnl.
  split; [split|].
  - apply (shaped_children op cb U_eqb);
      [exact Hs | exact Hlt | exact He | reflexivity | reflexivity | reflexivity
      | exact (proj1 Hl2) | exact (proj1 Hr2)
      | congruence | congruence | congruence | congruence].
  - apply ranged_sound_Node; [done | by rewrite upd_id by lia
                       | exact (proj2 Hl2) | exact (proj2 Hr2)].
  - split; [done|]. split; [done|].
    intros i Hi. rewrite Hel, ranged_elem_Node by done. unfold on_element at 1.
    rewrite upd_id by lia.
    destruct (decide (i <= (s + e) / 2)).
    + apply Hel2. rewrite Hl1s, Hl1e. lia.
    + apply Her2. rewrite Hr1s, Hr1e. lia.
Qed.

(** [Query] returns the combination of the elements of the range that lie
    in the node, whatever the range, and the node goes on standing for the
    same elements. *)
Lemma ranged_Query_good (fuel : nat) : forall (t : tree) (lo hi : Z),
  good t -> (depth_bound (start_of t) (end_of t) <= fuel)%nat ->
  exists t' : tree,
    Query fuel t lo hi
    = Done (combine (elem t) (Z.max lo (start_of t))
              (Z.to_nat (Z.min hi (end_of t) - Z.max lo (start_of t) + 1)), t') /\
    good t' /\ start_of t' = start_of t /\ end_of t' = end_of t /\
    stored t' = stored t /\
    forall i, start_of t <= i <= end_of t -> elem t' i = elem t i.
Proof.
  induction fuel as [|fuel IH]; intros t lo hi Ht Hfuel.
  { unfold depth_bound in Hfuel. lia. }
  pose proof Ht as [Hsh Hso].
  destruct (shaped_node_inv op cb U_eqb io iu t Hsh)
    as (s & e & val & lz & l & r & -> & Hs & Hse & He).
  cbn [start_of end_of] in *. cbn [Sparse.Query].
  destruct (decide (hi < s \/ e < lo)) as [Hdis|Hdis].
  { eexists. split; [|done].
    by replace (Z.to_nat (Z.min hi e - Z.max lo s + 1)) with 0%nat by lia. }
  destruct (decide (lo <= s /\ e <= hi)) as [Hcov|Hcov].
  { eexists. split; [|done].
    replace (Z.max lo s) with s by lia. replace (Z.min hi e) with e by lia.
    pose proof (ranged_stored_combine _ Ht) as Hsc.
    cbn [Refinement.stored start_of end_of] in Hsc. by rewrite <- Hsc. }
  assert (Hlt : s < e) by lia.
  destruct (ranged_Propagate_good _ _ _ _ _ _ _ _ _ Ht Hlt)
    as (l1 & r1 & -> & Hl1 & Hr1 & Hl1s & Hl1e & Hr1s & Hr1e & Hval & Hel).
  cbn [obind].
  pose proof (depth_bound_left s e Hlt). pose proof (depth_bound_right s e Hlt).
  destruct (IH l1 lo hi Hl1) as (l2 & -> & Hl2 & Hl2s & Hl2e & Hl2v & Hel2).
  { rewrite Hl1s, Hl1e. lia. }
  destruct (IH r1 lo hi Hr1) as (r2 & -> & Hr2 & Hr2s & Hr2e & Hr2v & Her2).
  { rewrite Hr1s, Hr1e. lia. }
  cbn [obind fst snd].
  rewrite Hl1s, Hl1e, Hr1s, Hr1e.
  set (m := (s + e) / 2) in *.
  eexists. split; [f_equal; f_equal|].
  - set (a := Z.max lo s). set (b := Z.min hi e).
    rewrite (CombineFacts.combine_from_ext op io op_assoc op_identity_l
               op_identity_r (elem (Node _ _ _ _ _ _ _ _ _))
               (fun i => if decide (i <= m) then elem l1 i else elem r1 i))
      by (intros; apply Hel).
    destruct (decide (hi <= m)) as [Hhm|Hhm];
      [|destruct (decide (m < lo)) as [Hml|Hml]].
    + replace (Z.to_nat (b - Z.max lo (m + 1) + 1)) with 0%nat by lia.
      cbn [combine_from]. rewrite op_identity_r.
      replace (Z.min hi m) with b by lia.
      apply (CombineFacts.combine_from_ext op io op_assoc op_identity_l
               op_identity_r).
      intros i Hi. by rewrite decide_True by lia.
    + replace (Z.to_nat (Z.min hi m - a + 1)) with 0%nat by lia.
      cbn [combine_from]. rewrite op_identity_l.
      replace (Z.max lo (m + 1)) with a by lia.
      apply (CombineFacts.combine_from_ext op io op_assoc op_identity_l
               op_identity_r).
      intros i Hi. by rewrite decide_False by lia.
    + replace (Z.to_nat (b - a + 1))
        with (Z.to_nat (Z.min hi m - a + 1) + Z.to_nat (b - Z.max lo (m + 1) + 1))%nat
        by lia.
      rewrite (CombineFacts.combine_from_app op io op_assoc op_identity_l
                 op_identity_r).
      replace (a + Z.of_nat (Z.to_nat (Z.min hi m - a + 1)))
        with (Z.max lo (m + 1)) by lia.
      f_equal;
        apply (CombineFacts.combine_from_ext op io op_assoc op_identity_l
                 op_identity_r);
        intros i Hi; [by rewrite decide_True by lia | by rewrite decide_False by lia].
  - destruct Hsh as (Eio & Eiu & _).
    pose proof (ranged_good_not_null _ Hl2) as Hnl.
    split; [split|].
    + apply (shaped_children op cb U_eqb);
        [exact Hs | exact Hlt | exact He | reflexivity | reflexivity | reflexivity
        | exact (proj1 Hl2) | exact (proj1 Hr2)
        | congruence | congruence | congruence | congruence].
    + apply ranged_sound_Node; [done | by rewrite upd_id, Hl2v, Hr2v by lia
                         | exact (proj2 Hl2) | exact (proj2 Hr2)].
    + split; [done|]. split; [done|]. split; [done|].
      intros i Hi. rewrite Hel, ranged_elem_Node by done. unfold on_element at 1.
      rewrite upd_id by lia.
      destruct (decide (i <= m)).
      * apply Hel2. rewrite Hl1s, Hl1e. lia.
      * apply Her2. rewrite Hr1s, Hr1e. lia.
Qed.

(** *** Sequences of calls *)

Variables s0 e0 : Z.

Local Abbreviation stands_for := (Ranged.stands_for op updValN io iu s0 e0).

Lemma ranged_new_node_stands_for :
  0 <= s0 -> s0 <= e0 -> e0 < 2 ^ 62 ->
  stands_for (new_node s0 e0 io iu) (replicate (Z.to_nat (e0 - s0 + 1)) io).
Proof.
  intros Hs Hse He.
  destruct (ranged_new_node_good s0 e0) as [Hsh Hso]; [lia | lia | lia|].
  split; [done|]. split; [done|]. split; [done|]. split; [done|].
  split; [rewrite length_replicate; lia|].
  intros i Hi. cbn. unfold on_element. rewrite upd_id by lia.
  apply lookup_replicate_2. lia.
Qed.

Lemma take_drop_clip (a : list T) (x n : nat) :
  take n (drop x a) = take (n `min` (length a - x)) (drop x a).
Proof.
  destruct (decide (n <= length a - x)%nat) as [Hn|Hn].
  - by rewrite Nat.min_l by lia.
  - by rewrite !take_ge by (rewrite length_drop; lia).
Qed.

Lemma ranged_run_refines (fuel : nat) (cs : list (Sparse.call (U:=U))) :
  forall (t : tree) (a : list T),
    stands_for t a -> (depth_bound s0 e0 <= fuel)%nat ->
    exists t' : tree,
      Sparse.run op cb U_eqb fuel cs t
      = Done (Dense.ref_run op upd1 io (half_open s0 <$> cs) a, t') /\
      stands_for t' (Dense.ref_state upd1 (half_open s0 <$> cs) a).
Proof.
  induction cs as [|c cs IH]; intros t a Hrep Hfuel; [by exists t|].
  destruct Hrep as (Hsh & Hso & Hts & Hte & Hlen & Ha).
  pose proof (good_width t (conj Hsh Hso)) as Hw. rewrite Hts, Hte in Hw.
  destruct c as [l r u|l r];
    cbn [fmap list_fmap half_open Sparse.run Dense.ref_run Dense.ref_state].
  - destruct (ranged_Update_good fuel t l r u (conj Hsh Hso))
      as (t' & -> & [Hsh' Hso'] & Hts' & Hte' & Hel); [rewrite Hts, Hte; lia|].
    cbn [obind]. apply IH; [|done].
    split; [done|]. split; [done|]. split; [congruence|]. split; [congruence|].
    unfold Dense.ref_update. split; [by rewrite length_imap|].
    intros i Hi. rewrite list_lookup_imap, Ha by done. cbn.
    rewrite Hel by (rewrite Hts, Hte; lia). f_equal.
    repeat case_decide; (done || lia).
  - destruct (ranged_Query_good fuel t l r (conj Hsh Hso))
      as (t' & -> & [Hsh' Hso'] & Hts' & Hte' & _ & Hel);
      [rewrite Hts, Hte; lia|].
    cbn [obind fst snd].
    destruct (IH t' a) as (t'' & -> & Hrep''); [|done|].
    { split; [done|]. split; [done|]. split; [congruence|]. split; [congruence|].
      split; [done|]. intros i Hi. rewrite Ha by done. f_equal. symmetry.
      apply Hel. rewrite Hts, Hte. lia. }
    cbn [obind fst snd]. exists t''. split; [|done].
    do 3 f_equal. unfold Dense.ref_query. rewrite Hts, Hte.
    rewrite take_drop_clip.
    replace (Z.to_nat (r + 1 - s0 - (Z.max l s0 - s0))
               `min` (length a - Z.to_nat (Z.max l s0 - s0)))%nat
      with (Z.to_nat (Z.min r e0 - Z.max l s0 + 1)) by lia.
    replace (Z.max l s0) with (s0 + (Z.max l s0 - s0)) at 1 by lia.
    rewrite <- (CombineFacts.combine_from_shift op io op_assoc op_identity_l
                  op_identity_r (elem t) s0).
    symmetry.
    apply (CombineFacts.combine_from_lookup op io op_assoc op_identity_l
             op_identity_r a (fun i => elem t (s0 + i))); [lia|].
    intros i Hi. rewrite <- (Ha (s0 + i)) by lia. f_equal. lia.
Qed.

(** The sparse tree over [start, end] within [0, 2^62), handed a callback
    that applies an update to an aggregate according to the number of
    elements of the node, answers every sequence of calls as the reference
    array of [end - start + 1] copies of [identityOp] does: the part of a
    range outside [start, end] counts for nothing, and a range whose right
    end is below its left end is empty. *)
Theorem bounds_aware_callback_refines (cs : list (Sparse.call (U:=U))) :
  0 <= s0 -> s0 <= e0 -> e0 < 2 ^ 62 ->
  exists t' : tree,
    Sparse.run op cb U_eqb (depth_bound s0 e0) cs (new_node s0 e0 io iu)
    = Done (Dense.ref_run op upd1 io (half_open s0 <$> cs)
              (replicate (Z.to_nat (e0 - s0 + 1)) io), t').
Proof.
  intros Hs Hse He.
  destruct (ranged_run_refines (depth_bound s0 e0) cs _ _
              (ranged_new_node_stands_for Hs Hse He)) as (t' & E & _); [lia|].
  by exists t'.
Qed.

End SparseRanged.

(** The calls of the documented example, with the callback that adds
    [v * (right - left + 1)] to the sum of a node: the three queries return
    9, 39 and 13. *)
Lemma bounds_aware_callback_refines_witness :
  exists t',
    Sparse.run Z.add (Ranged.callback sum_updValN Z.add) Z.eqb (depth_bound 0 4)
      [Sparse.CallUpdate 0 0 1; Sparse.CallUpdate 1 1 2; Sparse.CallUpdate 2 2 3;
       Sparse.CallUpdate 3 3 4; Sparse.CallUpdate 4 4 5; Sparse.CallQuery 1 3;
       Sparse.CallUpdate 1 3 10; Sparse.CallQuery 1 3; Sparse.CallQuery 2 2]
      (new_node 0 4 0 0)
    = Done ([9; 39; 13], t').
Proof.
  apply (bounds_aware_callback_refines Z.add sum_updValN Z.add Z.eqb 0 0
           ltac:(intros; lia) ltac:(intros; lia) ltac:(intros; lia)
           ltac:(intros; unfold sum_updValN; lia)
           ltac:(intros; unfold sum_updValN; lia)
           ltac:(intros; unfold sum_updValN; lia)
           ltac:(intros a H; lia) 0 4
           [Sparse.CallUpdate 0 0 1; Sparse.CallUpdate 1 1 2; Sparse.CallUpdate 2 2 3;
            Sparse.CallUpdate 3 3 4; Sparse.CallUpdate 4 4 5; Sparse.CallQuery 1 3;
            Sparse.CallUpdate 1 3 10; Sparse.CallQuery 1 3; Sparse.CallQuery 2 2]).
  - lia.
  - lia.
  - lia.
Defined.

End SparseRanged.

(** ** Further properties of the dense tree *)

Module DenseProperties.
Import Dense DenseExec.

Section Constructor.
Context {T U : Type}.
Variable op : T -> T -> T.
Variable N : Z.
Variable io : T.
Variable iu : U.

Local Abbreviation tree := (LazyPropSegtree (T:=T) (U:=U)).
Local Abbreviation wf := (wf N io iu).
Local Abbreviation from_range := (from_range op).

(** *** The range constructor *)

(** The build loop stays inside the vector, writes each node from [k]
    down to 1 once, and leaves the rest as it was. *)
Lemma build_total (k : nat) : forall t : list T,
  (2 * k + 1 < length t)%nat ->
  exists t' : list T,
    build op k t = Some t' /\ length t' = length t /\
    (forall j, j <= 0 \/ Z.of_nat k < j -> vget t' j = vget t j) /\
    (forall i, 1 <= i <= Z.of_nat k ->
       exists a b, vget t' (2 * i) = Some a /\ vget t' (2 * i + 1) = Some b /\
                   vget t' i = Some (op a b)).
Proof.
  induction k as [|k IH]; intros t Hlen.
  { exists t. repeat split; try done. intros i Hi. lia. }
  cbn [build].
  destruct (vget_in_range t (2 * Z.of_nat (S k)) ltac:(lia)) as [a Ea].
  destruct (vget_in_range t (2 * Z.of_nat (S k) + 1) ltac:(lia)) as [b Eb].
  rewrite Ea, Eb. cbn [mbind option_bind].
  unfold vset at 1. rewrite decide_True by lia. cbn [mbind option_bind].
  set (t1 := <[Z.to_nat (Z.of_nat (S k)) := op a b]> t).
  assert (Hget1 : forall j, vget t1 j
            = if decide (j = Z.of_nat (S k)) then Some (op a b) else vget t j).
  { intros j. unfold t1. apply vget_insert. lia. }
  destruct (IH t1) as (t' & E & Hlen' & Hhi & Hlo).
  { unfold t1. rewrite length_insert. lia. }
  exists t'. split; [done|]. split; [|split].
  - rewrite Hlen'. unfold t1. by rewrite length_insert.
  - intros j Hj. rewrite Hhi, Hget1 by lia. by rewrite decide_False by lia.
  - intros i Hi. destruct (decide (i = Z.of_nat (S k))) as [->|Hne].
    + exists a, b. rewrite !Hhi, !Hget1 by lia.
      repeat case_decide; try lia. done.
    + apply Hlo. lia.
Qed.

Lemma from_range_built (d : T) (xs : list T) :
  1 <= N -> Z.of_nat (length xs) = N ->
  exists s,
    from_range d xs io iu = Some s /\ wf s /\
    LOG_ s = Z.log2 N + 1 /\
    lazy_ s = replicate (Z.to_nat N) iu /\
    tree_ s !! 0%nat = Some d /\
    (forall k, 0 <= k < N -> xs !! Z.to_nat k = Some (tr s (N + k))) /\
    (forall i, 1 <= i < N -> tr s i = op (tr s (2 * i)) (tr s (2 * i + 1))).
Proof.
  intros HN Hlen. unfold Dense.from_range. rewrite Hlen. cbv zeta.
  destruct (build_total (Z.to_nat (N - 1)) (replicate (length xs) d ++ xs))
    as (t' & E & Hlen' & Hhi & Hlo).
  { rewrite length_app, length_replicate. lia. }
  rewrite E. cbn [mbind option_bind]. eexists. split; [reflexivity|].
  rewrite length_app, length_replicate in Hlen'.
  split; [|split; [|split; [|split; [|split]]]].
  - unfold Dense.wf, sized. cbn. rewrite length_replicate. repeat split; lia.
  - unfold clz. cbn. lia.
  - done.
  - cbn [tree_]. specialize (Hhi 0 ltac:(lia)). unfold vget in Hhi.
    rewrite !decide_True in Hhi by lia.
    change (Z.to_nat 0) with 0%nat in Hhi. rewrite Hhi.
    destruct (length xs) eqn:El; [lia|]. done.
  - intros k Hk. unfold tr. cbn [tree_ identityOp_].
    rewrite Hhi by lia. unfold vget. rewrite decide_True by lia.
    rewrite lookup_app_r by (rewrite length_replicate; lia).
    rewrite length_replicate.
    replace (Z.to_nat (N + k) - length xs)%nat with (Z.to_nat k) by lia.
    destruct (lookup_lt_is_Some_2 xs (Z.to_nat k) ltac:(lia)) as [x ->]. done.
  - intros i Hi. unfold tr. cbn [tree_ identityOp_].
    destruct (Hlo i ltac:(lia)) as (a & b & -> & -> & ->). done.
Qed.

(** The range constructor, given [N >= 1] elements, stays inside the
    vectors it allocates and leaves the tree it documents: the elements at
    [tree_[N ..  2N)], every node from [N - 1] down to 1 the combination of
    its two children, [tree_[0]] the value-initialised [T()], every tag the
    identity update, and [LOG_] one more than the binary logarithm of
    [N]. *)
Theorem range_constructor_builds_the_tree (d : T) (xs : list T) :
  1 <= N -> Z.of_nat (length xs) = N ->
  exists s,
    from_range d xs io iu = Some s /\ wf s /\
    LOG_ s = Z.log2 N + 1 /\
    lazy_ s = replicate (Z.to_nat N) iu /\
    tree_ s !! 0%nat = Some d /\
    (forall k, 0 <= k < N -> xs !! Z.to_nat k = Some (tr s (N + k))) /\
    (forall i, 1 <= i < N -> tr s i = op (tr s (2 * i)) (tr s (2 * i + 1))).
Proof. exact (from_range_built d xs). Qed.

End Constructor.

Section Calls.
Context {T U : Type}.
Variable op : T -> T -> T.
Variable updVal : T -> U -> T.
Variable updLazy : U -> U -> U.
Variable U_eqb : U -> U -> bool.
Variable N : Z.
Variable io : T.
Variable iu : U.
Hypothesis U_eqb_refl : U_eqb iu iu = true.

Local Abbreviation tree := (LazyPropSegtree (T:=T) (U:=U)).
Local Abbreviation wf := (wf N io iu).
Local Abbreviation tags_proper := (tags_proper N iu).
Local Abbreviation Query := (Query op updVal updLazy U_eqb).
Local Abbreviation Update := (Update op updVal updLazy).
Local Abbreviation run := (run op updVal updLazy U_eqb).

Implicit Types (s : tree).

(** *** Objects without pending tags *)

Lemma lzf_replicate s i :
  lazy_ s = replicate (Z.to_nat N) iu -> identityUpdate_ s = iu -> lzf s i = iu.
Proof.
  intros E Eiu. unfold lzf, vget. rewrite E, Eiu. case_decide; [|done].
  destruct (replicate _ _ !! _) eqn:El; [|done].
  by apply lookup_replicate in El as [-> _].
Qed.

Lemma untagged_proper s : (forall i, lzf s i = iu) -> tags_proper s.
Proof. intros H t _ Ht. by rewrite H in Ht. Qed.

Lemma constructed_untagged (d : T) (xs : list T) s :
  1 <= N -> constructed op d N io iu xs s -> wf s /\ forall i, lzf s i = iu.
Proof.
  intros HN [[_ ->]|[Hlen E]].
  - split; [by apply (from_size_wf op updVal updLazy U_eqb N io iu U_eqb_refl)|].
    intros i. apply (from_size_lzf op updVal updLazy U_eqb N io iu U_eqb_refl).
  - destruct (from_range_built op N io iu d xs HN Hlen) as (s' & E' & Hwf & _ & Hlz & _).
    rewrite E in E'. injection E' as <-.
    split; [done|]. intros i. apply lzf_replicate; [done|]. apply Hwf.
Qed.

(** *** Which calls stay inside the vectors *)

Lemma run_inside_iff (cs : list (call (U:=U))) : forall s,
  wf s -> tags_proper s -> Forall (in_bounds N) cs ->
  (is_Some (run cs s) <-> Forall (fun c => left_end c < N) cs).
Proof.
  induction cs as [|c cs IH]; intros s Hwf Hp Hcs.
  { split; [by constructor | by eexists]. }
  inversion Hcs as [|c' cs' Hc Hcs']; subst c' cs'; clear Hcs; rename Hcs' into Hcs.
  rewrite List.Forall_cons_iff.
  destruct c as [l r u|l r]; cbn [Dense.run left_end]; destruct Hc as (Hl & Hlr & Hr).
  - destruct (decide (l < N)) as [HlN|HlN].
    + rewrite (Update_exec op updVal updLazy U_eqb N io iu U_eqb_refl)
        by (done || lia).
      rewrite IH; [tauto | | | done].
      * by apply (wf_update_state op updVal updLazy U_eqb N io iu U_eqb_refl).
      * apply (update_state_proper op updVal updLazy U_eqb N io iu U_eqb_refl);
          (done || lia).
    + assert (l = N) as -> by lia. assert (r = N) as -> by lia.
      rewrite (Update_out_of_range op updVal updLazy U_eqb N io iu U_eqb_refl)
        by done.
      split; [by intros [? ?] | tauto].
  - destruct (decide (l < N)) as [HlN|HlN].
    + destruct (Query_exec op updVal updLazy U_eqb N io iu U_eqb_refl s l r
                  Hwf Hp Hl HlN Hlr Hr) as (E & Hwf' & Hp').
      rewrite E. rewrite <- (IH _ Hwf' Hp' Hcs).
      destruct (Dense.run _ _ _ _ cs _) as [[ys s'']|].
      * split; [intros _; split; [done | by eexists] | by eexists].
      * split; [by intros [? ?] | by intros [_ [? ?]]].
    + assert (l = N) as -> by lia.
      rewrite (Query_out_of_range op updVal updLazy U_eqb N io iu U_eqb_refl)
        by done.
      split; [by intros [? ?] | tauto].
Qed.

(** On an object made by either constructor, a sequence of calls within
    bounds, [0 <= left <= right <= N], stays inside [tree_] and [lazy_]
    exactly when no call has [left = N]: a call on an empty range below [N]
    is defined, a call on the empty range at [N] indexes past the end. *)
Theorem calls_stay_inside_iff (d : T) (xs : list T) s (cs : list (call (U:=U))) :
  1 <= N -> constructed op d N io iu xs s -> Forall (in_bounds N) cs ->
  (is_Some (run cs s) <-> Forall (fun c => left_end c < N) cs).
Proof.
  intros HN Hc Hcs.
  destruct (constructed_untagged d xs s HN Hc) as [Hwf Hlz].
  apply run_inside_iff; [done | by apply untagged_proper | done].
Qed.

(** *** Queries before the first update *)

Lemma push_if_untagged s i :
  wf s -> lzf s i = iu -> push_if updVal updLazy U_eqb i s = s.
Proof.
  intros Hwf E. unfold push_if. destruct Hwf as (_ & _ & ->).
  by rewrite E, U_eqb_refl.
Qed.

Lemma propagate_from_untagged (shift : nat) pos s :
  wf s -> (forall i, lzf s i = iu) ->
  propagate_from updVal updLazy U_eqb shift pos s = s.
Proof.
  intros Hwf Hlz. induction shift as [|shift IH]; [done|].
  destruct shift as [|shift']; [done|].
  cbn [propagate_from]. rewrite push_if_untagged by done. exact IH.
Qed.

Lemma propagated_untagged pos s :
  wf s -> (forall i, lzf s i = iu) -> propagated updVal updLazy U_eqb pos s = s.
Proof.
  intros Hwf Hlz. unfold propagated. cbv zeta.
  rewrite propagate_from_untagged by done.
  destruct Hwf as (_ & _ & ->). by rewrite Hlz, U_eqb_refl.
Qed.

Lemma Query_untagged s (l r : Z) :
  wf s -> (forall i, lzf s i = iu) -> 0 <= l -> l < N -> l <= r -> r <= N ->
  exists x, Query l r s = Some (x, s).
Proof.
  intros Hwf Hlz Hl HlN Hlr Hr.
  destruct (Query_exec op updVal updLazy U_eqb N io iu U_eqb_refl s l r
              Hwf (untagged_proper s Hlz) Hl HlN Hlr Hr) as (E & _).
  rewrite E. exists (query_result op updVal updLazy U_eqb l r s). do 2 f_equal.
  unfold query_state.
  rewrite (propagated_untagged (l + size_ s) s) by done.
  by apply propagated_untagged.
Qed.

Lemma run_queries_untagged (cs : list (call (U:=U))) : forall s,
  wf s -> (forall i, lzf s i = iu) ->
  Forall (fun c => exists l r, c = CallQuery l r /\ 0 <= l /\ l < N /\ l <= r /\ r <= N) cs ->
  exists xs, run cs s = Some (xs, s).
Proof.
  induction cs as [|c cs IH]; intros s Hwf Hlz Hcs; [by eexists|].
  inversion Hcs as [|c' cs' Hc Hcs']; subst c' cs'; clear Hcs; rename Hcs' into Hcs.
  destruct Hc as (l & r & -> & Hl & HlN & Hlr & Hr).
  cbn [Dense.run].
  destruct (Query_untagged s l r Hwf Hlz Hl HlN Hlr Hr) as [x ->].
  destruct (IH s Hwf Hlz Hcs) as [xs ->]. by eexists.
Qed.

(** Until the first [Update], [Query] changes nothing: on an object made
    by either constructor, queries with [0 <= left < N] and
    [left <= right <= N] return and leave every field as it was. *)
Theorem queries_alone_change_nothing (d : T) (xs : list T) s
    (cs : list (call (U:=U))) :
  1 <= N -> constructed op d N io iu xs s ->
  Forall (fun c => exists l r, c = CallQuery l r /\ 0 <= l /\ l < N /\ l <= r /\ r <= N) cs ->
  exists ys, run cs s = Some (ys, s).
Proof.
  intros HN Hc Hcs.
  destruct (constructed_untagged d xs s HN Hc) as [Hwf Hlz].
  by apply run_queries_untagged.
Qed.

End Calls.

Lemma range_constructor_builds_the_tree_witness :
  exists s : LazyPropSegtree (T:=Z) (U:=Z),
    from_range Z.add 0 [1; 2; 3; 4; 5] 0 0 = Some s /\ wf 5 0 0 s /\
    LOG_ s = Z.log2 5 + 1 /\
    lazy_ s = replicate (Z.to_nat 5) 0 /\
    tree_ s !! 0%nat = Some 0 /\
    (forall k, 0 <= k < 5 -> [1; 2; 3; 4; 5] !! Z.to_nat k = Some (tr s (5 + k))) /\
    (forall i, 1 <= i < 5 -> tr s i = Z.add (tr s (2 * i)) (tr s (2 * i + 1))).
Proof.
  apply (range_constructor_builds_the_tree (U:=Z) Z.add 5 0 0 0 [1; 2; 3; 4; 5]).
  - lia.
  - reflexivity.
Defined.

Lemma calls_stay_inside_iff_witness :
  is_Some (run Z.add Z.add Z.add Z.eqb [CallUpdate 1 1 10; CallQuery 4 4]
               (from_size 4 0 0))
  <-> Forall (fun c => left_end c < 4) [CallUpdate 1 1 10; CallQuery 4 4].
Proof.
  apply (calls_stay_inside_iff Z.add Z.add Z.add Z.eqb 4 0 0 ltac:(reflexivity)
           0 (replicate (Z.to_nat 4) 0) (from_size 4 0 0)
           [CallUpdate 1 1 10; CallQuery 4 4]).
  - lia.
  - left. split; reflexivity.
  - repeat constructor; cbn; lia.
Defined.

Lemma queries_alone_change_nothing_witness :
  exists ys,
    run Z.add Z.add Z.add Z.eqb [CallQuery 0 4; CallQuery 1 1] (from_size 4 0 0)
    = Some (ys, from_size 4 0 0).
Proof.
  apply (queries_alone_change_nothing Z.add Z.add Z.add Z.eqb 4 0 0
           ltac:(reflexivity) 0 (replicate (Z.to_nat 4) 0) (from_size 4 0 0)
           [CallQuery 0 4; CallQuery 1 1]).
  - lia.
  - left. split; reflexivity.
  - constructor; [exists 0, 4; split; [reflexivity | lia]|].
    constructor; [exists 1, 1; split; [reflexivity | lia]|].
    constructor.
Defined.

End DenseProperties.

(** ** Both trees against the reference array *)

Import Dense Algebra.

(** On calls within bounds the sparse call on [left, right - 1] is the
    dense call on [left, right). *)
Lemma half_open_inclusive {U : Type} (N : Z) (cs : list (Dense.call (U:=U))) :
  Forall (in_bounds N) cs ->
  Ranged.half_open 0 <$> (Refinement.inclusive <$> cs) = cs.
Proof.
  induction cs as [|c cs IH]; intros Hcs; [done|].
  inversion Hcs as [|c' cs' Hc Hcs']; subst c' cs'.
  cbn [fmap list_fmap]. rewrite IH by done. f_equal.
  destruct c as [l r u|l r]; destruct Hc as (Hl & _ & _);
    cbn [Refinement.inclusive Ranged.half_open]; f_equal; lia.
Qed.

(** C1, as the code has it.  Under an algebra that satisfies, next to the
    monoid and compatibility laws of the design document, a two-sided
    identity, [updVal x idUpd = x] and distribution of updates over [op],
    with an [==] on updates that holds against [idUpd] for nothing but
    [idUpd]: the sparse tree over [0, N - 1], [N] at most [2^62], handed
    the callback that composes the tag with [updLazy] and applies the
    update with [updVal], returns on every sequence of calls within bounds
    what the reference array of [N] copies of [idOp] returns, a dense call
    on [left, right) being the sparse call on [left, right - 1]; the dense
    tree, however constructed, returns what the reference array of its
    elements returns when, in addition, updates commute, [idUpd == idUpd]
    holds and no range is empty. *)
Theorem C1_trees_answer_as_reference_array {T U : Type}
    (op : T -> T -> T) (updVal : T -> U -> T) (updLazy : U -> U -> U)
    (U_eqb : U -> U -> bool) (N : Z) (io : T) (iu : U)
    (cs : list (Dense.call (U:=U))) :
  (forall x y z, op (op x y) z = op x (op y z)) ->
  (forall x, op x io = x) ->
  (forall x, op io x = x) ->
  (forall x, updVal x iu = x) ->
  (forall x a b, updVal x (updLazy a b) = updVal (updVal x a) b) ->
  (forall x y u, updVal (op x y) u = op (updVal x u) (updVal y u)) ->
  (forall a, U_eqb a iu = true -> a = iu) ->
  1 <= N ->
  ((forall x a b, updVal (updVal x a) b = updVal (updVal x b) a) ->
   U_eqb iu iu = true ->
   Forall (nonempty_call N) cs ->
   forall (T_default : T) (xs : list T) s0,
     constructed op T_default N io iu xs s0 ->
     results op updVal updLazy U_eqb cs (Some s0)
     = Some (ref_run op updVal io cs xs)) /\
  (N <= 2 ^ 62 ->
   Forall (in_bounds N) cs ->
   exists t,
     Sparse.run op (Refinement.callback updVal updLazy) U_eqb
       (Sparse.depth_bound 0 (N - 1)) (Refinement.inclusive <$> cs)
       (Sparse.new_node 0 (N - 1) io iu)
     = Done (ref_run op updVal io cs (replicate (Z.to_nat N) io), t)).
Proof.
  intros Hassoc Hidr Hidl Hupd Hcompat Hdistr Hsound HN.
  split.
  - intros Hcomm Hrefl Hcs d xs s0 Hs0.
    by apply (DenseExec.dense_refines op updVal updLazy U_eqb N io iu Hrefl Hidr
                Hupd Hcompat Hdistr Hcomm Hsound Hassoc Hidl d xs cs s0).
  - intros Hmax Hcs.
    pose proof (SparseRanged.ranged_new_node_stands_for op
                  (fun x u _ => updVal x u) updLazy U_eqb io iu Hassoc Hidl Hidr
                  (fun x _ _ => Hupd x) (fun x a b _ _ => Hcompat x a b)
                  (fun x y u _ _ _ _ => Hdistr x y u) Hsound 0 (N - 1)
                  ltac:(lia) ltac:(lia) ltac:(lia)) as Hnew.
    destruct (SparseRanged.ranged_run_refines op
                (fun x u _ => updVal x u) updLazy U_eqb io iu Hassoc Hidl Hidr
                (fun x _ _ => Hupd x) (fun x a b _ _ => Hcompat x a b)
                (fun x y u _ _ _ _ => Hdistr x y u) Hsound 0 (N - 1)
                (Sparse.depth_bound 0 (N - 1)) (Refinement.inclusive <$> cs)
                _ _ Hnew ltac:(lia)) as (t & E & _).
    exists t. rewrite (half_open_inclusive N cs Hcs) in E.
    replace (Z.to_nat (N - 1 - 0 + 1)) with (Z.to_nat N) in E by lia.
    exact E.
Qed.

(** Both conjuncts at concrete inputs: the dense tree under the maximum
    over the naturals with additive update, an algebra with all the laws;
    the sparse tree under the maximum with assignment, whose updates do not
    commute, on the calls [Update(0, 2, 5)], [Update(0, 1, 7)],
    [Query(0, 1)], where it answers 7. *)
Lemma C1_trees_answer_as_reference_array_witness :
  (forall (T_default : nat) (xs : list nat) s0,
     constructed Nat.max T_default 4 0%nat 0%nat xs s0 ->
     results Nat.max Nat.add Nat.add Nat.eqb
       [CallUpdate 1 3 5%nat; CallQuery 0 2; CallUpdate 0 4 2%nat; CallQuery 2 4]
       (Some s0)
     = Some (ref_run Nat.max Nat.add 0%nat
               [CallUpdate 1 3 5%nat; CallQuery 0 2; CallUpdate 0 4 2%nat;
                CallQuery 2 4] xs)) /\
  (exists t,
     Sparse.run Nat.max (Refinement.callback Nat.add Nat.add) Nat.eqb
       (Sparse.depth_bound 0 (4 - 1))
       (Refinement.inclusive <$>
          [CallUpdate 1 3 5%nat; CallQuery 0 2; CallUpdate 0 4 2%nat; CallQuery 2 4;
           CallQuery 1 1])
       (Sparse.new_node 0 (4 - 1) 0%nat 0%nat)
     = Done ([5%nat; 7%nat; 0%nat], t)) /\
  (exists t,
     Sparse.run Nat.max (Refinement.callback Assignment.set_to Assignment.latest)
       Assignment.same (Sparse.depth_bound 0 (2 - 1))
       (Refinement.inclusive <$>
          [CallUpdate 0 2 (Some 5%nat); CallUpdate 0 1 (Some 7%nat); CallQuery 0 1])
       (Sparse.new_node 0 (2 - 1) 0%nat None)
     = Done ([7%nat], t)).
Proof.
  split; [|split].
  - apply (C1_trees_answer_as_reference_array Nat.max Nat.add Nat.add Nat.eqb
             4 0%nat 0%nat
             [CallUpdate 1 3 5%nat; CallQuery 0 2; CallUpdate 0 4 2%nat; CallQuery 2 4]
             ltac:(intros; lia) ltac:(intros; lia) ltac:(intros; lia)
             ltac:(intros; lia) ltac:(intros; lia) ltac:(intros; lia)
             ltac:(intros a Ha; apply Nat.eqb_eq in Ha; exact Ha) ltac:(lia)).
    + intros x a b. lia.
    + reflexivity.
    + repeat constructor; cbn; lia.
  - apply (C1_trees_answer_as_reference_array Nat.max Nat.add Nat.add Nat.eqb
             4 0%nat 0%nat
             [CallUpdate 1 3 5%nat; CallQuery 0 2; CallUpdate 0 4 2%nat; CallQuery 2 4;
              CallQuery 1 1]
             ltac:(intros; lia) ltac:(intros; lia) ltac:(intros; lia)
             ltac:(intros; lia) ltac:(intros; lia) ltac:(intros; lia)
             ltac:(intros a Ha; apply Nat.eqb_eq in Ha; exact Ha) ltac:(lia)).
    + lia.
    + repeat constructor; cbn; lia.
  - apply (C1_trees_answer_as_reference_array Nat.max Assignment.set_to
             Assignment.latest Assignment.same 2 0%nat None
             [CallUpdate 0 2 (Some 5%nat); CallUpdate 0 1 (Some 7%nat); CallQuery 0 1]
             ltac:(intros; lia) ltac:(intros; lia) ltac:(intros; reflexivity)
             ltac:(intros; reflexivity) ltac:(intros x a [b|]; reflexivity)
             ltac:(intros x y [u|]; cbn; lia)
             ltac:(intros a H; exact (bool_decide_eq_true_1 _ H)) ltac:(lia)).
    + lia.
    + repeat constructor; cbn; lia.
Defined.

(** C1 as stated fails for both trees: the sum over bare integers with
    additive update satisfies the monoid and compatibility laws, and
    after one update of both elements of a domain of size 2 either tree
    answers 1 where the reference array answers 2.  So do the laws that
    are added.  Under the maximum with the one update that raises a value
    to at least 5, which composes, distributes and commutes but changes
    [idOp], either tree answers 0 for the first element after an update of
    both, where the reference array answers 5: the covered root keeps the
    identity tag, which is not pushed.  Under the first projection, whose
    identity is a right identity only, the dense tree built from [7, 8]
    answers 0 for the second element and the sparse tree answers 0 for the
    second element after it is assigned 7: both combine [idOp] with the
    aggregate from the left. *)
Lemma C1_counterexample :
  ((forall x y z, plain_op (plain_op x y) z = plain_op x (plain_op y z)) /\
   (forall x, plain_op x 0 = x) /\
   (forall a b c, plain_updLazy (plain_updLazy a b) c
                  = plain_updLazy a (plain_updLazy b c)) /\
   (forall a, plain_updLazy a 0 = a) /\
   (forall x a b, plain_updVal x (plain_updLazy a b)
                  = plain_updVal (plain_updVal x a) b) /\
   results plain_op plain_updVal plain_updLazy Z.eqb
     [CallUpdate 0 2 1; CallQuery 0 2] (Some (from_size 2 0 0)) = Some [1] /\
   (exists t,
      Sparse.run plain_op (Refinement.callback plain_updVal plain_updLazy) Z.eqb
        (Sparse.depth_bound 0 1)
        (Refinement.inclusive <$> [CallUpdate 0 2 1; CallQuery 0 2])
        (Sparse.new_node 0 1 0 0)
      = Done ([1], t)) /\
   ref_run plain_op plain_updVal 0 [CallUpdate 0 2 1; CallQuery 0 2] [0; 0] = [2]) /\
  ((forall x y z, Nat.max (Nat.max x y) z = Nat.max x (Nat.max y z)) /\
   (forall x, Nat.max x 0 = x) /\
   (forall x : nat, Nat.max (Nat.max x 5) 5 = Nat.max x 5) /\
   (forall x y : nat, Nat.max (Nat.max x y) 5 = Nat.max (Nat.max x 5) (Nat.max y 5)) /\
   results Nat.max (fun x (_ : unit) => Nat.max x 5) (fun _ _ => tt) (fun _ _ => true)
     [CallUpdate 0 2 tt; CallQuery 0 1] (Some (from_size 2 0%nat tt)) = Some [0%nat] /\
   (exists t,
      Sparse.run Nat.max
        (Refinement.callback (fun x (_ : unit) => Nat.max x 5) (fun _ _ => tt))
        (fun _ _ => true) (Sparse.depth_bound 0 1)
        (Refinement.inclusive <$> [CallUpdate 0 2 tt; CallQuery 0 1])
        (Sparse.new_node 0 1 0%nat tt)
      = Done ([0%nat], t)) /\
   ref_run Nat.max (fun x (_ : unit) => Nat.max x 5) 0%nat
     [CallUpdate 0 2 tt; CallQuery 0 1] [0%nat; 0%nat] = [5%nat]) /\
  ((forall x y z : Z, (fun a _ : Z => a) ((fun a _ : Z => a) x y) z
                      = (fun a _ : Z => a) x ((fun a _ : Z => a) y z)) /\
   (forall x : Z, (fun a _ : Z => a) x 0 = x) /\
   results (fun a _ : Z => a) (fun x (_ : unit) => x) (fun _ _ => tt) (fun _ _ => true)
     [CallQuery 1 2] (from_range (fun a _ : Z => a) 0 [7; 8] 0 tt) = Some [0] /\
   ref_run (fun a _ : Z => a) (fun x (_ : unit) => x) 0 [CallQuery 1 2] [7; 8] = [8] /\
   (exists t,
      Sparse.run (fun a _ : Z => a)
        (Refinement.callback assign_updVal assign_updLazy) assign_eqb
        (Sparse.depth_bound 0 1)
        (Refinement.inclusive <$> [CallUpdate 1 2 (Some 7); CallQuery 1 2])
        (Sparse.new_node 0 1 0 None)
      = Done ([0], t)) /\
   ref_run (fun a _ : Z => a) assign_updVal 0
     [CallUpdate 1 2 (Some 7); CallQuery 1 2] [0; 0] = [7]).
Proof.
  unfold plain_op, plain_updVal, plain_updLazy.
  split; [|split].
  - split; [intros; lia|]. split; [intros; lia|]. split; [intros; lia|].
    split; [intros; lia|]. split; [intros; lia|].
    split; [vm_compute; reflexivity|].
    split; [eexists; vm_compute; reflexivity|].
    vm_compute. reflexivity.
  - split; [intros; lia|]. split; [intros; lia|]. split; [intros; lia|].
    split; [intros; lia|].
    split; [vm_compute; reflexivity|].
    split; [eexists; vm_compute; reflexivity|].
    vm_compute. reflexivity.
  - split; [reflexivity|]. split; [reflexivity|].
    split; [vm_compute; reflexivity|].
    split; [vm_compute; reflexivity|].
    split; [eexists; vm_compute; reflexivity|].
    vm_compute. reflexivity.
Qed.
